(** * Legendrian knot mosaics: the cataloguing program [file_cat.py]

    A shallow embedding of [legendrian_mosaic.batch_catalog] and the
    properties of its traversal, crossing bookkeeping, invariants and
    catalogue.

    The local variables of [batch_catalog] that belong to one traversal are
    the fields of [tstate]; the variables that live for the whole run (the
    catalogue, the output file, the knot counter) are the fields of
    [bstate].  Python lists are lists indexed the Python way: an index [k]
    with [-len <= k < 0] denotes position [len + k], any other index outside
    [0 .. len-1] raises [IndexError].  The inner [while] loop has no bound in
    the source; it is run on fuel, and [Timeout] is the answer of a run
    whose fuel is used up.

    Strings are sequences of code points below 256. Sage's HOMFLY
    computation (which may raise), the dictionary [knot_list] built from it
    and the printing of polynomials are parameters of the run.
    [to_image.py] draws a picture of one diagram and takes no part in the
    catalogue. *)

From Stdlib Require Import ZArith Ascii String List.
From stdpp Require Import base tactics option list numbers strings pretty.

Local Open Scope Z_scope.

(** ** Exceptions and results *)

Inductive exn := IndexError | ValueError.

Inductive result (A : Type) :=
| Ok (a : A)
| Raise (e : exn)
| Timeout.
Arguments Ok {A} a.
Arguments Raise {A} e.
Arguments Timeout {A}.

Definition bind {A B} (m : result A) (k : A → result B) : result B :=
  match m with
  | Ok a => k a
  | Raise e => Raise e
  | Timeout => Timeout
  end.

Notation "'do' x <- m ; k" := (bind m (λ x, k))
  (at level 10, x name, m at level 100, k at level 200).

(** ** Python list indexing *)

Definition py_index (len : nat) (k : Z) : option nat :=
  if (0 <=? k) && (k <? Z.of_nat len) then Some (Z.to_nat k)
  else if (- Z.of_nat len <=? k) && (k <? 0) then Some (Z.to_nat (Z.of_nat len + k))
  else None.

Definition py_get {A} (l : list A) (k : Z) : result A :=
  match py_index (length l) k with
  | Some n => match l !! n with Some x => Ok x | None => Raise IndexError end
  | None => Raise IndexError
  end.

Definition py_set {A} (l : list A) (k : Z) (x : A) : result (list A) :=
  match py_index (length l) k with
  | Some n => Ok (<[n := x]> l)
  | None => Raise IndexError
  end.

(** ** The port-connection table *)

Definition conn : Type := Z * Z.

Definition conn_eqb (c d : conn) : bool :=
  (fst c =? fst d) && (snd c =? snd d).

Definition valid_connections : list (list conn) :=
  [ [];
    [(2,3); (3,2)];
    [(0,3); (3,0)];
    [(0,1); (1,0)];
    [(2,1); (1,2)];
    [(2,0); (0,2)];
    [(1,3); (3,1)];
    [(2,3); (3,2); (1,0); (0,1)];
    [(0,3); (3,0); (2,1); (1,2)];
    [(0,2); (1,3); (2,0); (3,1)] ].

(** ** Traversal state: the per-diagram locals of [batch_catalog] *)

Record tstate := {
  mosaic : list Z;
  satisfied : list bool;
  crossing_number : list Z;
  gauss_code : list Z;
  crossing_signs : list Z;
  made_connections : list (list conn);
  crossing_count : Z;
  i : Z;
  num : Z;
  writhe : Z;
  up_cusps : Z;
  down_cusps : Z;
  curr_tile : Z;
  starting_tile : option Z;
  face : Z
}.

(** The state at line 151, before the first diagram is read. *)
Definition initial_tstate (size : Z) : tstate :=
  let n := Z.to_nat (size ^ 2) in
  {| mosaic := replicate n 0;
     satisfied := replicate n false;
     crossing_number := replicate n 0;
     gauss_code := [];
     crossing_signs := [];
     made_connections := replicate n [];
     crossing_count := 0;
     i := 0; num := 0; writhe := 0; up_cusps := 0; down_cusps := 0;
     curr_tile := 0; starting_tile := None; face := 0 |}.

(** ** Reading one diagram (lines 157-163) *)

(** [int(char)] on a one-character string with code point below 256: the
    ten ASCII digits are the only decimal digits there. *)
Definition is_digit (c : ascii) : bool :=
  let n := Z.of_nat (nat_of_ascii c) in (48 <=? n) && (n <=? 57).
Definition digit_value (c : ascii) : Z := Z.of_nat (nat_of_ascii c) - 48.

Definition int_of_char (c : ascii) : result Z :=
  if is_digit c then Ok (digit_value c) else Raise ValueError.

Definition parse_char (c : ascii) (st : tstate) : result tstate :=
  do n <- int_of_char c;
  do m <- py_set (mosaic st) (i st) n;
  do s <- py_set (satisfied st) (i st) (n =? 0);
  Ok {| mosaic := m;
        satisfied := s;
        crossing_number := crossing_number st;
        gauss_code := gauss_code st;
        crossing_signs := crossing_signs st;
        made_connections := made_connections st;
        crossing_count := crossing_count st;
        i := i st + 1;
        num := n;
        writhe := writhe st;
        up_cusps := up_cusps st;
        down_cusps := down_cusps st;
        curr_tile := curr_tile st;
        starting_tile :=
          match starting_tile st with
          | None => if n =? 0 then None else Some (i st)
          | Some s0 => Some s0
          end;
        face := face st |}.

Fixpoint parse_chars (cs : list ascii) (st : tstate) : result tstate :=
  match cs with
  | [] => Ok st
  | c :: cs' => do st' <- parse_char c st; parse_chars cs' st'
  end.

Definition parse_line (s : string) (st : tstate) : result tstate :=
  parse_chars (list_ascii_of_string s) st.

(** Lines 167-168: the walk is placed on the starting tile, entering by the
    entry port of the first connection of its type. *)
Definition enter (s0 : Z) (st : tstate) : result tstate :=
  do t <- py_get (mosaic st) s0;
  do conns <- py_get valid_connections t;
  do c0 <- py_get conns 0;
  Ok {| mosaic := mosaic st;
        satisfied := satisfied st;
        crossing_number := crossing_number st;
        gauss_code := gauss_code st;
        crossing_signs := crossing_signs st;
        made_connections := made_connections st;
        crossing_count := crossing_count st;
        i := i st; num := num st; writhe := writhe st;
        up_cusps := up_cusps st; down_cusps := down_cusps st;
        curr_tile := s0;
        starting_tile := starting_tile st;
        face := fst c0 |}.

(** ** One iteration of the traversal loop (lines 169-211) *)

(** The loop test [curr_tile != starting_tile or not satisfied[curr_tile]];
    [or] does not evaluate its second operand when the first is true. *)
Definition loop_cond (st : tstate) : result bool :=
  match starting_tile st with
  | Some s0 =>
      if curr_tile st =? s0
      then do b <- py_get (satisfied st) (curr_tile st); Ok (negb b)
      else Ok true
  | None => Ok true
  end.

(** The connection selected by the [for] loop: the first one of the tile's
    type whose entry port is the current face, if any. *)
Definition select_conn (st : tstate) : result (option conn) :=
  do t <- py_get (mosaic st) (curr_tile st);
  do conns <- py_get valid_connections t;
  Ok (find (λ c, fst c =? face st) conns).

Definition is_down_cusp (c : conn) : bool :=
  existsb (conn_eqb c) [(0,3); (1,2)].
Definition is_up_cusp (c : conn) : bool :=
  existsb (conn_eqb c) [(3,0); (2,1)].

(** The signed Gauss-code entry of a pass entering by port [p]. *)
Definition signed (p k : Z) : Z :=
  if p `mod` 2 =? 1 then k else - k.

(** The displacement of [curr_tile] for the new entry face. *)
Definition advance (size f c : Z) : Z :=
  if f =? 0 then c - 1
  else if f =? 1 then c + size
  else if f =? 2 then c + 1
  else if f =? 3 then c - size
  else c.

(** The body of [if conn[0] == face:] (lines 172-211). *)
Definition visit (size : Z) (c : conn) (st : tstate) : result tstate :=
  let cur := curr_tile st in
  do t <- py_get (mosaic st) cur;
  do mc <- py_get (made_connections st) cur;
  let mc' := mc ++ [c] in
  do made' <- py_set (made_connections st) cur mc';
  do sat' <-
    (if ((Z.of_nat (length mc') =? 1) && (t <? 7)) || (Z.of_nat (length mc') =? 2)
     then py_set (satisfied st) cur true
     else Ok (satisfied st));
  let down' := if is_down_cusp c then down_cusps st + 1 else down_cusps st in
  let up' := if is_up_cusp c then up_cusps st + 1 else up_cusps st in
  do r <-
    (if t =? 9 then
       do s <- py_get sat' cur;
       if (s : bool) then
         do k <- py_get (crossing_number st) cur;
         do first <- py_get mc' 0;
         if fst c + fst first =? 3 then
           do sg <- py_set (crossing_signs st) (k - 1) 1;
           Ok (crossing_number st, gauss_code st ++ [signed (fst c) k],
               sg, crossing_count st, writhe st + 1)
         else
           do sg <- py_set (crossing_signs st) (k - 1) (-1);
           Ok (crossing_number st, gauss_code st ++ [signed (fst c) k],
               sg, crossing_count st, writhe st - 1)
       else
         let k := crossing_count st + 1 in
         do cn <- py_set (crossing_number st) cur k;
         Ok (cn, gauss_code st ++ [signed (fst c) k],
             crossing_signs st ++ [0], k, writhe st)
     else Ok (crossing_number st, gauss_code st, crossing_signs st,
              crossing_count st, writhe st));
  let '(cn', gauss', signs', count', writhe') := r in
  let face' := (snd c + 2) `mod` 4 in
  Ok {| mosaic := mosaic st;
        satisfied := sat';
        crossing_number := cn';
        gauss_code := gauss';
        crossing_signs := signs';
        made_connections := made';
        crossing_count := count';
        i := i st; num := num st;
        writhe := writhe';
        up_cusps := up';
        down_cusps := down';
        curr_tile := advance size face' cur;
        starting_tile := starting_tile st;
        face := face' |}.

(** The body of the [while]: when no connection of the tile matches the
    face the [for] loop ends without [break] and nothing has changed. *)
Definition loop_body (size : Z) (st : tstate) : result tstate :=
  do oc <- select_conn st;
  match oc with
  | Some c => visit size c st
  | None => Ok st
  end.

Fixpoint traversal (size : Z) (fuel : nat) (st : tstate) : result tstate :=
  do b <- loop_cond st;
  if (b : bool) then
    match fuel with
    | O => Timeout
    | S fuel' => do st' <- loop_body size st; traversal size fuel' st'
    end
  else Ok st.

(** Lines 157-168 for one non-empty line: the diagram is read, and either
    it has no non-empty tile ([Skipped]: the iteration is left by
    [continue]) or the walk is placed on its starting tile ([Placed]). *)
Inductive placed :=
| Skipped (st : tstate)
| Placed (st : tstate).

Definition start_diagram (s : string) (st : tstate) : result placed :=
  do st0 <- parse_line s st;
  match starting_tile st0 with
  | None => Ok (Skipped st0)
  | Some s0 => do st1 <- enter s0 st0; Ok (Placed st1)
  end.

(** Lines 157-211: [Placed st2] is the state in which the [while] loop has
    been left. *)
Definition traverse_diagram (size : Z) (fuel : nat) (s : string) (st : tstate)
  : result placed :=
  do w <- start_diagram s st;
  match w with
  | Skipped st0 => Ok (Skipped st0)
  | Placed st1 => do st2 <- traversal size fuel st1; Ok (Placed st2)
  end.

(** Lines 222-232. *)
Definition reset (st : tstate) : tstate :=
  {| mosaic := mosaic st;
     satisfied := satisfied st;
     crossing_number := crossing_number st;
     gauss_code := [];
     crossing_signs := [];
     made_connections := (λ _, []) <$> made_connections st;
     crossing_count := 0;
     i := 0; num := 0; writhe := 0; up_cusps := 0; down_cusps := 0;
     curr_tile := curr_tile st;
     starting_tile := None;
     face := face st |}.

Definition all_satisfied (st : tstate) : bool := forallb id (satisfied st).

(** ** The run: catalogue, output file, knot counter *)

(** The first component of a catalogue key: a knot name of [knot_list], or
    the HOMFLY polynomial itself when [knot_list] has no entry for it. *)
Inductive identity (poly : Type) :=
| Name (s : string)
| Homfly (p : poly).
Arguments Name {poly} s.
Arguments Homfly {poly} p.

Global Instance identity_eq_dec {poly} `{EqDecision poly} :
  EqDecision (identity poly).
Proof. solve_decision. Defined.

(** The output file: [write] appends to the buffer, [flush] moves the
    buffer to the disk. *)
Record out_file := {
  buffered : list string;
  on_disk : list string
}.

Definition write (s : string) (f : out_file) : out_file :=
  {| buffered := buffered f ++ [s]; on_disk := on_disk f |}.
Definition flush (f : out_file) : out_file :=
  {| buffered := []; on_disk := on_disk f ++ buffered f |}.

(** [str.strip()] on code points below 256. *)
Definition is_space (c : ascii) : bool :=
  let n := Z.of_nat (nat_of_ascii c) in
  ((9 <=? n) && (n <=? 13)) || ((28 <=? n) && (n <=? 32))
  || (n =? 133) || (n =? 160).

Fixpoint lstrip (cs : list ascii) : list ascii :=
  match cs with
  | c :: cs' => if is_space c then lstrip cs' else cs
  | [] => []
  end.

Definition strip (s : string) : string :=
  string_of_list_ascii
    (rev (lstrip (rev (lstrip (list_ascii_of_string s))))).

(** The format specification [:>3]: right-justified in a field of width 3,
    never truncated. *)
Definition rjust3 (s : string) : string :=
  string_of_list_ascii (replicate (3 - String.length s) " "%char) +:+ s.

Section Catalogue.
Context {poly : Type} `{EqDecision poly}.

(** [Link([[gauss_code], crossing_signs]).homfly_polynomial()], the
    dictionary [knot_list] and [str] on polynomials are Sage's; they are
    parameters of the run.  The call of Sage may raise: [Link] raises
    ValueError for data that it does not take for a Gauss code, and nothing
    in [batch_catalog] catches an exception.  *)
Variable homfly_polynomial : list Z → list Z → result poly.
Variable knot_list : poly → option string.
Variable poly_str : poly → string.

Definition key : Type := identity poly * Z * Z.

(** The variables of [batch_catalog] that outlive a diagram, the
    traversal state, and the list of the calls made to Sage's HOMFLY
    computation (a ghost field: the source has no such list). *)
Record bstate := {
  tr : tstate;
  knot_catalog : list (key * string);
  out : out_file;
  knot_count : Z;
  homfly_calls : list (list Z * list Z)
}.

Definition with_tr (b : bstate) (st : tstate) : bstate :=
  {| tr := st; knot_catalog := knot_catalog b; out := out b;
     knot_count := knot_count b; homfly_calls := homfly_calls b |}.

Definition identity_str (x : identity poly) : string :=
  match x with Name s => s | Homfly p => poly_str p end.

(** The f-string of line 217. *)
Definition record_line (tup : key) (mosaic_string : string) : string :=
  let '(x, tb, rot) := tup in
  identity_str x +:+ " | " +:+ rjust3 (pretty tb) +:+ " | "
    +:+ rjust3 (pretty rot) +:+ " | " +:+ mosaic_string
    +:+ String "010"%char EmptyString.

(** The smooth knot type of line 215. [dict.get(k, d)] evaluates both
    arguments, so the polynomial is computed twice, once for the key [k]
    and once for the default [d]; an exception of either call leaves
    [batch_catalog]. *)
Definition knot_type (st : tstate) : result (identity poly) :=
  if Z.of_nat (length (gauss_code st)) <? 3 then Ok (Name "0_1")
  else
    do k <- homfly_polynomial (gauss_code st) (crossing_signs st);
    do d <- homfly_polynomial (gauss_code st) (crossing_signs st);
    Ok (match knot_list k with Some n => Name n | None => Homfly d end).

Definition knot_type_calls (st : tstate) : list (list Z * list Z) :=
  if Z.of_nat (length (gauss_code st)) <? 3 then []
  else [(gauss_code st, crossing_signs st); (gauss_code st, crossing_signs st)].

Definition tup_of (st : tstate) : result key :=
  do x <- knot_type st;
  Ok (x,
      writhe st - (up_cusps st + down_cusps st) `div` 2,
      Z.abs (up_cusps st - down_cusps st) `div` 2).

(** Lines 212-219. When line 215 raises, the increment of line 213 is lost
    with the run. *)
Definition catalog (mosaic_string : string) (b : bstate) : result bstate :=
  if all_satisfied (tr b) then
    do tup <- tup_of (tr b);
    let calls := homfly_calls b ++ knot_type_calls (tr b) in
    if bool_decide (tup ∈ (knot_catalog b).*1) then
      Ok {| tr := tr b; knot_catalog := knot_catalog b; out := out b;
            knot_count := knot_count b + 1; homfly_calls := calls |}
    else
      Ok {| tr := tr b;
            knot_catalog := knot_catalog b ++ [(tup, mosaic_string)];
            out := flush (write (record_line tup mosaic_string) (out b));
            knot_count := knot_count b + 1; homfly_calls := calls |}
  else Ok b.

(** One iteration of the outer [while] for a non-empty stripped line
    (lines 157-232). The [continue] of line 165 leaves the iteration
    before the reset of lines 222-232. *)
Definition diagram (size : Z) (fuel : nat) (s : string) (b : bstate)
  : result bstate :=
  do w <- traverse_diagram size fuel s (tr b);
  match w with
  | Skipped st0 => Ok (with_tr b st0)
  | Placed st2 =>
      do b' <- catalog s (with_tr b st2);
      Ok (with_tr b' (reset (tr b')))
  end.

(** The outer loop over the lines that [readline] returns; an exhausted
    file returns the empty string. *)
Fixpoint batch_loop (size : Z) (fuel : nat) (lines : list string) (b : bstate)
  : result bstate :=
  match lines with
  | [] => Ok b
  | l :: rest =>
      let s := strip l in
      if String.length s =? 0 then Ok b
      else do b' <- diagram size fuel s b; batch_loop size fuel rest b'
  end%nat.

(** [int(len(header) ** 0.5)]: the floor of the square root, which the
    floating-point expression yields for every length a file can have. *)
Definition size_of_header (header : string) : Z :=
  Z.sqrt (Z.of_nat (String.length (strip header))).

Definition initial_bstate (size : Z) : bstate :=
  {| tr := initial_tstate size; knot_catalog := [];
     out := {| buffered := []; on_disk := [] |};
     knot_count := 0; homfly_calls := [] |}.

(** [batch_catalog]: the contents of the output file after [close] and
    the number printed. [fuel] bounds each traversal. *)
Definition batch_catalog (fuel : nat) (in_file : list string)
  : result (list string * Z) :=
  let size := size_of_header (hd "" in_file) in
  do b <- batch_loop size fuel (tl in_file) (initial_bstate size);
  Ok (on_disk (flush (out b)), knot_count b).

End Catalogue.

(** ** Predicates of the specification *)

(** The four per-tile arrays have the length of the grid. *)
Definition shape (n : nat) (st : tstate) : Prop :=
  length (mosaic st) = n ∧ length (satisfied st) = n ∧
  length (crossing_number st) = n ∧ length (made_connections st) = n.

(** The state in which a diagram is read: the one of line 151 and the one
    that lines 222-232 leave. The tiles, the saturation flags and the
    crossing numbers of the previous diagram are still there. *)
Definition fresh_state (n : nat) (st : tstate) : Prop :=
  shape n st ∧ gauss_code st = [] ∧ crossing_signs st = [] ∧
  made_connections st = replicate n [] ∧ crossing_count st = 0 ∧
  i st = 0 ∧ writhe st = 0 ∧ up_cusps st = 0 ∧ down_cusps st = 0 ∧
  starting_tile st = None.

(** Every tile of the grid is marked saturated. *)
Definition saturated (st : tstate) : Prop :=
  ∀ idx b, satisfied st !! idx = Some b → b = true.

(** The two kinds of entry port: through ports 1 and 2 the walk moves down
    or to the right, through ports 0 and 3 to the left or up. *)
Definition port_class (f : Z) : bool := (f =? 1) || (f =? 2).

(** A trivial instance of Sage's HOMFLY computation, for runs in which it
    plays no part. *)
Definition no_homfly (g s : list Z) : result unit := Ok tt.
Definition no_knot_list (p : unit) : option string := None.
Definition no_poly_str (p : unit) : string := "?".

(** One more instance for the examples: it raises ValueError, as the
    constructor of Sage's [Link] does, when the Gauss code has not two
    entries for each sign, and has one value for all other data. *)
Definition checking_homfly (g s : list Z) : result unit :=
  if (2 * length s =? length g)%nat then Ok tt else Raise ValueError.

(** [iterations size k st st']: [k] iterations of the traversal loop lead
    from [st] to [st']. *)
Inductive iterations (size : Z) : nat → tstate → tstate → Prop :=
| iterations_O st : iterations size 0 st st
| iterations_S k st st' st'' :
    loop_cond st = Ok true →
    loop_body size st = Ok st' →
    iterations size k st' st'' →
    iterations size (S k) st st''.

(** A character that [int] does not convert. *)
Definition not_a_digit (c : ascii) : Prop := int_of_char c = Raise ValueError.

(** A line of the input format: [n] decimal digits. *)
Definition diagram_line (n : nat) (s : string) : bool :=
  (length (list_ascii_of_string s) =? n)%nat
  && forallb is_digit (list_ascii_of_string s).

(** The tile types a line denotes. *)
Definition tiles_of (s : string) : list Z :=
  digit_value <$> list_ascii_of_string s.

(** The position of the first non-empty tile. *)
Fixpoint first_nonzero (ds : list Z) : option nat :=
  match ds with
  | [] => None
  | d :: ds' => if d =? 0 then S <$> first_nonzero ds' else Some 0%nat
  end.

(** What the table must satisfy for the parity of the cusp count to follow
    the kind of the entry port: a connection is a cusp exactly when it
    changes the kind of port, and no connection is both an up and a down
    cusp. *)
Definition cusp_changes_class (c : conn) : bool :=
  eqb (xorb (port_class (fst c)) (port_class ((snd c + 2) `mod` 4)))
      (is_up_cusp c || is_down_cusp c)
  && negb (is_up_cusp c && is_down_cusp c).

(** The state after one more digit [d] has been stored at position [idx]. *)
Definition parsed_char (d : Z) (idx : nat) (st : tstate) : tstate :=
  {| mosaic := <[idx := d]> (mosaic st);
     satisfied := <[idx := (d =? 0)]> (satisfied st);
     crossing_number := crossing_number st;
     gauss_code := gauss_code st;
     crossing_signs := crossing_signs st;
     made_connections := made_connections st;
     crossing_count := crossing_count st;
     i := i st + 1; num := d; writhe := writhe st;
     up_cusps := up_cusps st; down_cusps := down_cusps st;
     curr_tile := curr_tile st;
     starting_tile :=
       match starting_tile st with
       | None => if d =? 0 then None else Some (i st)
       | Some s0 => Some s0
       end;
     face := face st |}.

(** The state after the digits [ds] have been stored from position [i]
    on. *)
Definition parsed (ds : list Z) (st : tstate) : tstate :=
  let k := Z.to_nat (i st) in
  {| mosaic := take k (mosaic st) ++ ds ++ drop (k + length ds) (mosaic st);
     satisfied := take k (satisfied st) ++ ((λ d, d =? 0) <$> ds)
                    ++ drop (k + length ds) (satisfied st);
     crossing_number := crossing_number st;
     gauss_code := gauss_code st;
     crossing_signs := crossing_signs st;
     made_connections := made_connections st;
     crossing_count := crossing_count st;
     i := i st + Z.of_nat (length ds);
     num := default (num st) (last ds);
     writhe := writhe st;
     up_cusps := up_cusps st; down_cusps := down_cusps st;
     curr_tile := curr_tile st;
     starting_tile :=
       match starting_tile st with
       | None => (λ p, i st + Z.of_nat p) <$> first_nonzero ds
       | Some s0 => Some s0
       end;
     face := face st |}.

(** The saturation flags after one more connection has been recorded at
    position [idx], a tile of type [t] that now has [len] of them
    (lines 173-174). *)
Definition saturate (t : Z) (len : nat) (idx : nat) (sat : list bool) : list bool :=
  if ((Z.of_nat len =? 1) && (t <? 7)) || (Z.of_nat len =? 2)
  then <[idx := true]> sat else sat.

(** The state after a visit of the tile at position [idx], which had the
    connections [m] recorded, by the connection [c], given what the
    crossing logic has made of the crossing numbers, the Gauss code, the
    signs, the crossing counter and the writhe. *)
Definition moved (size : Z) (c : conn) (idx : nat) (t : Z) (m : list conn)
    (cn : list Z) (gauss signs : list Z) (count wr : Z) (st : tstate) : tstate :=
  {| mosaic := mosaic st;
     satisfied := saturate t (length (m ++ [c])) idx (satisfied st);
     crossing_number := cn;
     gauss_code := gauss;
     crossing_signs := signs;
     made_connections := <[idx := m ++ [c]]> (made_connections st);
     crossing_count := count;
     i := i st; num := num st;
     writhe := wr;
     up_cusps := if is_up_cusp c then up_cusps st + 1 else up_cusps st;
     down_cusps := if is_down_cusp c then down_cusps st + 1 else down_cusps st;
     curr_tile := advance size ((snd c + 2) `mod` 4) (curr_tile st);
     starting_tile := starting_tile st;
     face := (snd c + 2) `mod` 4 |}.

(** The entries of the Gauss code [g] that name the crossing [k], and the
    entries that the passes [m] recorded at its tile give: [+k] for a pass
    entering by an odd port, [-k] for one entering by an even port. *)
Definition occurrences (k : Z) (g : list Z) : list Z :=
  filter (λ x, Z.abs x = k) g.
Definition passes (k : Z) (m : list conn) : list Z :=
  (λ c, signed (fst c) k) <$> m.

(** The sign of crossing [k] is +1 or -1. *)
Definition resolved (st : tstate) (k : Z) : Prop :=
  crossing_signs st !! Z.to_nat (k - 1) = Some 1 ∨
  crossing_signs st !! Z.to_nat (k - 1) = Some (-1).

(** The tile at position [idx] is a crossing that has been passed and
    carries the identity [k]. *)
Definition allocated (st : tstate) (idx : nat) (k : Z) : Prop :=
  ∃ m, mosaic st !! idx = Some 9 ∧ made_connections st !! idx = Some m ∧
       m ≠ [] ∧ crossing_number st !! idx = Some k.

(** What the bookkeeping holds of a crossing tile with the passes [m]. *)
Definition crossing_recorded (st : tstate) (idx : nat) (m : list conn) : Prop :=
  ∃ k, crossing_number st !! idx = Some k ∧
       1 ≤ k ≤ crossing_count st ∧
       occurrences k (gauss_code st) = passes k m ∧
       satisfied st !! idx = Some (bool_decide (2 ≤ length m)%nat) ∧
       ((2 ≤ length m)%nat → resolved st k).

(** The invariant of the traversal loop on the crossings. *)
Definition crossing_inv (n : nat) (st : tstate) : Prop :=
  shape n st ∧
  crossing_count st = Z.of_nat (length (crossing_signs st)) ∧
  Forall (λ x, 1 ≤ Z.abs x ≤ crossing_count st) (gauss_code st) ∧
  0 ≤ face st ≤ 3 ∧
  (∀ idx, mosaic st !! idx = Some 9 →
          made_connections st !! idx = Some [] →
          satisfied st !! idx = Some false) ∧
  (∀ idx m, mosaic st !! idx = Some 9 →
            made_connections st !! idx = Some m → m ≠ [] →
            crossing_recorded st idx m) ∧
  (∀ idx1 idx2 k, allocated st idx1 k → allocated st idx2 k → idx1 = idx2) ∧
  (∀ k, 1 ≤ k ≤ crossing_count st → ∃ idx, allocated st idx k).

(** Both ports of a connection of the table are among 0, 1, 2, 3. *)
Definition ports_ok (c : conn) : bool :=
  (0 <=? fst c) && (fst c <=? 3) && (0 <=? snd c) && (snd c <=? 3).

(** The state [st] with other crossing numbers. *)
Definition with_numbers (cn : list Z) (st : tstate) : tstate :=
  {| mosaic := mosaic st; satisfied := satisfied st;
     crossing_number := cn;
     gauss_code := gauss_code st; crossing_signs := crossing_signs st;
     made_connections := made_connections st;
     crossing_count := crossing_count st;
     i := i st; num := num st; writhe := writhe st;
     up_cusps := up_cusps st; down_cusps := down_cusps st;
     curr_tile := curr_tile st; starting_tile := starting_tile st;
     face := face st |}.

(** Two states of the same walk: they differ at most in the crossing
    numbers of the tiles that are no crossing passed so far. *)
Definition same_walk (n : nat) (st st' : tstate) : Prop :=
  ∃ cn', st' = with_numbers cn' st ∧ length cn' = n ∧
    ∀ idx m, mosaic st !! idx = Some 9 →
             made_connections st !! idx = Some m → m ≠ [] →
             crossing_number st !! idx = cn' !! idx.

(** The state in which the walk over the line [s] starts, on the tile at
    position [p] and entering by port [f]. *)
Definition placed_state (n : nat) (s : string) (p : nat) (f : Z) (cn : list Z)
  : tstate :=
  {| mosaic := tiles_of s;
     satisfied := (λ d, d =? 0) <$> tiles_of s;
     crossing_number := cn;
     gauss_code := []; crossing_signs := [];
     made_connections := replicate n [];
     crossing_count := 0;
     i := Z.of_nat n; num := default 0 (last (tiles_of s));
     writhe := 0; up_cusps := 0; down_cusps := 0;
     curr_tile := Z.of_nat p; starting_tile := Some (Z.of_nat p);
     face := f |}.

(** What a traversal yields: the Gauss code, the signs, the writhe, the
    two cusp counts and the saturation flags, or nothing for a diagram
    without tiles. *)
Definition outcome (r : result placed)
  : result (option (list Z * list Z * Z * Z * Z * list bool)) :=
  match r with
  | Ok (Placed st) =>
      Ok (Some (gauss_code st, crossing_signs st, writhe st,
                up_cusps st, down_cusps st, satisfied st))
  | Ok (Skipped _) => Ok None
  | Raise e => Raise e
  | Timeout => Timeout
  end.

(** ** Invariants of the run and of the walk *)

(** The lines that line 217 writes for the entries of a catalogue. *)
Definition catalogue_lines {poly : Type} (poly_str : poly → string)
    (cat : list (identity poly * Z * Z * string)) : list string :=
  (λ e, record_line poly_str e.1 e.2) <$> cat.

(** The output file holds, flushed, one line for each entry of the
    catalogue, in the order of the entries, no key is there twice, and
    every entry has been counted. *)
Definition tidy {poly : Type} (poly_str : poly → string) (b : bstate) : Prop :=
  buffered (out b) = [] ∧
  on_disk (out b) = catalogue_lines poly_str (knot_catalog b) ∧
  NoDup (knot_catalog b).*1 ∧
  Z.of_nat (length (knot_catalog b)) ≤ knot_count b.

(** The number of passes after which a tile of type [t] is saturated
    (line 173): none for an empty tile, one for the types below 7, two for
    the others. *)
Definition passes_needed (t : Z) : nat :=
  if t =? 0 then 0 else if t <? 7 then 1 else 2.

(** The connection [c] is one of those the table lists for the type [t]. *)
Definition listed (t : Z) (c : conn) : Prop :=
  ∃ row, valid_connections !! Z.to_nat t = Some row ∧ c ∈ row.

(** The invariant of the traversal loop on the tiles: the tile types are
    digits, the connections recorded at a tile are connections of its type,
    and the tile is marked saturated exactly when it has been passed as
    often as its type needs. *)
Definition walk_inv (n : nat) (st : tstate) : Prop :=
  shape n st ∧
  ∀ idx t m, mosaic st !! idx = Some t →
             made_connections st !! idx = Some m →
             0 ≤ t ≤ 9 ∧ Forall (listed t) m ∧
             satisfied st !! idx
             = Some (bool_decide (passes_needed t ≤ length m)%nat).

(** The sum of a list of integers. *)
Definition total (l : list Z) : Z := foldr Z.add 0 l.

(** The signs recorded so far: 0 for a crossing passed once, +1 or -1 for
    a crossing passed again, and the writhe is their sum as long as no
    crossing has been passed more than twice. *)
Definition sign_inv (st : tstate) : Prop :=
  Forall (λ x, x = 0 ∨ x = 1 ∨ x = -1) (crossing_signs st) ∧
  ((∀ idx m, mosaic st !! idx = Some 9 →
             made_connections st !! idx = Some m → (length m ≤ 2)%nat) →
   writhe st = total (crossing_signs st) ∧
   ∀ idx c k, mosaic st !! idx = Some 9 →
              made_connections st !! idx = Some [c] →
              crossing_number st !! idx = Some k →
              crossing_signs st !! Z.to_nat (k - 1) = Some 0).

(** ** The image script: [to_image.py] *)

(** An RGBA pixel, and an image of the imaging library: its two sizes and
    the value of each pixel. *)
Definition pixel : Type := Z * Z * Z * Z.

Record image := Image {
  xsize : Z;
  ysize : Z;
  pixel_at : Z → Z → pixel }.

(** [Image.new("RGBA", (w, h), color)]. *)
Definition new_image (w h : Z) (color : pixel) : image :=
  Image w h (λ _ _, color).

(** [getpixel] and [putpixel] of the imaging library: a negative
    coordinate counts from the far edge, and a position outside the image
    raises IndexError. *)
Definition wrap (size k : Z) : Z := if k <? 0 then size + k else k.

Definition inside (im : image) (x y : Z) : bool :=
  (0 <=? x) && (x <? xsize im) && (0 <=? y) && (y <? ysize im).

Definition getpixel (im : image) (x y : Z) : result pixel :=
  let x := wrap (xsize im) x in
  let y := wrap (ysize im) y in
  if inside im x y then Ok (pixel_at im x y) else Raise IndexError.

Definition putpixel (im : image) (x y : Z) (p : pixel) : result image :=
  let x := wrap (xsize im) x in
  let y := wrap (ysize im) y in
  if inside im x y
  then Ok (Image (xsize im) (ysize im)
             (λ x' y', if (x' =? x) && (y' =? y) then p else pixel_at im x' y'))
  else Raise IndexError.

(** A [for] loop whose body may raise. *)
Fixpoint for_each {A B} (body : B → A → result A) (l : list B) (a : A)
    : result A :=
  match l with
  | [] => Ok a
  | b :: l => do a' <- body b a; for_each body l a'
  end.

(** [enumerate(matrix)]. *)
Fixpoint enumerate_from {B} (i : Z) (l : list B) : list (Z * B) :=
  match l with
  | [] => []
  | b :: l => (i, b) :: enumerate_from (i + 1) l
  end.
Definition enumerate {B} (l : list B) : list (Z * B) := enumerate_from 0 l.

Definition tile_size : Z := 128.
Definition border_size : Z := 4.
Definition border_color : pixel := (196, 196, 196, 255).

(** Lines 26-32: the dictionary of the tile images.  [tiles num] is the
    image of the file tiles/num.png converted to RGBA, and [None] when the
    file is not found; only the numbers 0 to 9 are looked for. *)
Definition tile_images (tiles : Z → option image) (num : Z) : option image :=
  if (0 <=? num) && (num <? 10) then tiles num else None.

(** Lines 42-44: one row of the tile in cell [i]. *)
Definition put_row (img_tile : image) (size i y : Z) (mosaic : image)
    : result image :=
  for_each (λ x mosaic,
      do pixel <- getpixel img_tile x y;
      putpixel mosaic ((i mod size) * tile_size + x + border_size)
                      ((i / size) * tile_size + y + border_size) pixel)
    (seqZ 0 tile_size) mosaic.

(** Lines 41-44: the tile in cell [i]. *)
Definition put_tile (img_tile : image) (size i : Z) (mosaic : image)
    : result image :=
  for_each (put_row img_tile size i) (seqZ 0 tile_size) mosaic.

(** Lines 20-44 of [to_png]: the image [mosaic] that line 47 rotates and
    line 48 saves.  The size is [int(len(matrix)**0.5)], the integer
    square root for every length that a command line can hold; a matrix
    that is not empty has a size of 1 at least, so that line 44 never
    divides by zero. *)
Definition to_png (tiles : Z → option image) (matrix : list Z)
    : result image :=
  let size := Z.sqrt (Z.of_nat (length matrix)) in
  let mosaic_width := size * tile_size + 2 * border_size in
  let mosaic := new_image mosaic_width mosaic_width border_color in
  for_each (λ '(i, tile) mosaic,
      match tile_images tiles tile with
      | Some img_tile => put_tile img_tile size i mosaic
      | None => Ok mosaic
      end)
    (enumerate matrix) mosaic.

(** Line 17: [[int(digit) for digit in mosaic_string]]. *)
Fixpoint digits (cs : list ascii) : result (list Z) :=
  match cs with
  | [] => Ok []
  | c :: cs => do n <- int_of_char c; do ns <- digits cs; Ok (n :: ns)
  end.

(** [p.rfind(c)]: the index of the last [c] in [p], and -1 when there is
    none. *)
Fixpoint rfind (c : ascii) (p : list ascii) : Z :=
  match p with
  | [] => -1
  | a :: p =>
      let r := rfind c p in
      if 0 <=? r then r + 1 else if Ascii.eqb a c then 0 else -1
  end.

(** The second component of [os.path.splitext(p)]: what stands from the
    last dot of [p] on, when that dot comes after the last "/" and some
    character between the two is no dot; the empty string otherwise. *)
Definition extension (p : list ascii) : list ascii :=
  let sepIndex := rfind "/" p in
  let dotIndex := rfind "." p in
  if (sepIndex <? dotIndex)
     && existsb (λ a, negb (Ascii.eqb a "."))
          (take (Z.to_nat (dotIndex - (sepIndex + 1)))
             (drop (Z.to_nat (sepIndex + 1)) p))
  then drop (Z.to_nat dotIndex) p
  else [].

(** Lines 46-48 of [to_png]: the mosaic is rotated and saved as
    images/output_filename.  [save] takes the file format from the
    extension of the name and raises ValueError when it knows none for
    it; the names that [main] makes end in ".png", so that their extension
    is ".png" or empty.  The rotation is a parameter; [makedirs] and the
    writing of the file are taken to succeed. *)
Definition save_rotated (rotate : image → image) (output_filename : string)
    (mosaic : image) : result (string * image) :=
  let path := "images/" +:+ output_filename in
  if bool_decide (extension (list_ascii_of_string path)
                  = list_ascii_of_string ".png")
  then Ok (path, rotate mosaic)
  else Raise ValueError.

(** Lines 12-18: [main] on the command line [argv].  The result is the
    file that [to_png] saves, its name and its image, or nothing when the
    usage message is printed. *)
Definition main (rotate : image → image) (tiles : Z → option image)
    (argv : list string) : result (option (string * image)) :=
  if bool_decide (length argv ≠ 2%nat) then Ok None
  else
    match argv !! 1%nat with
    | Some mosaic_string =>
        do mosaic <- digits (list_ascii_of_string mosaic_string);
        do img <- to_png tiles mosaic;
        do saved <- save_rotated rotate (mosaic_string +:+ ".png") img;
        Ok (Some saved)
    | None => Ok None
    end.

(** The corner of the cell [i] in a mosaic of [size] cells a side. *)
Definition cell_x (size i : Z) : Z := (i mod size) * tile_size + border_size.
Definition cell_y (size i : Z) : Z := (i / size) * tile_size + border_size.

(** Every tile of the matrix that has an image lies in the square of
    [size] by [size] cells, and its image is large enough. *)
Definition drawable (tiles : Z → option image) (matrix : list Z) : Prop :=
  ∀ (i : nat) t img_tile,
    matrix !! i = Some t → tile_images tiles t = Some img_tile →
    Z.of_nat i < Z.sqrt (Z.of_nat (length matrix))
                 * Z.sqrt (Z.of_nat (length matrix)) ∧
    tile_size ≤ xsize img_tile ∧ tile_size ≤ ysize img_tile.

(** The pixel at [(X, Y)] once the first [k] cells have been drawn: the
    pixel of the tile image for a position in a cell that has one, the
    border colour everywhere else. *)
Definition painted (tiles : Z → option image) (matrix : list Z)
    (size k X Y : Z) : pixel :=
  if (border_size <=? X) && (X <? border_size + size * tile_size)
     && (border_size <=? Y) && (Y <? border_size + size * tile_size)
  then
    let i := (Y - border_size) / tile_size * size
             + (X - border_size) / tile_size in
    if i <? k then
      match matrix !! Z.to_nat i with
      | Some t =>
          match tile_images tiles t with
          | Some img_tile =>
              pixel_at img_tile ((X - border_size) mod tile_size)
                                ((Y - border_size) mod tile_size)
          | None => border_color
          end
      | None => border_color
      end
    else border_color
  else border_color.

(** A result that is a value or an IndexError. *)
Definition index_error {A} (r : result A) : Prop :=
  match r with Ok _ | Raise IndexError => True | _ => False end.

(** Tile files for the examples: every tile a black square of the right
    size; no tile file at all. *)
Definition black_tiles : Z → option image :=
  λ _, Some (new_image tile_size tile_size (0, 0, 0, 255)).
Definition no_tiles : Z → option image := λ _, None.

(** A rotation for the examples: the one that changes nothing. *)
Definition no_rotation : image → image := λ img, img.

(** ** Results and Python indexing *)

Lemma bind_Ok {A B} (m : result A) (k : A → result B) b :
  bind m k = Ok b → ∃ a, m = Ok a ∧ k a = Ok b.
Proof. destruct m; simpl; intros; eauto; discriminate. Qed.

Ltac bind_inv H :=
  let a := fresh "x" in
  let E := fresh "E" in
  apply bind_Ok in H; destruct H as (a & E & H).

Lemma py_index_spec n k :
  (0 ≤ k < Z.of_nat n ∧ py_index n k = Some (Z.to_nat k)) ∨
  (- Z.of_nat n ≤ k < 0 ∧ py_index n k = Some (Z.to_nat (Z.of_nat n + k))) ∨
  ((k < - Z.of_nat n ∨ Z.of_nat n ≤ k) ∧ py_index n k = None).
Proof.
  unfold py_index.
  destruct (Z.leb_spec 0 k), (Z.ltb_spec k (Z.of_nat n)),
    (Z.leb_spec (- Z.of_nat n) k), (Z.ltb_spec k 0); simpl;
    first [ left; split; [lia | reflexivity]
          | right; left; split; [lia | reflexivity]
          | right; right; split; [lia | reflexivity] ].
Qed.

Lemma py_index_lt n k idx : py_index n k = Some idx → (idx < n)%nat.
Proof.
  destruct (py_index_spec n k) as [[? ->]|[[? ->]|[? ->]]];
    intros [= <-]; lia.
Qed.

Lemma py_index_nonneg n k :
  0 ≤ k < Z.of_nat n → py_index n k = Some (Z.to_nat k).
Proof.
  intros ?. destruct (py_index_spec n k) as [[? ->]|[[? ->]|[? ->]]];
    first [done | lia].
Qed.

Lemma py_index_None n k :
  py_index n k = None ↔ k < - Z.of_nat n ∨ Z.of_nat n ≤ k.
Proof.
  destruct (py_index_spec n k) as [[? ->]|[[? ->]|[? ->]]];
    split; intros; first [done | lia].
Qed.

Lemma py_get_Ok {A} (l : list A) k x :
  py_get l k = Ok x ↔ ∃ idx, py_index (length l) k = Some idx ∧ l !! idx = Some x.
Proof.
  unfold py_get. split.
  - destruct (py_index (length l) k) as [idx|] eqn:E; [|discriminate].
    destruct (l !! idx) eqn:E'; [|discriminate]. intros [= <-]. eauto.
  - intros (idx & -> & ->). done.
Qed.

Lemma py_get_at {A} (l : list A) k idx x :
  py_index (length l) k = Some idx → l !! idx = Some x → py_get l k = Ok x.
Proof. intros. apply py_get_Ok. eauto. Qed.

Lemma py_get_Raise {A} (l : list A) k :
  py_index (length l) k = None → py_get l k = Raise IndexError.
Proof. unfold py_get. by intros ->. Qed.

Lemma py_get_total {A} (l : list A) k :
  (∃ x, py_get l k = Ok x) ∨ py_get l k = Raise IndexError.
Proof.
  unfold py_get. destruct (py_index (length l) k); [|by right].
  destruct (l !! n); eauto.
Qed.

Lemma py_set_at {A} (l : list A) k idx x :
  py_index (length l) k = Some idx → py_set l k x = Ok (<[idx := x]> l).
Proof. unfold py_set. by intros ->. Qed.

Lemma py_set_Ok {A} (l l' : list A) k x :
  py_set l k x = Ok l' →
  ∃ idx, py_index (length l) k = Some idx ∧ l' = <[idx := x]> l.
Proof.
  unfold py_set. destruct (py_index (length l) k); [|discriminate].
  intros [= <-]. eauto.
Qed.

Lemma py_set_length {A} (l l' : list A) k x :
  py_set l k x = Ok l' → length l' = length l.
Proof. intros (idx & _ & ->)%py_set_Ok. apply length_insert. Qed.

(** ** The traversal loop *)

Lemma traversal_done size fuel st :
  loop_cond st = Ok false → traversal size fuel st = Ok st.
Proof. intros H. destruct fuel; simpl; by rewrite H. Qed.

Lemma traversal_step size fuel st :
  loop_cond st = Ok true →
  traversal size (S fuel) st = bind (loop_body size st) (traversal size fuel).
Proof. intros H. simpl. by rewrite H. Qed.

Lemma traversal_out_of_fuel size st :
  loop_cond st = Ok true → traversal size 0 st = Timeout.
Proof. intros H. simpl. by rewrite H. Qed.

(** A property that every iteration preserves holds when the loop is left,
    and the loop test is false there. *)
Lemma traversal_invariant (P : tstate → Prop) size :
  (∀ st st', P st → loop_cond st = Ok true →
             loop_body size st = Ok st' → P st') →
  ∀ fuel st st', P st → traversal size fuel st = Ok st' →
                 P st' ∧ loop_cond st' = Ok false.
Proof.
  intros Hstep fuel. induction fuel as [|fuel IH]; intros st st' HP Hrun.
  - simpl in Hrun. destruct (loop_cond st) as [[]| |] eqn:E; try discriminate.
    injection Hrun as <-. auto.
  - destruct (loop_cond st) as [[]| |] eqn:E.
    + rewrite traversal_step in Hrun by done. bind_inv Hrun. eauto.
    + rewrite traversal_done in Hrun by done. injection Hrun as <-. auto.
    + simpl in Hrun. by rewrite E in Hrun.
    + simpl in Hrun. by rewrite E in Hrun.
Qed.

Lemma all_satisfied_saturated st :
  all_satisfied st = true ↔ saturated st.
Proof.
  unfold all_satisfied, saturated. rewrite forallb_forall. split.
  - intros H idx b Hb. apply (H b). apply list_elem_of_In.
    by apply list_elem_of_lookup_2 in Hb.
  - intros H b Hb. apply list_elem_of_In, list_elem_of_lookup_1 in Hb.
    destruct Hb as [idx Hidx]. by apply (H idx).
Qed.

(** ** Classification, invariant record and catalogue (lines 212-219) *)

Section CatalogueFacts.
Context {poly : Type} `{EqDecision poly}.
Variable homfly_polynomial : list Z → list Z → result poly.
Variable knot_list : poly → option string.
Variable poly_str : poly → string.

Local Abbreviation diagram' := (diagram homfly_polynomial knot_list poly_str).
Local Abbreviation catalog' := (catalog homfly_polynomial knot_list poly_str).
Local Abbreviation tup_of' := (tup_of homfly_polynomial knot_list).
Local Abbreviation knot_type' := (knot_type homfly_polynomial knot_list).
Local Abbreviation record_line' := (record_line poly_str).

Lemma diagram_placed size fuel s b st2 :
  traverse_diagram size fuel s (tr b) = Ok (Placed st2) →
  diagram' size fuel s b =
    do b' <- catalog' s (with_tr b st2); Ok (with_tr b' (reset (tr b'))).
Proof. intros H1. unfold diagram. by rewrite H1. Qed.

Lemma diagram_skipped size fuel s b st0 :
  traverse_diagram size fuel s (tr b) = Ok (Skipped st0) →
  diagram' size fuel s b = Ok (with_tr b st0).
Proof. intros H1. unfold diagram. by rewrite H1. Qed.

Lemma knot_type_short st :
  (length (gauss_code st) < 3)%nat →
  knot_type' st = Ok (Name "0_1") ∧ knot_type_calls st = [].
Proof.
  intros Hlen. unfold knot_type, knot_type_calls.
  by destruct (Z.ltb_spec (Z.of_nat (length (gauss_code st))) 3); [|lia].
Qed.

Lemma knot_type_long st :
  (3 ≤ length (gauss_code st))%nat →
  knot_type' st
  = (do k <- homfly_polynomial (gauss_code st) (crossing_signs st);
     do d <- homfly_polynomial (gauss_code st) (crossing_signs st);
     Ok (match knot_list k with Some n => Name n | None => Homfly d end)) ∧
  knot_type_calls st = [(gauss_code st, crossing_signs st);
                        (gauss_code st, crossing_signs st)].
Proof.
  intros Hlen. unfold knot_type, knot_type_calls.
  by destruct (Z.ltb_spec (Z.of_nat (length (gauss_code st))) 3); [lia|].
Qed.

Lemma tup_of_Ok st x :
  knot_type' st = Ok x →
  tup_of' st = Ok (x, writhe st - (up_cusps st + down_cusps st) `div` 2,
                   Z.abs (up_cusps st - down_cusps st) `div` 2).
Proof. intros H. unfold tup_of. by rewrite H. Qed.

Lemma diagram_knot size fuel s b st2 tup :
  traverse_diagram size fuel s (tr b) = Ok (Placed st2) →
  saturated st2 →
  tup_of' st2 = Ok tup →
  ∃ b', diagram' size fuel s b = Ok b' ∧
    tr b' = reset st2 ∧
    knot_count b' = knot_count b + 1 ∧
    homfly_calls b' = homfly_calls b ++ knot_type_calls st2 ∧
    tup ∈ (knot_catalog b').*1 ∧
    (tup ∈ (knot_catalog b).*1 →
       knot_catalog b' = knot_catalog b ∧ out b' = out b) ∧
    (tup ∉ (knot_catalog b).*1 →
       knot_catalog b' = knot_catalog b ++ [(tup, s)] ∧
       out b' = flush (write (record_line' tup s) (out b))).
Proof.
  intros Hrun Hsat Htup. rewrite (diagram_placed _ _ _ _ _ Hrun).
  apply all_satisfied_saturated in Hsat.
  unfold catalog. cbn [tr with_tr]. rewrite Hsat, Htup. cbn [bind].
  cbn [knot_catalog with_tr].
  case_bool_decide as Hin; cbn [bind]; eexists; (split; [reflexivity|]);
    simpl.
  - repeat split; try done.
  - repeat split; try done.
    rewrite fmap_app. apply elem_of_app. right. apply list_elem_of_here.
Qed.

Lemma diagram_knot_fails size fuel s b st2 :
  traverse_diagram size fuel s (tr b) = Ok (Placed st2) →
  saturated st2 →
  (∀ e, knot_type' st2 = Raise e → diagram' size fuel s b = Raise e) ∧
  (knot_type' st2 = Timeout → diagram' size fuel s b = Timeout).
Proof.
  intros Hrun Hsat. rewrite (diagram_placed _ _ _ _ _ Hrun).
  apply all_satisfied_saturated in Hsat.
  unfold catalog, tup_of. cbn [tr with_tr]. rewrite Hsat.
  split; [intros e He | intros He]; by rewrite He.
Qed.

Lemma diagram_not_knot size fuel s b st2 :
  traverse_diagram size fuel s (tr b) = Ok (Placed st2) →
  ¬ saturated st2 →
  diagram' size fuel s b = Ok (with_tr b (reset st2)).
Proof.
  intros Hrun Hsat. rewrite (diagram_placed _ _ _ _ _ Hrun).
  rewrite <- all_satisfied_saturated in Hsat.
  unfold catalog. simpl.
  by destruct (all_satisfied st2).
Qed.

Lemma saturated_dec st : saturated st ∨ ¬ saturated st.
Proof.
  rewrite <- all_satisfied_saturated.
  destruct (all_satisfied st); [by left | by right].
Qed.
End CatalogueFacts.

Lemma string_app_assoc (a b c : string) : (a +:+ b) +:+ c = a +:+ (b +:+ c).
Proof.
  induction a as [|x a IH]; [done|].
  change (String x ((a +:+ b) +:+ c) = String x (a +:+ b +:+ c)).
  by f_equal.
Qed.

Section CatalogueClaims.
Context {poly : Type} `{EqDecision poly}.
Variable homfly_polynomial : list Z → list Z → result poly.
Variable knot_list : poly → option string.
Variable poly_str : poly → string.

Local Abbreviation diagram' := (diagram homfly_polynomial knot_list poly_str).
Local Abbreviation knot_type' := (knot_type homfly_polynomial knot_list).

(** C1 (amended). When the traversal loop of a diagram has been left and
    some tile is not marked saturated, the diagram is discarded: the
    counter, the catalogue, the output file and the list of HOMFLY
    computations are what they were, and the run is the same with a HOMFLY
    computation that raises whatever it is given. When every tile is
    marked saturated, the diagram is counted and its key is in the
    catalogue provided line 215 returns an identity; when line 215 raises,
    the exception leaves the run. Of an iteration that returns, the counter
    has been incremented exactly when every tile is marked saturated. *)
Theorem knot_iff_saturated size fuel s b st2 :
  traverse_diagram size fuel s (tr b) = Ok (Placed st2) →
  (¬ saturated st2 →
     ∃ b', diagram' size fuel s b = Ok b' ∧
       diagram (λ _ _, Raise ValueError) knot_list poly_str size fuel s b
       = Ok b' ∧
       knot_count b' = knot_count b ∧ knot_catalog b' = knot_catalog b ∧
       out b' = out b ∧ homfly_calls b' = homfly_calls b) ∧
  (saturated st2 →
     (∀ x, knot_type' st2 = Ok x →
        ∃ b', diagram' size fuel s b = Ok b' ∧
          knot_count b' = knot_count b + 1 ∧
          (x, writhe st2 - (up_cusps st2 + down_cusps st2) `div` 2,
              Z.abs (up_cusps st2 - down_cusps st2) `div` 2)
            ∈ (knot_catalog b').*1) ∧
     (∀ e, knot_type' st2 = Raise e → diagram' size fuel s b = Raise e)) ∧
  (∀ b', diagram' size fuel s b = Ok b' →
     (saturated st2 ↔ knot_count b' = knot_count b + 1)).
Proof.
  intros Hrun. split; [|split].
  - intros Hsat. exists (with_tr b (reset st2)).
    split; [by apply diagram_not_knot|].
    split; [by apply diagram_not_knot|]. done.
  - intros Hsat. split.
    + intros x Hx.
      destruct (diagram_knot homfly_polynomial knot_list poly_str
                  size fuel s b st2 _ Hrun Hsat
                  (tup_of_Ok homfly_polynomial knot_list st2 x Hx))
        as (b' & Hb' & _ & Hcount & _ & Hin & _).
      by exists b'.
    + intros e He.
      by apply (diagram_knot_fails homfly_polynomial knot_list poly_str
                  size fuel s b st2 Hrun Hsat).
  - intros b' Hb'. destruct (saturated_dec st2) as [Hsat|Hsat].
    + destruct (knot_type' st2) as [x|e|] eqn:Hx.
      * destruct (diagram_knot homfly_polynomial knot_list poly_str
                    size fuel s b st2 _ Hrun Hsat
                    (tup_of_Ok homfly_polynomial knot_list st2 x Hx))
          as (b'' & Hb'' & _ & Hcount & _).
        rewrite Hb' in Hb''. injection Hb'' as <-. done.
      * destruct (diagram_knot_fails homfly_polynomial knot_list poly_str
                    size fuel s b st2 Hrun Hsat) as [Hf _].
        rewrite (Hf e Hx) in Hb'. discriminate Hb'.
      * destruct (diagram_knot_fails homfly_polynomial knot_list poly_str
                    size fuel s b st2 Hrun Hsat) as [_ Hf].
        rewrite (Hf Hx) in Hb'. discriminate Hb'.
    + rewrite (diagram_not_knot _ _ _ _ _ _ _ _ Hrun Hsat) in Hb'.
      injection Hb' as <-. simpl. split; [done | lia].
Qed.

(** C3 (amended). After a successful traversal the key has
    writhe - (U + D) div 2 and |U - D| div 2 as its second and third
    components. With fewer than three Gauss-code entries its first
    component is the name 0_1 and no HOMFLY polynomial is computed: the
    run is the same with a HOMFLY computation that raises whatever it is
    given. Otherwise the polynomial of the Gauss code and signs is
    computed, twice: when the computation returns, the first component is
    the name [knot_list] has for the polynomial, or the polynomial itself;
    when it raises, the exception leaves the run and there is no record. *)
Theorem invariant_record size fuel s b st2 :
  traverse_diagram size fuel s (tr b) = Ok (Placed st2) →
  saturated st2 →
  ((length (gauss_code st2) < 3)%nat →
     ∃ b', diagram' size fuel s b = Ok b' ∧
       diagram (λ _ _, Raise ValueError) knot_list poly_str size fuel s b
       = Ok b' ∧
       (Name "0_1",
        writhe st2 - (up_cusps st2 + down_cusps st2) `div` 2,
        Z.abs (up_cusps st2 - down_cusps st2) `div` 2)
         ∈ (knot_catalog b').*1 ∧
       homfly_calls b' = homfly_calls b) ∧
  ((3 ≤ length (gauss_code st2))%nat →
     (∀ p, homfly_polynomial (gauss_code st2) (crossing_signs st2) = Ok p →
        ∃ b', diagram' size fuel s b = Ok b' ∧
          (match knot_list p with Some n => Name n | None => Homfly p end,
           writhe st2 - (up_cusps st2 + down_cusps st2) `div` 2,
           Z.abs (up_cusps st2 - down_cusps st2) `div` 2)
            ∈ (knot_catalog b').*1 ∧
          homfly_calls b' = homfly_calls b ++
            [(gauss_code st2, crossing_signs st2);
             (gauss_code st2, crossing_signs st2)]) ∧
     (∀ e, homfly_polynomial (gauss_code st2) (crossing_signs st2) = Raise e →
        diagram' size fuel s b = Raise e)).
Proof.
  intros Hrun Hsat. split; intros Hlen.
  - destruct (knot_type_short homfly_polynomial knot_list st2 Hlen)
      as [Hx Hcalls].
    destruct (knot_type_short (λ _ _, Raise ValueError) knot_list st2 Hlen)
      as [Hx' _].
    destruct (diagram_knot homfly_polynomial knot_list poly_str
                size fuel s b st2 _ Hrun Hsat
                (tup_of_Ok homfly_polynomial knot_list st2 _ Hx))
      as (b' & Hb' & Htr & Hcount & Hc & Hin & Hold & Hnew).
    destruct (diagram_knot (λ _ _, Raise ValueError) knot_list poly_str
                size fuel s b st2 _ Hrun Hsat
                (tup_of_Ok (λ _ _, Raise ValueError) knot_list st2 _ Hx'))
      as (b2 & Hb2 & Htr2 & Hcount2 & Hc2 & Hin2 & Hold2 & Hnew2).
    exists b'. split; [done|]. split.
    + rewrite Hb2. f_equal.
      destruct b' as [t1 c1 o1 k1 h1], b2 as [t2 c2 o2 k2 h2].
      simpl in *. subst t1 t2 k1 k2 h1 h2.
      set (key0 := (Name "0_1",
                    writhe st2 - (up_cusps st2 + down_cusps st2) `div` 2,
                    Z.abs (up_cusps st2 - down_cusps st2) `div` 2)) in *.
      destruct (decide (key0 ∈ (knot_catalog b).*1)) as [Hk|Hk].
      * destruct (Hold Hk) as [-> ->], (Hold2 Hk) as [-> ->]. done.
      * destruct (Hnew Hk) as [-> ->], (Hnew2 Hk) as [-> ->]. done.
    + split; [done|]. by rewrite Hc, Hcalls, app_nil_r.
  - destruct (knot_type_long homfly_polynomial knot_list st2 Hlen)
      as [Hx Hcalls]. split.
    + intros p Hp. rewrite Hp in Hx. cbn [bind] in Hx.
      destruct (diagram_knot homfly_polynomial knot_list poly_str
                  size fuel s b st2 _ Hrun Hsat
                  (tup_of_Ok homfly_polynomial knot_list st2 _ Hx))
        as (b' & Hb' & _ & _ & Hc & Hin & _).
      exists b'. split; [done|]. split; [done|]. by rewrite Hc, Hcalls.
    + intros e He. rewrite He in Hx. cbn [bind] in Hx.
      by apply (diagram_knot_fails homfly_polynomial knot_list poly_str
                  size fuel s b st2 Hrun Hsat).
Qed.

(** C9 (amended). A diagram whose traversal was successful and for which
    line 215 returned an identity is catalogued under the triple
    (identity, TB, rotation). When the catalogue has no such key, exactly
    one line [identity | TB | rotation | diagram], the two integers padded
    with spaces on the left to three characters, is written and flushed at
    once, and the key is recorded with the diagram; when it has the key,
    the output file and the catalogue are unchanged, and the run goes
    on. *)
Theorem catalog_first_occurrence_only size fuel s b st2 x :
  traverse_diagram size fuel s (tr b) = Ok (Placed st2) →
  saturated st2 →
  ((length (gauss_code st2) < 3)%nat ∧ x = Name "0_1") ∨
  ((3 ≤ length (gauss_code st2))%nat ∧
   ∃ p, homfly_polynomial (gauss_code st2) (crossing_signs st2) = Ok p ∧
        x = match knot_list p with Some n => Name n | None => Homfly p end) →
  ∃ b' tb rot, diagram' size fuel s b = Ok b' ∧
    tb = writhe st2 - (up_cusps st2 + down_cusps st2) `div` 2 ∧
    rot = Z.abs (up_cusps st2 - down_cusps st2) `div` 2 ∧
    ((x, tb, rot) ∉ (knot_catalog b).*1 →
       on_disk (out b')
       = on_disk (out b) ++ buffered (out b) ++
         [match x with Name n => n | Homfly p => poly_str p end
          +:+ " | "
          +:+ string_of_list_ascii
                (replicate (3 - String.length (pretty tb)) " "%char)
          +:+ pretty tb +:+ " | "
          +:+ string_of_list_ascii
                (replicate (3 - String.length (pretty rot)) " "%char)
          +:+ pretty rot +:+ " | " +:+ s
          +:+ String "010"%char EmptyString] ∧
       buffered (out b') = [] ∧
       knot_catalog b' = knot_catalog b ++ [((x, tb, rot), s)]) ∧
    ((x, tb, rot) ∈ (knot_catalog b).*1 →
       out b' = out b ∧ knot_catalog b' = knot_catalog b).
Proof.
  intros Hrun Hsat Hx.
  assert (knot_type' st2 = Ok x) as Hk.
  { destruct Hx as [[Hlen ->]|(Hlen & p & Hp & ->)].
    - by apply knot_type_short.
    - destruct (knot_type_long homfly_polynomial knot_list st2 Hlen)
        as [-> _]. by rewrite Hp. }
  destruct (diagram_knot homfly_polynomial knot_list poly_str
              size fuel s b st2 _ Hrun Hsat
              (tup_of_Ok homfly_polynomial knot_list st2 x Hk))
    as (b' & Hb' & _ & _ & _ & _ & Hold & Hnew).
  exists b', (writhe st2 - (up_cusps st2 + down_cusps st2) `div` 2),
    (Z.abs (up_cusps st2 - down_cusps st2) `div` 2).
  split; [done|]. split; [done|]. split; [done|]. split.
  - intros Hnotin. destruct (Hnew Hnotin) as [-> ->].
    unfold record_line, identity_str, rjust3. simpl.
    rewrite !string_app_assoc. done.
  - intros Hin. by destruct (Hold Hin) as [-> ->].
Qed.
End CatalogueClaims.

(** ** What one visit changes *)

Lemma visit_frame size c st st' :
  visit size c st = Ok st' →
  mosaic st' = mosaic st ∧ starting_tile st' = starting_tile st ∧
  i st' = i st ∧ face st' = (snd c + 2) `mod` 4 ∧
  curr_tile st' = advance size ((snd c + 2) `mod` 4) (curr_tile st) ∧
  up_cusps st' = (if is_up_cusp c then up_cusps st + 1 else up_cusps st) ∧
  down_cusps st' = (if is_down_cusp c then down_cusps st + 1 else down_cusps st).
Proof.
  unfold visit. intros H. repeat bind_inv H.
  destruct x3 as [[[[cn' gauss'] signs'] count'] writhe'].
  injection H as <-. simpl. done.
Qed.

Lemma select_conn_Some st c :
  select_conn st = Ok (Some c) →
  fst c = face st ∧ ∃ row, row ∈ valid_connections ∧ c ∈ row.
Proof.
  unfold select_conn. intros H. repeat bind_inv H. injection H as H.
  apply find_some in H as [Hin Hface]. split; [lia|].
  apply py_get_Ok in E0 as (idx & _ & Hrow).
  exists x0. split.
  - by apply list_elem_of_lookup_2 in Hrow.
  - by apply list_elem_of_In.
Qed.

Lemma loop_body_cases size st st' :
  loop_body size st = Ok st' →
  (select_conn st = Ok None ∧ st' = st) ∨
  (∃ c, select_conn st = Ok (Some c) ∧ visit size c st = Ok st').
Proof.
  unfold loop_body. intros H. bind_inv H. destruct x as [c|].
  - right. eauto.
  - left. by injection H as <-.
Qed.

(** ** Unresolvable traversals *)

Lemma stuck_forever size st :
  loop_cond st = Ok true → select_conn st = Ok None →
  ∀ fuel, traversal size fuel st = Timeout.
Proof.
  intros Hcond Hsel fuel. induction fuel as [|fuel IH].
  - by apply traversal_out_of_fuel.
  - rewrite traversal_step by done. unfold loop_body. rewrite Hsel. done.
Qed.

Lemma iterations_timeout size k st st' :
  iterations size k st st' →
  (∀ fuel, traversal size fuel st' = Timeout) →
  ∀ fuel, traversal size fuel st = Timeout.
Proof.
  induction 1 as [|k st st' st'' Hcond Hbody _ IH]; intros Hend fuel; [done|].
  destruct fuel as [|fuel].
  - by apply traversal_out_of_fuel.
  - rewrite traversal_step by done. rewrite Hbody. simpl. by apply IH.
Qed.

Lemma iterations_raise size k st st' e :
  iterations size k st st' →
  loop_cond st' = Ok true → loop_body size st' = Raise e →
  ∀ fuel, traversal size fuel st
          = if (fuel <=? k)%nat then Timeout else Raise e.
Proof.
  induction 1 as [st|k st st' st'' Hcond Hbody _ IH]; intros Hc He fuel.
  - destruct fuel as [|fuel].
    + by apply traversal_out_of_fuel.
    + rewrite traversal_step by done. by rewrite He.
  - destruct fuel as [|fuel].
    + by apply traversal_out_of_fuel.
    + rewrite traversal_step by done. rewrite Hbody. simpl. by apply IH.
Qed.

Lemma traverse_diagram_placed size fuel s st st1 :
  start_diagram s st = Ok (Placed st1) →
  traverse_diagram size fuel s st
  = bind (traversal size fuel st1) (λ st2, Ok (Placed st2)).
Proof. intros H. unfold traverse_diagram. by rewrite H. Qed.

(** ** Malformed lines *)

Lemma int_of_char_cases c :
  (is_digit c = true ∧ int_of_char c = Ok (digit_value c)) ∨ not_a_digit c.
Proof.
  unfold not_a_digit, int_of_char. destruct (is_digit c); eauto.
Qed.

Lemma parse_char_digit n c st idx :
  shape n st → is_digit c = true → py_index n (i st) = Some idx →
  parse_char c st = Ok (parsed_char (digit_value c) idx st).
Proof.
  intros (Hm & Hs & _) Hd Hidx. unfold parse_char, int_of_char. rewrite Hd.
  simpl. rewrite (py_set_at _ _ idx) by by rewrite Hm. simpl.
  rewrite (py_set_at _ _ idx) by by rewrite Hs. done.
Qed.

Lemma parse_char_Ok n c st st' :
  shape n st → parse_char c st = Ok st' →
  ∃ idx, is_digit c = true ∧ py_index n (i st) = Some idx ∧
         st' = parsed_char (digit_value c) idx st.
Proof.
  intros Hshape H.
  destruct (int_of_char_cases c) as [[Hd _]|Hnd].
  - destruct (py_index n (i st)) as [idx|] eqn:Hidx.
    + rewrite (parse_char_digit n _ _ idx) in H by done.
      injection H as <-. eauto.
    + unfold parse_char, int_of_char in H. rewrite Hd in H. simpl in H.
      destruct Hshape as (Hm & _). unfold py_set in H.
      by rewrite Hm, Hidx in H.
  - unfold parse_char in H. by rewrite Hnd in H.
Qed.

Lemma parsed_char_shape n d idx st : shape n st → shape n (parsed_char d idx st).
Proof.
  intros (Hm & Hs & Hc & Hmc). unfold shape. simpl.
  by rewrite !length_insert.
Qed.

(** A line with a character that is no digit, or with more characters than
    the grid has room left, makes the reading loop raise. *)
Lemma parse_chars_malformed n cs : ∀ st,
  shape n st → 0 ≤ i st ≤ Z.of_nat n →
  Exists not_a_digit cs ∨ Z.of_nat n < i st + Z.of_nat (length cs) →
  parse_chars cs st = Raise ValueError ∨ parse_chars cs st = Raise IndexError.
Proof.
  induction cs as [|c cs IH]; intros st Hshape Hi Hbad.
  - destruct Hbad as [Hbad|Hbad]; [by apply Exists_nil in Hbad | simpl in Hbad; lia].
  - simpl. destruct (int_of_char_cases c) as [[Hd Hint]|Hnd].
    + destruct (py_index_spec n (i st)) as [[Hr Hidx]|[[Hr _]|[Hr Hidx]]]; [| lia |].
      * rewrite (parse_char_digit n _ _ _ Hshape Hd Hidx). simpl.
        apply IH.
        -- by apply parsed_char_shape.
        -- simpl. lia.
        -- simpl. destruct Hbad as [Hbad|Hbad].
           ++ left. apply Exists_cons in Hbad as [Hbad|Hbad]; [|done].
              unfold not_a_digit in Hbad. congruence.
           ++ right. simpl in Hbad. lia.
      * right. unfold parse_char. rewrite Hint. simpl.
        destruct Hshape as (Hm & _). unfold py_set. by rewrite Hm, Hidx.
    + left. unfold parse_char. by rewrite Hnd.
Qed.

Lemma parsed_nil st : 0 ≤ i st → parsed [] st = st.
Proof.
  intros Hi. unfold parsed. destruct st; simpl in *.
  rewrite !Nat.add_0_r, !take_drop, Z.add_0_r.
  by destruct starting_tile0.
Qed.

Lemma parsed_cons n d ds st :
  shape n st → 0 ≤ i st < Z.of_nat n →
  parsed ds (parsed_char d (Z.to_nat (i st)) st) = parsed (d :: ds) st.
Proof.
  intros (Hm & Hs & _) Hi. unfold parsed, parsed_char. simpl.
  replace (Z.to_nat (i st + 1)) with (S (Z.to_nat (i st))) by lia.
  set (k := Z.to_nat (i st)).
  assert (Hk : (k < n)%nat) by lia.
  rewrite !(take_S_r _ k d), !(take_S_r _ k (d =? 0));
    try (apply list_lookup_insert_eq; lia).
  rewrite !take_insert_ge, !drop_insert_lt by lia.
  rewrite <- !(assoc_L (++)). simpl.
  replace (k + S (length ds))%nat with (S k + length ds)%nat by lia.
  f_equal.
  - lia.
  - rewrite last_cons. by destruct (last ds).
  - destruct (starting_tile st); [done|].
    destruct (d =? 0); simpl.
    + destruct (first_nonzero ds); simpl; [f_equal; lia | done].
    + f_equal. lia.
Qed.

Lemma parse_chars_digits n cs : ∀ st,
  shape n st → 0 ≤ i st → i st + Z.of_nat (length cs) ≤ Z.of_nat n →
  forallb is_digit cs = true →
  parse_chars cs st = Ok (parsed (digit_value <$> cs) st).
Proof.
  induction cs as [|c cs IH]; intros st Hshape Hi Hlen Hd; simpl.
  - by rewrite parsed_nil.
  - simpl in Hd, Hlen. apply andb_true_iff in Hd as [Hc Hd].
    rewrite (parse_char_digit n _ _ (Z.to_nat (i st))); try done.
    2: { apply py_index_nonneg. lia. }
    simpl. rewrite IH; try done.
    + by rewrite (parsed_cons n) by (done || lia).
    + by apply parsed_char_shape.
    + simpl. lia.
    + simpl. lia.
Qed.

Lemma diagram_line_spec n s :
  diagram_line n s = true ↔
  length (list_ascii_of_string s) = n ∧
  forallb is_digit (list_ascii_of_string s) = true.
Proof.
  unfold diagram_line. rewrite andb_true_iff, Nat.eqb_eq. done.
Qed.

Lemma tiles_of_length n s : diagram_line n s = true → length (tiles_of s) = n.
Proof.
  intros [H _]%diagram_line_spec. unfold tiles_of. by rewrite length_fmap.
Qed.

(** Reading a line of the input format in a fresh state. *)
Lemma parse_line_fresh n s st :
  fresh_state n st → diagram_line n s = true →
  parse_line s st = Ok (parsed (tiles_of s) st) ∧
  mosaic (parsed (tiles_of s) st) = tiles_of s ∧
  satisfied (parsed (tiles_of s) st) = ((λ d, d =? 0) <$> tiles_of s) ∧
  starting_tile (parsed (tiles_of s) st) = Z.of_nat <$> first_nonzero (tiles_of s).
Proof.
  intros (Hshape & _ & _ & _ & _ & Hi & _ & _ & _ & Hstart) Hline.
  pose proof (tiles_of_length _ _ Hline) as Hlen.
  apply diagram_line_spec in Hline as [Hl Hd].
  split.
  - unfold parse_line, tiles_of. apply (parse_chars_digits n); try done; lia.
  - destruct Hshape as (Hm & Hs & _). unfold parsed. simpl.
    rewrite Hi, Hstart, Hlen. simpl.
    rewrite !drop_ge, !app_nil_r by lia. repeat split.
Qed.

Lemma parse_chars_frame n cs : ∀ st st',
  shape n st → parse_chars cs st = Ok st' →
  shape n st' ∧
  crossing_number st' = crossing_number st ∧
  gauss_code st' = gauss_code st ∧
  crossing_signs st' = crossing_signs st ∧
  made_connections st' = made_connections st ∧
  crossing_count st' = crossing_count st ∧
  writhe st' = writhe st ∧ up_cusps st' = up_cusps st ∧
  down_cusps st' = down_cusps st.
Proof.
  induction cs as [|c cs IH]; intros st st' Hshape H; simpl in H.
  - injection H as <-. done.
  - bind_inv H. apply (parse_char_Ok n) in E as (idx & _ & _ & ->); [|done].
    apply IH in H; [|by apply parsed_char_shape]. done.
Qed.

Lemma enter_Ok s0 st st1 :
  enter s0 st = Ok st1 →
  ∃ t conns c0, py_get (mosaic st) s0 = Ok t ∧
    py_get valid_connections t = Ok conns ∧ py_get conns 0 = Ok c0 ∧
    curr_tile st1 = s0 ∧ face st1 = fst c0 ∧
    mosaic st1 = mosaic st ∧ satisfied st1 = satisfied st ∧
    crossing_number st1 = crossing_number st ∧
    gauss_code st1 = gauss_code st ∧
    crossing_signs st1 = crossing_signs st ∧
    made_connections st1 = made_connections st ∧
    crossing_count st1 = crossing_count st ∧
    writhe st1 = writhe st ∧ up_cusps st1 = up_cusps st ∧
    down_cusps st1 = down_cusps st ∧ starting_tile st1 = starting_tile st ∧
    i st1 = i st ∧ num st1 = num st.
Proof.
  unfold enter. intros H. repeat bind_inv H. injection H as <-. simpl.
  exists x, x0, x1. done.
Qed.

Lemma start_diagram_Placed s st st1 :
  start_diagram s st = Ok (Placed st1) →
  ∃ st0 s0, parse_line s st = Ok st0 ∧ starting_tile st0 = Some s0 ∧
            enter s0 st0 = Ok st1.
Proof.
  unfold start_diagram. intros H. bind_inv H.
  destruct (starting_tile x) as [s0|] eqn:Hs0; [|discriminate].
  bind_inv H. injection H as <-. eauto.
Qed.

Lemma start_diagram_frame n s st st1 :
  shape n st → start_diagram s st = Ok (Placed st1) →
  shape n st1 ∧
  crossing_number st1 = crossing_number st ∧
  gauss_code st1 = gauss_code st ∧
  crossing_signs st1 = crossing_signs st ∧
  made_connections st1 = made_connections st ∧
  crossing_count st1 = crossing_count st ∧
  writhe st1 = writhe st ∧ up_cusps st1 = up_cusps st ∧
  down_cusps st1 = down_cusps st.
Proof.
  intros Hshape (st0 & s0 & Hparse & _ & Henter)%start_diagram_Placed.
  apply (parse_chars_frame n) in Hparse
    as ((? & ? & ? & ?) & ? & ? & ? & ? & ? & ? & ? & ?); [|done].
  apply enter_Ok in Henter
    as (? & ? & ? & _ & _ & _ & _ & _ & ? & ? & ? & ? & ? & ? & ? & ? & ? & ? & _).
  unfold shape. repeat split; congruence.
Qed.

Lemma start_diagram_raise s st e :
  parse_line s st = Raise e → start_diagram s st = Raise e.
Proof. unfold start_diagram. by intros ->. Qed.

Lemma traverse_diagram_raise size fuel s st e :
  start_diagram s st = Raise e → traverse_diagram size fuel s st = Raise e.
Proof. unfold traverse_diagram. by intros ->. Qed.

(** ** Cusp parity *)

Lemma table_cusps :
  forallb (forallb cusp_changes_class) valid_connections = true.
Proof. reflexivity. Qed.

Lemma cusp_changes_class_table row c :
  row ∈ valid_connections → c ∈ row → cusp_changes_class c = true.
Proof.
  intros Hrow Hc. pose proof table_cusps as H.
  rewrite forallb_forall in H. apply list_elem_of_In in Hrow.
  specialize (H _ Hrow). rewrite forallb_forall in H.
  apply H. by apply list_elem_of_In.
Qed.

Lemma loop_body_cusp_parity size st st' :
  loop_body size st = Ok st' →
  xorb (Z.odd (up_cusps st' + down_cusps st')) (port_class (face st'))
  = xorb (Z.odd (up_cusps st + down_cusps st)) (port_class (face st)).
Proof.
  intros Hbody.
  destruct (loop_body_cases _ _ _ Hbody) as [[_ ->]|(c & Hsel & Hvis)]; [done|].
  apply select_conn_Some in Hsel as (Hface & row & Hrow & Hc).
  apply visit_frame in Hvis as (_ & _ & _ & -> & _ & -> & ->).
  pose proof (cusp_changes_class_table _ _ Hrow Hc) as Htab.
  unfold cusp_changes_class in Htab. rewrite Hface in Htab.
  destruct (is_up_cusp c), (is_down_cusp c); simpl in Htab;
    rewrite ?Z.odd_add; simpl;
    destruct (Z.odd (up_cusps st)), (Z.odd (down_cusps st)),
      (port_class (face st)), (port_class ((snd c + 2) `mod` 4));
    simpl in *; done.
Qed.

Lemma traversal_cusp_parity size fuel st st' :
  traversal size fuel st = Ok st' →
  xorb (Z.odd (up_cusps st' + down_cusps st')) (port_class (face st'))
  = xorb (Z.odd (up_cusps st + down_cusps st)) (port_class (face st)).
Proof.
  intros Hrun.
  refine (proj1 (traversal_invariant
    (λ x, xorb (Z.odd (up_cusps x + down_cusps x)) (port_class (face x))
          = xorb (Z.odd (up_cusps st + down_cusps st)) (port_class (face st)))
    size _ fuel st st' eq_refl Hrun)).
  intros x x' Hx _ Hbody. rewrite <- Hx. by apply (loop_body_cusp_parity size).
Qed.

Lemma even_half_exact x : Z.even x = true → 2 * (x `div` 2) = x.
Proof.
  intros [k ->]%Z.even_spec. rewrite (Z.mul_comm 2 k), Z.div_mul by lia. lia.
Qed.

Lemma even_abs_sub u d : Z.even (u + d) = true → Z.even (Z.abs (u - d)) = true.
Proof.
  intros H. replace (u - d) with (u + d - 2 * d) in * by lia.
  destruct (Z.abs_eq_or_opp (u + d - 2 * d)) as [->| ->];
    rewrite ?Z.even_opp, Z.even_sub, H, Z.even_mul; done.
Qed.

(** C5 (amended). For a diagram read in a fresh state whose traversal loop
    is left: the total number of cusps U + D is even exactly when the port
    by which the walk would enter the starting tile again is of the same
    kind (1, 2 or 0, 3) as the port it started with; in that case |U - D|
    is even too and the two integer divisions by 2 are exact. *)
Theorem cusp_counts_even n size fuel s st st1 st2 :
  fresh_state n st →
  start_diagram s st = Ok (Placed st1) →
  traversal size fuel st1 = Ok st2 →
  (port_class (face st2) = port_class (face st1)
   ↔ Z.even (up_cusps st2 + down_cusps st2) = true) ∧
  (port_class (face st2) = port_class (face st1) →
   Z.even (Z.abs (up_cusps st2 - down_cusps st2)) = true ∧
   2 * ((up_cusps st2 + down_cusps st2) `div` 2) = up_cusps st2 + down_cusps st2 ∧
   2 * (Z.abs (up_cusps st2 - down_cusps st2) `div` 2)
   = Z.abs (up_cusps st2 - down_cusps st2)).
Proof.
  intros (Hshape & _ & _ & _ & _ & _ & _ & Hu & Hd & _) Hstart Hrun.
  apply (start_diagram_frame n) in Hstart
    as (_ & _ & _ & _ & _ & _ & _ & Hu1 & Hd1); [|done].
  apply traversal_cusp_parity in Hrun. rewrite Hu1, Hd1, Hu, Hd in Hrun.
  simpl in Hrun.
  assert (Hiff : port_class (face st2) = port_class (face st1)
                 ↔ Z.even (up_cusps st2 + down_cusps st2) = true).
  { rewrite <- Z.negb_odd.
    destruct (Z.odd (up_cusps st2 + down_cusps st2)),
      (port_class (face st2)), (port_class (face st1)); simpl in *;
      split; congruence. }
  split; [done|]. intros Heven%Hiff.
  pose proof (even_abs_sub _ _ Heven).
  auto using even_half_exact.
Qed.

Lemma cusp_counts_even_witness :
  ∃ st1 st2,
    start_diagram "0254" (initial_tstate 2) = Ok (Placed st1) ∧
    traversal 2 100 st1 = Ok st2 ∧
    Z.even (up_cusps st2 + down_cusps st2) = true.
Proof.
  eexists. eexists.
  split; [vm_compute; reflexivity|]. split; [vm_compute; reflexivity|].
  eapply (cusp_counts_even 4 2 100 "0254" (initial_tstate 2)).
  - repeat split; reflexivity.
  - vm_compute; reflexivity.
  - vm_compute; reflexivity.
  - reflexivity.
Defined.

(** C5 fails as stated: the diagram 1134 of size 2 is traversed to the end
    with every tile saturated, and its cusp count is odd. *)
Lemma odd_cusp_count :
  ∃ st2, traverse_diagram 2 100 "1134" (initial_tstate 2) = Ok (Placed st2) ∧
         saturated st2 ∧
         Z.odd (up_cusps st2 + down_cusps st2) = true.
Proof.
  eexists. split; [vm_compute; reflexivity|]. split.
  - by apply all_satisfied_saturated.
  - reflexivity.
Qed.

(** ** The run over the lines of the file *)

Lemma length_list_ascii_of_string s :
  length (list_ascii_of_string s) = String.length s.
Proof. induction s as [|c s IH]; simpl; [done | by rewrite IH]. Qed.

Section BatchFacts.
Context {poly : Type} `{EqDecision poly}.
Variable homfly_polynomial : list Z → list Z → result poly.
Variable knot_list : poly → option string.
Variable poly_str : poly → string.

Local Abbreviation diagram' := (diagram homfly_polynomial knot_list poly_str).
Local Abbreviation batch_loop' := (batch_loop homfly_polynomial knot_list poly_str).
Local Abbreviation batch_catalog' :=
  (batch_catalog homfly_polynomial knot_list poly_str).

Lemma batch_loop_cons size fuel l rest b :
  String.length (strip l) ≠ 0%nat →
  batch_loop' size fuel (l :: rest) b
  = bind (diagram' size fuel (strip l) b) (batch_loop' size fuel rest).
Proof.
  intros Hlen. simpl. by destruct (Nat.eqb_spec (String.length (strip l)) 0).
Qed.

Lemma diagram_stuck size s b st1 k stk :
  start_diagram s (tr b) = Ok (Placed st1) →
  iterations size k st1 stk →
  loop_cond stk = Ok true → select_conn stk = Ok None →
  ∀ fuel, diagram' size fuel s b = Timeout.
Proof.
  intros Hstart Hiter Hcond Hsel fuel. unfold diagram.
  rewrite (traverse_diagram_placed _ _ _ _ _ Hstart).
  by rewrite (iterations_timeout _ _ _ _ Hiter (stuck_forever _ _ Hcond Hsel)).
Qed.

Lemma diagram_raise size fuel s b e :
  parse_line s (tr b) = Raise e → diagram' size fuel s b = Raise e.
Proof.
  intros H1. unfold diagram.
  by rewrite (traverse_diagram_raise _ _ _ _ _ (start_diagram_raise _ _ _ H1)).
Qed.

Lemma diagram_off_grid size s b st1 k stk :
  start_diagram s (tr b) = Ok (Placed st1) →
  iterations size k st1 stk →
  loop_cond stk = Ok true → select_conn stk = Raise IndexError →
  ∀ fuel, diagram' size fuel s b
          = if (fuel <=? k)%nat then Timeout else Raise IndexError.
Proof.
  intros Hstart Hiter Hcond Hsel fuel. unfold diagram.
  rewrite (traverse_diagram_placed _ _ _ _ _ Hstart).
  assert (Hbody : loop_body size stk = Raise IndexError).
  { unfold loop_body. by rewrite Hsel. }
  rewrite (iterations_raise _ _ _ _ _ Hiter Hcond Hbody fuel).
  by destruct (fuel <=? k)%nat.
Qed.

Lemma malformed_line_aborts_aux n size fuel l rest b :
  shape n (tr b) →
  0 ≤ i (tr b) ≤ Z.of_nat n →
  String.length (strip l) ≠ 0%nat →
  Exists not_a_digit (list_ascii_of_string (strip l))
  ∨ Z.of_nat n < i (tr b) + Z.of_nat (String.length (strip l)) →
  batch_loop' size fuel (l :: rest) b = Raise ValueError
  ∨ batch_loop' size fuel (l :: rest) b = Raise IndexError.
Proof.
  intros Hshape Hi Hlen Hbad. rewrite batch_loop_cons by done.
  rewrite <- length_list_ascii_of_string in Hbad.
  destruct (parse_chars_malformed n _ _ Hshape Hi Hbad) as [He|He];
    [left | right]; by rewrite (diagram_raise _ _ _ _ _ He).
Qed.

(** C7 (amended). A line with a character that is not a decimal digit, or
    with more characters than the grid has tiles left, raises ValueError
    or IndexError; nothing catches it, so the run ends there and the
    lines after it are not read. *)
Theorem malformed_line_aborts n size fuel l rest b :
  shape n (tr b) →
  0 ≤ i (tr b) ≤ Z.of_nat n →
  String.length (strip l) ≠ 0%nat →
  Exists not_a_digit (list_ascii_of_string (strip l))
  ∨ Z.of_nat n < i (tr b) + Z.of_nat (String.length (strip l)) →
  batch_loop' size fuel (l :: rest) b = Raise ValueError
  ∨ batch_loop' size fuel (l :: rest) b = Raise IndexError.
Proof.
  intros Hshape Hi Hlen Hbad. rewrite batch_loop_cons by done.
  rewrite <- length_list_ascii_of_string in Hbad.
  destruct (parse_chars_malformed n _ _ Hshape Hi Hbad) as [He|He].
  - left. by rewrite (diagram_raise _ _ _ _ _ He).
  - right. by rewrite (diagram_raise _ _ _ _ _ He).
Qed.

Lemma diagram_blank n size fuel s b :
  fresh_state n (tr b) → diagram_line n s = true →
  first_nonzero (tiles_of s) = None →
  diagram' size fuel s b = Ok (with_tr b (parsed (tiles_of s) (tr b))).
Proof.
  intros Hfresh Hline Hblank.
  destruct (parse_line_fresh _ _ _ Hfresh Hline) as (Hparse & _ & _ & Hstart).
  apply diagram_skipped. unfold traverse_diagram, start_diagram.
  rewrite Hparse. cbn [bind]. rewrite Hstart, Hblank. done.
Qed.

(** C8 (what the code does after a skipped diagram). A diagram of zeros
    read in a fresh state leaves the iteration by [continue], before the
    reset of lines 222-232: the write index stays at the end of the tile
    list, and whatever non-blank line comes next, reading it raises
    ValueError or IndexError and the run ends. *)
Theorem blank_diagram_breaks_the_next n size fuel l l' rest b :
  fresh_state n (tr b) →
  String.length (strip l) ≠ 0%nat →
  diagram_line n (strip l) = true →
  first_nonzero (tiles_of (strip l)) = None →
  String.length (strip l') ≠ 0%nat →
  (∃ b', diagram' size fuel (strip l) b = Ok b' ∧ i (tr b') = Z.of_nat n) ∧
  (batch_loop' size fuel (l :: l' :: rest) b = Raise ValueError
   ∨ batch_loop' size fuel (l :: l' :: rest) b = Raise IndexError).
Proof.
  intros Hfresh Hlen Hline Hblank Hlen'.
  pose proof (diagram_blank n size fuel _ _ Hfresh Hline Hblank) as Hd.
  pose proof (tiles_of_length _ _ Hline) as Htiles.
  destruct (parse_line_fresh _ _ _ Hfresh Hline) as (Hparse & _).
  destruct Hfresh as (Hshape & _ & _ & _ & _ & Hi & _).
  apply (parse_chars_frame n) in Hparse as [Hshape' _]; [|done].
  assert (Hi' : i (parsed (tiles_of (strip l)) (tr b)) = Z.of_nat n).
  { simpl. rewrite Hi, Htiles. lia. }
  split.
  - eexists. split; [exact Hd | exact Hi'].
  - rewrite batch_loop_cons, Hd by done. cbn [bind].
    apply (malformed_line_aborts_aux n); try done.
    + change (tr (with_tr b (parsed (tiles_of (strip l)) (tr b))))
        with (parsed (tiles_of (strip l)) (tr b)). rewrite Hi'. lia.
    + right.
      change (tr (with_tr b (parsed (tiles_of (strip l)) (tr b))))
        with (parsed (tiles_of (strip l)) (tr b)). rewrite Hi'. lia.
Qed.
End BatchFacts.

Lemma blank_diagram_breaks_the_next_witness :
  (∃ b', diagram no_homfly no_knot_list no_poly_str 2 100 (strip "0000")
           (initial_bstate 2) = Ok b' ∧ i (tr b') = Z.of_nat 4) ∧
  (batch_loop no_homfly no_knot_list no_poly_str 2 100
     ["0000"; "0254"] (initial_bstate 2) = Raise ValueError
   ∨ batch_loop no_homfly no_knot_list no_poly_str 2 100
       ["0000"; "0254"] (initial_bstate 2) = Raise IndexError).
Proof.
  apply (blank_diagram_breaks_the_next no_homfly no_knot_list no_poly_str 4).
  - repeat split; reflexivity.
  - vm_compute. discriminate.
  - vm_compute. reflexivity.
  - vm_compute. reflexivity.
  - vm_compute. discriminate.
Defined.

(** C8 at the failing input: header, a diagram of zeros, one more diagram. *)
Lemma blank_diagram_file {poly : Type} `{EqDecision poly}
    (homfly_polynomial : list Z → list Z → result poly)
    (knot_list : poly → option string) (poly_str : poly → string) fuel :
  batch_catalog homfly_polynomial knot_list poly_str fuel
    ["0000"; "0000"; "0254"] = Raise IndexError.
Proof. reflexivity. Qed.

(** C6 fails as stated: on the diagram 000010000 of size 3, whose single
    arc leads into an empty tile, the run never gets to an end. *)
Lemma dangling_port_loops_forever :
  ¬ ∃ fuel r, batch_catalog no_homfly no_knot_list no_poly_str fuel
                ["000000000"; "000010000"; "000021034"] = Ok r.
Proof.
  assert (Hd : ∀ fuel', diagram no_homfly no_knot_list no_poly_str 3 fuel'
                          "000010000" (initial_bstate 3) = Timeout).
  { eapply (diagram_stuck _ _ _ _ _ _ _ 1).
    - vm_compute. reflexivity.
    - eapply iterations_S; [vm_compute; reflexivity | vm_compute; reflexivity |].
      apply iterations_O.
    - vm_compute. reflexivity.
    - vm_compute. reflexivity. }
  intros (fuel & r & H).
  assert (Hb : batch_catalog no_homfly no_knot_list no_poly_str fuel
                ["000000000"; "000010000"; "000021034"] = Timeout).
  { unfold batch_catalog.
    replace (size_of_header (hd ""%string ["000000000"; "000010000"; "000021034"]%string))
      with 3 by (vm_compute; reflexivity).
    simpl tl. rewrite batch_loop_cons by (vm_compute; discriminate).
    replace (strip "000010000") with "000010000"%string by (vm_compute; reflexivity).
    rewrite Hd. reflexivity. }
  rewrite Hb in H. clear Hb Hd. discriminate H.
Qed.

Lemma malformed_line_aborts_witness :
  batch_loop no_homfly no_knot_list no_poly_str 2 100
    ["02a4"; "0254"] (initial_bstate 2) = Raise ValueError
  ∨ batch_loop no_homfly no_knot_list no_poly_str 2 100
    ["02a4"; "0254"] (initial_bstate 2) = Raise IndexError.
Proof.
  apply (malformed_line_aborts no_homfly no_knot_list no_poly_str 4).
  - repeat split; reflexivity.
  - simpl. lia.
  - vm_compute. discriminate.
  - left. vm_compute.
    apply Exists_cons_tl, Exists_cons_tl, Exists_cons_hd. reflexivity.
Defined.

(** C7 fails as stated: a line with a letter ends the run with ValueError. *)
Lemma letter_in_line_ends_the_run :
  ¬ ∃ fuel r, batch_catalog no_homfly no_knot_list no_poly_str fuel
                ["0000"; "02a4"; "0254"] = Ok r.
Proof. intros (fuel & r & H). vm_compute in H. discriminate H. Qed.

(** ** The theorems on the catalogue at a concrete diagram *)

Lemma knot_iff_saturated_witness :
  ∃ st2,
    traverse_diagram 4 100 "0210299134340000"
      (tr (initial_bstate (poly:=unit) 4)) = Ok (Placed st2) ∧
    (¬ saturated st2 →
       ∃ b', diagram checking_homfly no_knot_list no_poly_str 4 100
               "0210299134340000" (initial_bstate 4) = Ok b' ∧
         diagram (λ _ _, Raise ValueError) no_knot_list no_poly_str 4 100
           "0210299134340000" (initial_bstate 4) = Ok b' ∧
         knot_count b' = knot_count (initial_bstate (poly:=unit) 4) ∧
         knot_catalog b' = knot_catalog (initial_bstate 4) ∧
         out b' = out (initial_bstate (poly:=unit) 4) ∧
         homfly_calls b' = homfly_calls (initial_bstate (poly:=unit) 4)) ∧
    (saturated st2 →
       (∀ x, knot_type checking_homfly no_knot_list st2 = Ok x →
          ∃ b', diagram checking_homfly no_knot_list no_poly_str 4 100
                  "0210299134340000" (initial_bstate 4) = Ok b' ∧
            knot_count b' = knot_count (initial_bstate (poly:=unit) 4) + 1 ∧
            (x, writhe st2 - (up_cusps st2 + down_cusps st2) `div` 2,
                Z.abs (up_cusps st2 - down_cusps st2) `div` 2)
              ∈ (knot_catalog b').*1) ∧
       (∀ e, knot_type checking_homfly no_knot_list st2 = Raise e →
          diagram checking_homfly no_knot_list no_poly_str 4 100
            "0210299134340000" (initial_bstate 4) = Raise e)) ∧
    (∀ b', diagram checking_homfly no_knot_list no_poly_str 4 100
             "0210299134340000" (initial_bstate 4) = Ok b' →
       (saturated st2
        ↔ knot_count b' = knot_count (initial_bstate (poly:=unit) 4) + 1)).
Proof.
  eexists. split; [vm_compute; reflexivity|].
  apply (knot_iff_saturated checking_homfly no_knot_list no_poly_str 4 100
           "0210299134340000" (initial_bstate 4)).
  vm_compute. reflexivity.
Defined.

(** C1 fails as stated: when the loop of 008559594 (size 3) is left every
    tile is marked saturated, and yet no record is computed and nothing is
    catalogued: its Gauss code has six entries for two signs, the HOMFLY
    computation raises ValueError for it, and the run ends there. *)
Lemma saturated_diagram_without_record :
  ∃ st2,
    traverse_diagram 3 100 "008559594" (initial_tstate 3) = Ok (Placed st2) ∧
    all_satisfied st2 = true ∧
    diagram checking_homfly no_knot_list no_poly_str 3 100 "008559594"
      (initial_bstate 3) = Raise ValueError.
Proof.
  eexists. split; [vm_compute; reflexivity|].
  split; vm_compute; reflexivity.
Qed.

Lemma invariant_record_witness :
  ∃ st2,
    traverse_diagram 4 100 "0210299134340000"
      (tr (initial_bstate (poly:=unit) 4)) = Ok (Placed st2) ∧
    saturated st2 ∧ (3 ≤ length (gauss_code st2))%nat ∧
    ∃ b', diagram checking_homfly no_knot_list no_poly_str 4 100
            "0210299134340000" (initial_bstate 4) = Ok b' ∧
      (Homfly tt,
       writhe st2 - (up_cusps st2 + down_cusps st2) `div` 2,
       Z.abs (up_cusps st2 - down_cusps st2) `div` 2)
        ∈ (knot_catalog b').*1 ∧
      homfly_calls b' = homfly_calls (initial_bstate (poly:=unit) 4) ++
        [(gauss_code st2, crossing_signs st2);
         (gauss_code st2, crossing_signs st2)].
Proof.
  eexists. split; [vm_compute; reflexivity|].
  match goal with
  | |- saturated ?st ∧ _ =>
      assert (Hsat : saturated st)
        by (apply all_satisfied_saturated; vm_compute; reflexivity);
      assert (Hrun : traverse_diagram 4 100 "0210299134340000"
                       (tr (initial_bstate (poly:=unit) 4)) = Ok (Placed st))
        by (vm_compute; reflexivity);
      assert (Hlen : (3 ≤ length (gauss_code st))%nat) by (simpl; lia)
  end.
  split; [exact Hsat|]. split; [exact Hlen|].
  destruct (invariant_record checking_homfly no_knot_list no_poly_str 4 100
              "0210299134340000" (initial_bstate 4) _ Hrun Hsat)
    as [_ Hlong].
  destruct (Hlong Hlen) as [Hok _].
  exact (Hok tt eq_refl).
Defined.

(** C3 fails as stated: the traversal of 008559594 (size 3) is successful
    and its Gauss code has six entries, but for two signs; the HOMFLY
    computation raises ValueError for such data, and the run ends without
    a record. *)
Lemma invalid_gauss_code_gives_no_record :
  ∃ st2,
    traverse_diagram 3 100 "008559594" (initial_tstate 3) = Ok (Placed st2) ∧
    all_satisfied st2 = true ∧
    gauss_code st2 = [1; -2; -1; 1; -2; -1] ∧
    crossing_signs st2 = [-1; -1] ∧
    checking_homfly (gauss_code st2) (crossing_signs st2) = Raise ValueError ∧
    batch_catalog checking_homfly no_knot_list no_poly_str 100
      ["000000000"; "008559594"] = Raise ValueError.
Proof.
  eexists. split; [vm_compute; reflexivity|].
  repeat split; vm_compute; reflexivity.
Qed.

Lemma catalog_first_occurrence_only_witness :
  ∃ st2,
    traverse_diagram 4 100 "0210299134340000"
      (tr (initial_bstate (poly:=unit) 4)) = Ok (Placed st2) ∧
    saturated st2 ∧
    ∃ b' tb rot, diagram checking_homfly no_knot_list no_poly_str 4 100
                   "0210299134340000" (initial_bstate 4) = Ok b' ∧
      tb = writhe st2 - (up_cusps st2 + down_cusps st2) `div` 2 ∧
      rot = Z.abs (up_cusps st2 - down_cusps st2) `div` 2 ∧
      ((Homfly tt, tb, rot)
         ∉ (knot_catalog (initial_bstate (poly:=unit) 4)).*1 →
         on_disk (out b')
         = on_disk (out (initial_bstate (poly:=unit) 4))
           ++ buffered (out (initial_bstate (poly:=unit) 4)) ++
           [match Homfly tt with
            | Name n => n
            | Homfly p => no_poly_str p
            end
            +:+ " | "
            +:+ string_of_list_ascii
                  (replicate (3 - String.length (pretty tb)) " "%char)
            +:+ pretty tb +:+ " | "
            +:+ string_of_list_ascii
                  (replicate (3 - String.length (pretty rot)) " "%char)
            +:+ pretty rot +:+ " | " +:+ "0210299134340000"
            +:+ String "010"%char EmptyString] ∧
         buffered (out b') = [] ∧
         knot_catalog b'
         = knot_catalog (initial_bstate 4)
           ++ [((Homfly tt, tb, rot), "0210299134340000"%string)]) ∧
      ((Homfly tt, tb, rot)
         ∈ (knot_catalog (initial_bstate (poly:=unit) 4)).*1 →
         out b' = out (initial_bstate (poly:=unit) 4) ∧
         knot_catalog b' = knot_catalog (initial_bstate 4)).
Proof.
  eexists. split; [vm_compute; reflexivity|].
  match goal with
  | |- saturated ?st ∧ _ =>
      assert (Hsat : saturated st)
        by (apply all_satisfied_saturated; vm_compute; reflexivity)
  end.
  split; [exact Hsat|].
  apply (catalog_first_occurrence_only checking_homfly no_knot_list
           no_poly_str 4 100 "0210299134340000" (initial_bstate 4));
    [vm_compute; reflexivity | exact Hsat |].
  right. split; [simpl; lia|]. exists tt. split; reflexivity.
Defined.

(** C9 fails as stated: in the file below the first diagram is written
    under a new key, and the second, whose traversal is as successful,
    gets no key and no line: the HOMFLY computation raises ValueError for
    its Gauss code and the run ends with that error. *)
Lemma new_diagram_without_line :
  (∃ line, batch_catalog checking_homfly no_knot_list no_poly_str 100
             ["000000000"; "002129434"] = Ok ([line], 1)) ∧
  batch_catalog checking_homfly no_knot_list no_poly_str 100
    ["000000000"; "002129434"; "008559594"] = Raise ValueError.
Proof. split; [eexists|]; vm_compute; reflexivity. Qed.

Lemma visit_prefix n size c st idx t m :
  shape n st → py_index n (curr_tile st) = Some idx →
  mosaic st !! idx = Some t → made_connections st !! idx = Some m →
  visit size c st =
  bind
    (if t =? 9 then
       do s <- py_get (saturate t (length (m ++ [c])) idx (satisfied st)) (curr_tile st);
       if (s : bool) then
         do k <- py_get (crossing_number st) (curr_tile st);
         do first <- py_get (m ++ [c]) 0;
         if fst c + fst first =? 3 then
           do sg <- py_set (crossing_signs st) (k - 1) 1;
           Ok (crossing_number st, gauss_code st ++ [signed (fst c) k],
               sg, crossing_count st, writhe st + 1)
         else
           do sg <- py_set (crossing_signs st) (k - 1) (-1);
           Ok (crossing_number st, gauss_code st ++ [signed (fst c) k],
               sg, crossing_count st, writhe st - 1)
       else
         let k := crossing_count st + 1 in
         do cn <- py_set (crossing_number st) (curr_tile st) k;
         Ok (cn, gauss_code st ++ [signed (fst c) k],
             crossing_signs st ++ [0], k, writhe st)
     else Ok (crossing_number st, gauss_code st, crossing_signs st,
              crossing_count st, writhe st))
    (λ r, let '(cn', gauss', signs', count', writhe') := r in
          Ok (moved size c idx t m cn' gauss' signs' count' writhe' st)).
Proof.
  intros (Hm & Hs & Hc & Hmc) Hidx Ht Hmade. unfold visit.
  rewrite (py_get_at _ _ idx t) by (by rewrite ?Hm). cbn [bind].
  rewrite (py_get_at _ _ idx m) by (by rewrite ?Hmc). cbn [bind].
  rewrite (py_set_at _ _ idx) by (by rewrite ?Hmc). cbn [bind].
  unfold moved, saturate.
  destruct ((Z.of_nat (length (m ++ [c])) =? 1) && (t <? 7)
            || (Z.of_nat (length (m ++ [c])) =? 2)); cbn [bind].
  - rewrite (py_set_at _ _ idx) by (by rewrite ?Hs). cbn [bind]. done.
  - done.
Qed.

Lemma saturate_length t len idx sat : length (saturate t len idx sat) = length sat.
Proof. unfold saturate. case_match; [apply length_insert | done]. Qed.

Lemma visit_plain n size c st idx t m :
  shape n st → py_index n (curr_tile st) = Some idx →
  mosaic st !! idx = Some t → made_connections st !! idx = Some m →
  t ≠ 9 →
  visit size c st =
  Ok (moved size c idx t m (crossing_number st) (gauss_code st)
        (crossing_signs st) (crossing_count st) (writhe st) st).
Proof.
  intros Hshape Hidx Ht Hmade Hne.
  rewrite (visit_prefix n _ _ _ idx t m) by done.
  destruct (Z.eqb_spec t 9); [done|]. done.
Qed.

Lemma visit_first n size c st idx m :
  shape n st → py_index n (curr_tile st) = Some idx →
  mosaic st !! idx = Some 9 → made_connections st !! idx = Some m →
  saturate 9 (length (m ++ [c])) idx (satisfied st) !! idx = Some false →
  visit size c st =
  Ok (moved size c idx 9 m
        (<[idx := crossing_count st + 1]> (crossing_number st))
        (gauss_code st ++ [signed (fst c) (crossing_count st + 1)])
        (crossing_signs st ++ [0]) (crossing_count st + 1) (writhe st) st).
Proof.
  intros Hshape Hidx Ht Hmade Hsat.
  rewrite (visit_prefix n _ _ _ idx 9 m) by done.
  destruct Hshape as (Hm & Hs & Hc & Hmc).
  change (9 =? 9) with true. cbn match.
  rewrite (py_get_at _ _ idx false) by (by rewrite ?saturate_length, ?Hs).
  cbn [bind]. rewrite (py_set_at _ _ idx) by (by rewrite ?Hc). done.
Qed.

Lemma visit_again n size c st idx m k j first :
  shape n st → py_index n (curr_tile st) = Some idx →
  mosaic st !! idx = Some 9 → made_connections st !! idx = Some m →
  saturate 9 (length (m ++ [c])) idx (satisfied st) !! idx = Some true →
  crossing_number st !! idx = Some k →
  head (m ++ [c]) = Some first →
  py_index (length (crossing_signs st)) (k - 1) = Some j →
  visit size c st =
  Ok (moved size c idx 9 m (crossing_number st)
        (gauss_code st ++ [signed (fst c) k])
        (<[j := if fst c + fst first =? 3 then 1 else -1]> (crossing_signs st))
        (crossing_count st)
        (if fst c + fst first =? 3 then writhe st + 1 else writhe st - 1) st).
Proof.
  intros Hshape Hidx Ht Hmade Hsat Hk Hfirst Hj.
  rewrite (visit_prefix n _ _ _ idx 9 m) by done.
  destruct Hshape as (Hm & Hs & Hc & Hmc).
  change (9 =? 9) with true. cbn match.
  rewrite (py_get_at _ _ idx true) by (by rewrite ?saturate_length, ?Hs).
  cbn [bind]. rewrite (py_get_at _ _ idx k) by (by rewrite ?Hc). cbn [bind].
  rewrite (py_get_at (m ++ [c]) 0 0%nat first).
  2: { apply py_index_nonneg. rewrite length_app. simpl. lia. }
  2: { by rewrite <- head_lookup. }
  cbn [bind]. destruct (fst c + fst first =? 3);
    rewrite (py_set_at _ _ j) by done; done.
Qed.

(** ** The invariant on the crossings *)

Lemma signed_abs p k : 0 ≤ k → Z.abs (signed p k) = k.
Proof. unfold signed. case_match; lia. Qed.

Lemma signed_odd p k : signed p k = if Z.odd p then k else - k.
Proof.
  unfold signed. rewrite (Zodd_mod p). done.
Qed.

Lemma occurrences_snoc k g x :
  occurrences k (g ++ [x])
  = occurrences k g ++ (if decide (Z.abs x = k) then [x] else []).
Proof.
  unfold occurrences. by rewrite filter_app.
Qed.

Lemma occurrences_none k g count :
  Forall (λ x, 1 ≤ Z.abs x ≤ count) g → count < k → occurrences k g = [].
Proof.
  intros Hall Hk. unfold occurrences. induction Hall as [|x g Hx _ IH]; [done|].
  rewrite filter_cons. case_decide; [lia | done].
Qed.

Lemma passes_snoc k m c : passes k (m ++ [c]) = passes k m ++ [signed (fst c) k].
Proof. unfold passes. by rewrite fmap_app. Qed.

Lemma saturate_lookup_ne t len idx sat idx' :
  idx ≠ idx' → saturate t len idx sat !! idx' = sat !! idx'.
Proof.
  intros Hne. unfold saturate. case_match; [|done].
  by apply list_lookup_insert_ne.
Qed.

Lemma saturate_crossing len idx sat s :
  sat !! idx = Some s →
  saturate 9 len idx sat !! idx = Some (bool_decide (len = 2%nat) || s).
Proof.
  intros Hs. unfold saturate.
  change (9 <? 7) with false. rewrite andb_false_r, orb_false_l.
  case_bool_decide as Hlen.
  - subst len. simpl. apply list_lookup_insert_eq. by eapply lookup_lt_Some.
  - destruct (Z.eqb_spec (Z.of_nat len) 2); [lia|]. done.
Qed.

Lemma current_tile n st c :
  shape n st → select_conn st = Ok (Some c) →
  ∃ idx t m s k, py_index n (curr_tile st) = Some idx ∧
    mosaic st !! idx = Some t ∧ made_connections st !! idx = Some m ∧
    satisfied st !! idx = Some s ∧ crossing_number st !! idx = Some k.
Proof.
  intros (Hm & Hs & Hc & Hmc) Hsel. unfold select_conn in Hsel.
  bind_inv Hsel. apply py_get_Ok in E as (idx & Hidx & Ht).
  rewrite Hm in Hidx. pose proof (py_index_lt _ _ _ Hidx) as Hlt.
  destruct (lookup_lt_is_Some_2 (made_connections st) idx) as [m Hmade]; [lia|].
  destruct (lookup_lt_is_Some_2 (satisfied st) idx) as [s Hsat]; [lia|].
  destruct (lookup_lt_is_Some_2 (crossing_number st) idx) as [k Hk]; [lia|].
  exists idx, x, m, s, k. done.
Qed.

Lemma moved_shape n size c idx t m cn g sg count wr st :
  shape n st → length cn = n →
  shape n (moved size c idx t m cn g sg count wr st).
Proof.
  intros (Hm & Hs & Hc & Hmc) Hcn. unfold shape. simpl.
  by rewrite saturate_length, length_insert.
Qed.

Lemma face_moved (c : conn) : 0 ≤ (snd c + 2) `mod` 4 ≤ 3.
Proof. pose proof (Z.mod_pos_bound (snd c + 2) 4). lia. Qed.

Lemma allocated_moved_ne size c idx t m cn g sg count wr st idx' k :
  idx ≠ idx' →
  allocated (moved size c idx t m cn g sg count wr st) idx' k ↔
  ∃ m', mosaic st !! idx' = Some 9 ∧ made_connections st !! idx' = Some m' ∧
        m' ≠ [] ∧ cn !! idx' = Some k.
Proof.
  intros Hne. unfold allocated. simpl.
  by setoid_rewrite (list_lookup_insert_ne _ _ _ _ Hne).
Qed.

Lemma allocated_moved_eq n size c idx m cn g sg count wr st k :
  shape n st → mosaic st !! idx = Some 9 →
  allocated (moved size c idx 9 m cn g sg count wr st) idx k ↔
  cn !! idx = Some k.
Proof.
  intros (Hm & _ & _ & Hmc) H9. unfold allocated. simpl.
  assert (idx < length (made_connections st))%nat.
  { rewrite Hmc, <- Hm. by eapply lookup_lt_Some. }
  split.
  - by intros (m' & _ & _ & _ & Hk).
  - intros Hk. exists (m ++ [c]). rewrite list_lookup_insert_eq by done.
    repeat split; try done. by destruct m.
Qed.

Lemma inv_plain n size c st idx t m :
  crossing_inv n st →
  mosaic st !! idx = Some t → made_connections st !! idx = Some m → t ≠ 9 →
  crossing_inv n
    (moved size c idx t m (crossing_number st) (gauss_code st)
       (crossing_signs st) (crossing_count st) (writhe st) st).
Proof.
  intros (Hshape & Hcount & Hg & Hface & Hempty & Hrec & Huniq & Hcov) Ht Hm Hne.
  assert (Hother : ∀ idx', mosaic st !! idx' = Some 9 → idx ≠ idx').
  { intros idx' H9 ->. congruence. }
  split; [apply moved_shape; [done | apply Hshape]|].
  split; [done|]. split; [done|]. split; [apply face_moved|].
  split; [|split; [|split]].
  - intros idx' H9 Hmade'. simpl in *.
    rewrite list_lookup_insert_ne in Hmade' by auto.
    rewrite saturate_lookup_ne by auto. auto.
  - intros idx' m' H9 Hmade' Hne'. simpl in *.
    rewrite list_lookup_insert_ne in Hmade' by auto.
    destruct (Hrec idx' m' H9 Hmade' Hne') as (k & Hk & Hrange & Hocc & Hsat & Hres).
    exists k. simpl. rewrite saturate_lookup_ne by auto. done.
  - intros idx1 idx2 k H1 H2.
    assert (H91 : mosaic st !! idx1 = Some 9) by (by destruct H1 as (? & ? & _)).
    assert (H92 : mosaic st !! idx2 = Some 9) by (by destruct H2 as (? & ? & _)).
    apply allocated_moved_ne in H1; [|auto]. apply allocated_moved_ne in H2; [|auto].
    by apply (Huniq idx1 idx2 k).
  - intros k Hk. destruct (Hcov k Hk) as (idx' & Hall).
    exists idx'. apply allocated_moved_ne; [|done].
    apply Hother. by destruct Hall as (? & ? & _).
Qed.

Lemma inv_first n size c st idx :
  crossing_inv n st →
  mosaic st !! idx = Some 9 → made_connections st !! idx = Some [] →
  crossing_inv n
    (moved size c idx 9 []
       (<[idx := crossing_count st + 1]> (crossing_number st))
       (gauss_code st ++ [signed (fst c) (crossing_count st + 1)])
       (crossing_signs st ++ [0]) (crossing_count st + 1) (writhe st) st).
Proof.
  intros (Hshape & Hcount & Hg & Hface & Hempty & Hrec & Huniq & Hcov) H9 Hm.
  pose proof Hshape as (Hlm & Hls & Hlc & Hlmc).
  assert (Hlt : (idx < n)%nat) by (rewrite <- Hlm; by eapply lookup_lt_Some).
  assert (Hnew : Z.abs (signed (fst c) (crossing_count st + 1)) = crossing_count st + 1)
    by (apply signed_abs; lia).
  split; [apply moved_shape; [done | by rewrite length_insert]|].
  split; [simpl; rewrite length_app; simpl; lia|].
  split.
  { simpl. apply Forall_app. split.
    - eapply Forall_impl; [exact Hg|]. simpl. intros; lia.
    - apply Forall_singleton. lia. }
  split; [apply face_moved|].
  split; [|split; [|split]].
  - intros idx' H9' Hmade'. simpl in *.
    destruct (decide (idx = idx')) as [<-|Hne].
    + rewrite list_lookup_insert_eq in Hmade' by lia. done.
    + rewrite list_lookup_insert_ne in Hmade' by done.
      rewrite saturate_lookup_ne by done. auto.
  - intros idx' m' H9' Hmade' Hne'. simpl in *.
    destruct (decide (idx = idx')) as [<-|Hne].
    + rewrite list_lookup_insert_eq in Hmade' by lia.
      injection Hmade' as <-.
      exists (crossing_count st + 1). simpl.
      rewrite list_lookup_insert_eq by lia.
      rewrite (saturate_crossing _ _ _ false) by auto.
      rewrite occurrences_snoc, (occurrences_none _ _ (crossing_count st)) by (done || lia).
      rewrite decide_True by done.
      repeat split; try done; try lia.
    + rewrite list_lookup_insert_ne in Hmade' by done.
      destruct (Hrec idx' m' H9' Hmade' Hne') as (k & Hk & Hrange & Hocc & Hsat & Hres).
      exists k. simpl. rewrite list_lookup_insert_ne by done.
      rewrite saturate_lookup_ne by done.
      rewrite occurrences_snoc, decide_False, app_nil_r by lia.
      split; [done|]. split; [lia|]. split; [done|]. split; [done|].
      intros Hlen. unfold resolved. simpl.
      rewrite lookup_app_l by lia. by apply Hres.
  - intros idx1 idx2 k H1 H2.
    assert (H91 : mosaic st !! idx1 = Some 9) by (by destruct H1 as (? & ? & _)).
    assert (H92 : mosaic st !! idx2 = Some 9) by (by destruct H2 as (? & ? & _)).
    assert (Hold : ∀ idx', idx ≠ idx' →
      allocated (moved size c idx 9 []
       (<[idx := crossing_count st + 1]> (crossing_number st))
       (gauss_code st ++ [signed (fst c) (crossing_count st + 1)])
       (crossing_signs st ++ [0]) (crossing_count st + 1) (writhe st) st) idx' k →
      allocated st idx' k ∧ k ≤ crossing_count st).
    { intros idx' Hne (m' & Hm9 & Hm' & Hne' & Hk)%allocated_moved_ne; [|done].
      rewrite list_lookup_insert_ne in Hk by done.
      split; [by exists m'|].
      destruct (Hrec idx' m' Hm9 Hm' Hne') as (k' & Hk' & Hrange & _).
      simplify_eq. lia. }
    assert (Hmine : allocated (moved size c idx 9 []
       (<[idx := crossing_count st + 1]> (crossing_number st))
       (gauss_code st ++ [signed (fst c) (crossing_count st + 1)])
       (crossing_signs st ++ [0]) (crossing_count st + 1) (writhe st) st) idx k →
       k = crossing_count st + 1).
    { intros Hk%(allocated_moved_eq n); [|done..].
      rewrite list_lookup_insert_eq in Hk by lia. by injection Hk. }
    destruct (decide (idx = idx1)) as [<-|Hne1], (decide (idx = idx2)) as [<-|Hne2];
      [done | | |].
    + apply Hmine in H1. apply Hold in H2 as [_ ?]; [lia | done].
    + apply Hmine in H2. apply Hold in H1 as [_ ?]; [lia | done].
    + apply Hold in H1 as [H1 _]; [|done]. apply Hold in H2 as [H2 _]; [|done].
      by apply (Huniq idx1 idx2 k).
  - intros k Hk. simpl in Hk.
    destruct (decide (k = crossing_count st + 1)) as [->|Hne].
    + exists idx. apply (allocated_moved_eq n); [done..|].
      apply list_lookup_insert_eq. lia.
    + destruct (Hcov k) as (idx' & m' & Hm9 & Hm' & Hne' & Hk'); [lia|].
      assert (idx ≠ idx') by (intros ->; congruence).
      exists idx'. apply allocated_moved_ne; [done|].
      exists m'. by rewrite list_lookup_insert_ne.
Qed.

Lemma inv_again n size c st idx m k (b : bool) wr :
  crossing_inv n st →
  mosaic st !! idx = Some 9 → made_connections st !! idx = Some m → m ≠ [] →
  crossing_number st !! idx = Some k →
  crossing_inv n
    (moved size c idx 9 m (crossing_number st)
       (gauss_code st ++ [signed (fst c) k])
       (<[Z.to_nat (k - 1) := if b then 1 else -1]> (crossing_signs st))
       (crossing_count st) wr st).
Proof.
  intros (Hshape & Hcount & Hg & Hface & Hempty & Hrec & Huniq & Hcov) H9 Hm Hne Hk.
  pose proof Hshape as (Hlm & Hls & Hlc & Hlmc).
  assert (Hlt : (idx < n)%nat) by (rewrite <- Hlm; by eapply lookup_lt_Some).
  destruct (Hrec idx m H9 Hm Hne) as (k0 & Hk0 & Hrange & Hocc & Hsat & Hres).
  assert (k0 = k) as -> by congruence.
  assert (Hnew : Z.abs (signed (fst c) k) = k) by (apply signed_abs; lia).
  assert (Hall : ∀ idx' k', allocated (moved size c idx 9 m (crossing_number st)
       (gauss_code st ++ [signed (fst c) k])
       (<[Z.to_nat (k - 1) := if b then 1 else -1]> (crossing_signs st))
       (crossing_count st) wr st) idx' k' ↔ allocated st idx' k').
  { intros idx' k'. destruct (decide (idx = idx')) as [<-|Hne'].
    - split.
      + intros (m' & _ & _ & _ & Hk'). by exists m.
      + intros (m' & _ & _ & _ & Hk'). by apply (allocated_moved_eq n).
    - by rewrite allocated_moved_ne. }
  split; [apply moved_shape; [done | done]|].
  split; [simpl; by rewrite length_insert|].
  split.
  { simpl. apply Forall_app. split; [done|]. apply Forall_singleton. lia. }
  split; [apply face_moved|].
  split; [|split; [|split]].
  - intros idx' H9' Hmade'. simpl in *.
    destruct (decide (idx = idx')) as [<-|Hne'].
    + rewrite list_lookup_insert_eq in Hmade' by lia.
      injection Hmade' as Hmade'. by destruct m.
    + rewrite list_lookup_insert_ne in Hmade' by done.
      rewrite saturate_lookup_ne by done. auto.
  - intros idx' m' H9' Hmade' Hne'. simpl in *.
    destruct (decide (idx = idx')) as [<-|Hneq].
    + rewrite list_lookup_insert_eq in Hmade' by lia.
      injection Hmade' as <-.
      exists k. simpl.
      rewrite (saturate_crossing _ _ _ _ Hsat).
      rewrite occurrences_snoc, decide_True, passes_snoc, Hocc by done.
      assert (Hlen : (2 ≤ length (m ++ [c]))%nat).
      { rewrite length_app. simpl. destruct m; [done | simpl; lia]. }
      split; [done|]. split; [lia|]. split; [done|]. split.
      * f_equal. rewrite (bool_decide_eq_true_2 _ Hlen).
        apply orb_true_iff. rewrite !bool_decide_eq_true.
        rewrite length_app in *. simpl in *. lia.
      * intros _. unfold resolved. simpl.
        rewrite list_lookup_insert_eq by lia. destruct b; auto.
    + rewrite list_lookup_insert_ne in Hmade' by done.
      destruct (Hrec idx' m' H9' Hmade' Hne') as (k' & Hk' & Hrange' & Hocc' & Hsat' & Hres').
      assert (k' ≠ k).
      { intros ->. apply Hneq. apply (Huniq idx idx' k); [by exists m | by exists m']. }
      exists k'. simpl. rewrite saturate_lookup_ne by done.
      rewrite occurrences_snoc, decide_False, app_nil_r by lia.
      split; [done|]. split; [lia|]. split; [done|]. split; [done|].
      intros Hlen. unfold resolved. simpl.
      rewrite list_lookup_insert_ne by lia. by apply Hres'.
  - intros idx1 idx2 k' H1%Hall H2%Hall. by apply (Huniq idx1 idx2 k').
  - intros k' Hk'. simpl in Hk'. destruct (Hcov k' Hk') as (idx' & Hidx').
    exists idx'. by apply Hall.
Qed.

(** What a visit of a crossing tile does in a state that satisfies the
    invariant: the first one allocates, every later one resolves. *)
Lemma visit_first_inv n size c st idx :
  crossing_inv n st → py_index n (curr_tile st) = Some idx →
  mosaic st !! idx = Some 9 → made_connections st !! idx = Some [] →
  visit size c st =
  Ok (moved size c idx 9 []
        (<[idx := crossing_count st + 1]> (crossing_number st))
        (gauss_code st ++ [signed (fst c) (crossing_count st + 1)])
        (crossing_signs st ++ [0]) (crossing_count st + 1) (writhe st) st).
Proof.
  intros (Hshape & _ & _ & _ & Hempty & _) Hidx H9 Hm.
  apply (visit_first n); try done.
  by rewrite (saturate_crossing _ _ _ false) by auto.
Qed.

Lemma visit_again_inv n size c st idx c0 m k :
  crossing_inv n st → py_index n (curr_tile st) = Some idx →
  mosaic st !! idx = Some 9 → made_connections st !! idx = Some (c0 :: m) →
  crossing_number st !! idx = Some k →
  1 ≤ k ≤ crossing_count st ∧
  visit size c st =
  Ok (moved size c idx 9 (c0 :: m) (crossing_number st)
        (gauss_code st ++ [signed (fst c) k])
        (<[Z.to_nat (k - 1) := if fst c + fst c0 =? 3 then 1 else -1]>
           (crossing_signs st))
        (crossing_count st)
        (if fst c + fst c0 =? 3 then writhe st + 1 else writhe st - 1) st).
Proof.
  intros (Hshape & Hcount & _ & _ & _ & Hrec & _) Hidx H9 Hm Hk.
  destruct (Hrec idx (c0 :: m) H9 Hm) as (k' & Hk' & Hrange & _ & Hsat & _); [done|].
  assert (k' = k) as -> by congruence.
  split; [done|].
  apply (visit_again n); try done.
  - rewrite (saturate_crossing _ _ _ _ Hsat). f_equal.
    apply orb_true_iff. rewrite !bool_decide_eq_true. simpl.
    rewrite length_app. simpl. lia.
  - apply py_index_nonneg. lia.
Qed.

Lemma loop_body_inv n size st st' :
  crossing_inv n st → loop_body size st = Ok st' → crossing_inv n st'.
Proof.
  intros Hinv Hbody.
  destruct (loop_body_cases _ _ _ Hbody) as [[_ ->]|(c & Hsel & Hvis)]; [done|].
  pose proof Hinv as (Hshape & _).
  destruct (current_tile n st c Hshape Hsel)
    as (idx & t & m & s & k & Hidx & Ht & Hm & Hs & Hk).
  destruct (decide (t = 9)) as [->|Hne].
  - destruct m as [|c0 m].
    + rewrite (visit_first_inv n _ _ _ idx) in Hvis by done.
      injection Hvis as <-. by apply inv_first.
    + destruct (visit_again_inv n size c st idx c0 m k) as [_ Heq]; try done.
      rewrite Heq in Hvis. injection Hvis as <-. by apply inv_again.
  - rewrite (visit_plain n _ _ _ idx t m) in Hvis by done.
    injection Hvis as <-. by apply inv_plain.
Qed.

Lemma traversal_inv n size fuel st st' :
  crossing_inv n st → traversal size fuel st = Ok st' → crossing_inv n st'.
Proof.
  intros Hinv Hrun.
  apply (traversal_invariant (crossing_inv n) size) in Hrun as [H _]; try done.
  intros x x' Hx _ Hb. by apply (loop_body_inv n size x).
Qed.

Lemma table_ports : forallb (forallb ports_ok) valid_connections = true.
Proof. reflexivity. Qed.

Lemma ports_ok_table row c :
  row ∈ valid_connections → c ∈ row → 0 ≤ fst c ≤ 3.
Proof.
  intros Hrow Hc. pose proof table_ports as H.
  rewrite forallb_forall in H. apply list_elem_of_In in Hrow.
  specialize (H _ Hrow). rewrite forallb_forall in H.
  apply list_elem_of_In in Hc. specialize (H _ Hc).
  unfold ports_ok in H. rewrite !andb_true_iff in H. lia.
Qed.

(** The state in which the walk starts satisfies the invariant. *)
Lemma start_diagram_inv n s st st1 :
  fresh_state n st → diagram_line n s = true →
  start_diagram s st = Ok (Placed st1) →
  crossing_inv n st1 ∧ mosaic st1 = tiles_of s ∧
  satisfied st1 = ((λ d, d =? 0) <$> tiles_of s) ∧
  starting_tile st1 = Z.of_nat <$> first_nonzero (tiles_of s) ∧
  Some (curr_tile st1) = starting_tile st1.
Proof.
  intros Hfresh Hline Hstart.
  destruct (parse_line_fresh _ _ _ Hfresh Hline) as (Hparse & Hmos & Hsat & Hst).
  destruct Hfresh as (Hshape & Hg & Hsg & Hmade & Hcount & _).
  destruct (start_diagram_frame n _ _ _ Hshape Hstart)
    as (Hshape1 & _ & Hg1 & Hsg1 & Hmade1 & Hcount1 & _).
  apply start_diagram_Placed in Hstart as (st0 & s0 & Hparse' & Hs0 & Henter).
  rewrite Hparse in Hparse'. injection Hparse' as <-.
  apply enter_Ok in Henter
    as (t & conns & c0 & _ & Hrow & Hc0 & Hcur & Hface & Hm1 & Hs1 & _ & _ & _
        & _ & _ & _ & _ & _ & Hst1 & _).
  rewrite Hst in Hs0.
  split; [|by rewrite Hm1, Hs1, Hst1, Hmos, Hsat, Hst, Hcur].
  split; [done|].
  split; [by rewrite Hcount1, Hsg1, Hsg, Hcount|].
  split; [rewrite Hg1, Hg; constructor|].
  split.
  { rewrite Hface. apply py_get_Ok in Hrow as (? & _ & Hrow).
    apply py_get_Ok in Hc0 as (? & _ & Hc0).
    apply (ports_ok_table conns); by eapply list_elem_of_lookup_2. }
  split; [|split; [|split]].
  - intros idx H9 _. rewrite Hs1, Hsat. rewrite Hm1, Hmos in H9.
    by rewrite list_lookup_fmap, H9.
  - intros idx m _ Hm Hne. rewrite Hmade1, Hmade in Hm.
    apply lookup_replicate in Hm as [-> _]. done.
  - intros idx1 idx2 k (m & _ & Hm & Hne & _) _. rewrite Hmade1, Hmade in Hm.
    apply lookup_replicate in Hm as [-> _]. done.
  - intros k Hk. rewrite Hcount1, Hcount in Hk. lia.
Qed.

Lemma iterations_inv n size k st st' :
  crossing_inv n st → iterations size k st st' → crossing_inv n st'.
Proof.
  intros Hinv Hiter. induction Hiter as [|k st st' st'' _ Hbody _ IH]; [done|].
  apply IH. by apply (loop_body_inv n size st).
Qed.

Lemma traverse_diagram_Placed size fuel s st st2 :
  traverse_diagram size fuel s st = Ok (Placed st2) →
  ∃ st1, start_diagram s st = Ok (Placed st1) ∧
         traversal size fuel st1 = Ok st2.
Proof.
  unfold traverse_diagram. intros H. bind_inv H. destruct x as [st0|st1].
  - discriminate.
  - bind_inv H. injection H as <-. eauto.
Qed.

(** C4 (amended). After a successful traversal of a line of n digits read
    in a fresh state, every crossing identity k from 1 to the crossing
    counter belongs to a tile of type 9 that has been passed at least
    twice; the Gauss code holds, in order, one entry for each of these
    passes, +k for a pass entering by an odd port and -k for one entering
    by an even port, and no other entry naming k; and the sign recorded
    for k is +1 or -1. *)
Theorem crossing_identities_resolved n size fuel s st st2 :
  fresh_state n st → diagram_line n s = true →
  traverse_diagram size fuel s st = Ok (Placed st2) →
  saturated st2 →
  ∀ k, 1 ≤ k ≤ crossing_count st2 →
    ∃ idx m, mosaic st2 !! idx = Some 9 ∧
      crossing_number st2 !! idx = Some k ∧
      made_connections st2 !! idx = Some m ∧
      (2 ≤ length m)%nat ∧
      occurrences k (gauss_code st2)
      = ((λ c, if Z.odd (fst c) then k else - k) <$> m) ∧
      length (occurrences k (gauss_code st2)) = length m ∧
      resolved st2 k.
Proof.
  intros Hfresh Hline Hrun Hsat k Hk.
  apply traverse_diagram_Placed in Hrun as (st1 & Hstart & Hrun).
  destruct (start_diagram_inv _ _ _ _ Hfresh Hline Hstart) as (Hinv1 & _).
  pose proof (traversal_inv _ _ _ _ _ Hinv1 Hrun)
    as (_ & _ & _ & _ & _ & Hrec & _ & Hcov).
  destruct (Hcov k Hk) as (idx & m & H9 & Hm & Hne & Hcn).
  destruct (Hrec idx m H9 Hm Hne) as (k' & Hk' & _ & Hocc & Hs & Hres).
  assert (k' = k) as -> by congruence.
  apply Hsat in Hs. apply bool_decide_eq_true in Hs.
  exists idx, m. repeat split; try done.
  - rewrite Hocc. unfold passes. apply list_fmap_ext. intros ? c _.
    apply signed_odd.
  - rewrite Hocc. unfold passes. by rewrite length_fmap.
  - by apply Hres.
Qed.

Lemma crossing_identities_resolved_witness :
  ∃ st2, traverse_diagram 3 100 "008559594" (initial_tstate 3) = Ok (Placed st2) ∧
    ∃ idx m, mosaic st2 !! idx = Some 9 ∧
      crossing_number st2 !! idx = Some 2 ∧
      made_connections st2 !! idx = Some m ∧
      (2 ≤ length m)%nat ∧
      occurrences 2 (gauss_code st2)
      = ((λ c, if Z.odd (fst c) then 2 else - 2) <$> m) ∧
      length (occurrences 2 (gauss_code st2)) = length m ∧
      resolved st2 2.
Proof.
  eexists. split; [vm_compute; reflexivity|].
  eapply (crossing_identities_resolved 9 3 100 "008559594" (initial_tstate 3)).
  - repeat split; reflexivity.
  - vm_compute. reflexivity.
  - vm_compute. reflexivity.
  - apply all_satisfied_saturated. reflexivity.
  - simpl. lia.
Defined.

(** C4 fails as stated: the diagram 008559594 of size 3 is traversed to
    the end with every tile saturated; crossing 1 appears four times in
    its Gauss code and the two appearances of crossing 2 have the same
    sign. *)
Lemma crossing_passed_along_one_strand :
  ∃ st2, traverse_diagram 3 100 "008559594" (initial_tstate 3) = Ok (Placed st2) ∧
    saturated st2 ∧ crossing_count st2 = 2 ∧
    occurrences 1 (gauss_code st2) = [1; -1; 1; -1] ∧
    occurrences 2 (gauss_code st2) = [-2; -2].
Proof.
  eexists. split; [vm_compute; reflexivity|]. split.
  - apply all_satisfied_saturated. reflexivity.
  - repeat split; vm_compute; reflexivity.
Qed.

Lemma select_crossing n st idx :
  shape n st → py_index n (curr_tile st) = Some idx →
  mosaic st !! idx = Some 9 → 0 ≤ face st ≤ 3 →
  select_conn st = Ok (Some (face st, (face st + 2) `mod` 4)).
Proof.
  intros (Hm & _) Hidx H9 Hface. unfold select_conn.
  rewrite (py_get_at _ _ idx 9) by (by rewrite ?Hm). cbn [bind].
  change (py_get valid_connections 9) with (Ok [(0,2); (1,3); (2,0); (3,1)]).
  cbn [bind].
  assert (face st = 0 ∨ face st = 1 ∨ face st = 2 ∨ face st = 3)
    as [-> | [-> | [-> | ->]]] by lia; reflexivity.
Qed.

Lemma crossing_visit_inv n size st idx :
  crossing_inv n st → py_index n (curr_tile st) = Some idx →
  mosaic st !! idx = Some 9 →
  ∃ st', loop_body size st = Ok st' ∧
    (made_connections st !! idx = Some [] →
       made_connections st' !! idx = Some [(face st, (face st + 2) `mod` 4)] ∧
       crossing_count st' = crossing_count st + 1 ∧
       1 ≤ crossing_count st' ∧
       crossing_number st' !! idx = Some (crossing_count st') ∧
       crossing_signs st' = crossing_signs st ++ [0] ∧
       gauss_code st' = gauss_code st ++
         [if Z.odd (face st) then crossing_count st' else - crossing_count st'] ∧
       writhe st' = writhe st) ∧
    (∀ c0, made_connections st !! idx = Some [c0] →
       ∃ k, crossing_number st !! idx = Some k ∧
         crossing_number st' = crossing_number st ∧
         crossing_count st' = crossing_count st ∧
         gauss_code st' = gauss_code st ++ [if Z.odd (face st) then k else - k] ∧
         (fst c0 + face st = 3 →
            writhe st' = writhe st + 1 ∧
            crossing_signs st' = <[Z.to_nat (k - 1) := 1]> (crossing_signs st) ∧
            crossing_signs st' !! Z.to_nat (k - 1) = Some 1) ∧
         (fst c0 + face st ≠ 3 →
            writhe st' = writhe st - 1 ∧
            crossing_signs st' = <[Z.to_nat (k - 1) := -1]> (crossing_signs st) ∧
            crossing_signs st' !! Z.to_nat (k - 1) = Some (-1))).
Proof.
  intros Hinv Hidx H9.
  pose proof Hinv as (Hshape & Hcount & _ & Hface & _).
  pose proof Hshape as (Hlm & Hls & Hlc & Hlmc).
  pose proof (py_index_lt _ _ _ Hidx) as Hlt.
  unfold loop_body. rewrite (select_crossing n _ idx) by done. cbn [bind].
  destruct (lookup_lt_is_Some_2 (made_connections st) idx) as [m Hm]; [lia|].
  destruct (lookup_lt_is_Some_2 (crossing_number st) idx) as [k Hk]; [lia|].
  destruct m as [|c0 m].
  - rewrite (visit_first_inv n _ _ _ idx) by done.
    eexists. split; [reflexivity|]. split.
    + intros _. simpl. rewrite !list_lookup_insert_eq by (unfold conn in *; lia).
      rewrite signed_odd. repeat split; try done. lia.
    + intros c0 Hc0. pose proof (eq_trans (eq_sym Hm) Hc0) as Hx. discriminate Hx.
  - destruct (visit_again_inv n size (face st, (face st + 2) `mod` 4)
                st idx c0 m k) as [Hrange ->]; try done.
    eexists. split; [reflexivity|]. split.
    + intros Hnil. pose proof (eq_trans (eq_sym Hm) Hnil) as Hx. discriminate Hx.
    + intros c0' Hc0'. pose proof (eq_trans (eq_sym Hm) Hc0') as Hx.
      injection Hx as <- ->.
      exists k. simpl. rewrite signed_odd.
      split; [done|]. split; [done|]. split; [done|]. split; [done|].
      rewrite (Z.add_comm (face st)).
      split; intros Hsum.
      * destruct (Z.eqb_spec (fst c0 + face st) 3); [|done].
        repeat split. apply list_lookup_insert_eq. lia.
      * destruct (Z.eqb_spec (fst c0 + face st) 3); [done|].
        repeat split. apply list_lookup_insert_eq. lia.
Qed.

(** C2. In every state that the traversal of a line of n digits, read in a
    fresh state, goes through, a step that enters a tile of type 9:
    on the first visit (no connection recorded yet) the crossing counter
    is incremented and its new value, at least 1, becomes the identity of
    the tile, a sign 0 is appended to the sign table, and the Gauss code
    gets +identity when the entry port is odd and -identity when it is
    even, the writhe being unchanged; on the second visit (one connection
    recorded) the Gauss code gets the signed identity by the same rule, and
    when the entry port recorded first and the present one add up to 3 the
    writhe is incremented and the sign of the crossing set to +1, otherwise
    the writhe is decremented and the sign set to -1. *)
Theorem crossing_visit n size s st0 st1 steps st idx :
  fresh_state n st0 → diagram_line n s = true →
  start_diagram s st0 = Ok (Placed st1) →
  iterations size steps st1 st →
  py_index n (curr_tile st) = Some idx →
  mosaic st !! idx = Some 9 →
  ∃ st', loop_body size st = Ok st' ∧
    (made_connections st !! idx = Some [] →
       made_connections st' !! idx = Some [(face st, (face st + 2) `mod` 4)] ∧
       crossing_count st' = crossing_count st + 1 ∧
       1 ≤ crossing_count st' ∧
       crossing_number st' !! idx = Some (crossing_count st') ∧
       crossing_signs st' = crossing_signs st ++ [0] ∧
       gauss_code st' = gauss_code st ++
         [if Z.odd (face st) then crossing_count st' else - crossing_count st'] ∧
       writhe st' = writhe st) ∧
    (∀ c0, made_connections st !! idx = Some [c0] →
       ∃ k, crossing_number st !! idx = Some k ∧
         crossing_number st' = crossing_number st ∧
         crossing_count st' = crossing_count st ∧
         gauss_code st' = gauss_code st ++ [if Z.odd (face st) then k else - k] ∧
         (fst c0 + face st = 3 →
            writhe st' = writhe st + 1 ∧
            crossing_signs st' = <[Z.to_nat (k - 1) := 1]> (crossing_signs st) ∧
            crossing_signs st' !! Z.to_nat (k - 1) = Some 1) ∧
         (fst c0 + face st ≠ 3 →
            writhe st' = writhe st - 1 ∧
            crossing_signs st' = <[Z.to_nat (k - 1) := -1]> (crossing_signs st) ∧
            crossing_signs st' !! Z.to_nat (k - 1) = Some (-1))).
Proof.
  intros Hfresh Hline Hstart Hiter Hidx H9.
  destruct (start_diagram_inv _ _ _ _ Hfresh Hline Hstart) as (Hinv & _).
  apply (crossing_visit_inv n); try done.
  by apply (iterations_inv n size steps st1).
Qed.

Lemma crossing_visit_witness :
  ∃ st1 st', start_diagram "9000" (initial_tstate 2) = Ok (Placed st1) ∧
    loop_body 2 st1 = Ok st' ∧
    crossing_count st' = 1 ∧ gauss_code st' = [-1] ∧ crossing_signs st' = [0].
Proof.
  eexists. eexists. split; [vm_compute; reflexivity|].
  split; [vm_compute; reflexivity|].
  assert (Hstart : start_diagram "9000" (initial_tstate 2)
      = Ok (Placed {| mosaic := [9; 0; 0; 0];
                      satisfied := [false; true; true; true];
                      crossing_number := [0; 0; 0; 0];
                      gauss_code := []; crossing_signs := [];
                      made_connections := [[]; []; []; []];
                      crossing_count := 0; i := 4; num := 0; writhe := 0;
                      up_cusps := 0; down_cusps := 0; curr_tile := 0;
                      starting_tile := Some 0; face := 0 |}))
    by (vm_compute; reflexivity).
  assert (Hfresh : fresh_state 4 (initial_tstate 2))
    by (repeat split; reflexivity).
  destruct (crossing_visit 4 2 "9000" _ _ 0 _ 0%nat Hfresh eq_refl Hstart
              (iterations_O _ _) eq_refl eq_refl)
    as (st' & Hbody & Hfirst & _).
  destruct (Hfirst eq_refl) as (_ & Hc & _ & _ & Hs & Hg & _).
  assert (Hbody' : loop_body 2
      {| mosaic := [9; 0; 0; 0];
         satisfied := [false; true; true; true];
         crossing_number := [0; 0; 0; 0];
         gauss_code := []; crossing_signs := [];
         made_connections := [[]; []; []; []];
         crossing_count := 0; i := 4; num := 0; writhe := 0;
         up_cusps := 0; down_cusps := 0; curr_tile := 0;
         starting_tile := Some 0; face := 0 |}
      = Ok {| mosaic := [9; 0; 0; 0];
              satisfied := [false; true; true; true];
              crossing_number := [1; 0; 0; 0];
              gauss_code := [-1]; crossing_signs := [0];
              made_connections := [[(0, 2)]; []; []; []];
              crossing_count := 1; i := 4; num := 0; writhe := 0;
              up_cusps := 0; down_cusps := 0; curr_tile := -1;
              starting_tile := Some 0; face := 0 |})
    by (vm_compute; reflexivity).
  rewrite Hbody' in Hbody. injection Hbody as <-.
  repeat split; assumption.
Defined.

(** ** The traversal is a function of the line *)

Lemma first_nonzero_Some ds p :
  first_nonzero ds = Some p →
  (∃ t, ds !! p = Some t ∧ t ≠ 0) ∧ ∀ j, (j < p)%nat → ds !! j = Some 0.
Proof.
  revert p. induction ds as [|d ds IH]; intros p Hp; simpl in Hp; [done|].
  destruct (Z.eqb_spec d 0) as [->|Hd].
  - destruct (first_nonzero ds) as [q|]; [|done]. injection Hp as <-.
    destruct (IH q eq_refl) as [Ht Hz]. split; [done|].
    intros [|j] Hj; [done|]. apply Hz. lia.
  - injection Hp as <-. split; [by exists d | intros; lia].
Qed.

Lemma first_nonzero_exists ds j t :
  ds !! j = Some t → t ≠ 0 → ∃ p, first_nonzero ds = Some p ∧ (p ≤ j)%nat.
Proof.
  revert j. induction ds as [|d ds IH]; intros j Hj Ht; [done|]. simpl.
  destruct (Z.eqb_spec d 0) as [->|Hd].
  - destruct j as [|j]; [by injection Hj as <-|].
    destruct (IH j Hj Ht) as (p & -> & Hp). exists (S p). split; [done | lia].
  - exists 0%nat. split; [done | lia].
Qed.

Lemma tiles_of_range n s p t :
  diagram_line n s = true → tiles_of s !! p = Some t → 0 ≤ t ≤ 9.
Proof.
  intros [_ Hd]%diagram_line_spec Ht. unfold tiles_of in Ht.
  rewrite list_lookup_fmap in Ht.
  destruct (list_ascii_of_string s !! p) as [c|] eqn:Hc; [|done].
  injection Ht as <-. rewrite forallb_forall in Hd.
  specialize (Hd c). unfold is_digit, digit_value in *.
  apply list_elem_of_lookup_2, list_elem_of_In in Hc. specialize (Hd Hc).
  apply andb_true_iff in Hd as [H1 H2]. lia.
Qed.

Lemma table_row t :
  1 ≤ t ≤ 9 →
  ∃ conns c0, valid_connections !! Z.to_nat t = Some conns ∧
    head conns = Some c0 ∧
    py_get valid_connections t = Ok conns ∧ py_get conns 0 = Ok c0.
Proof.
  intros Ht.
  assert (t = 1 ∨ t = 2 ∨ t = 3 ∨ t = 4 ∨ t = 5 ∨ t = 6 ∨ t = 7 ∨ t = 8 ∨ t = 9)
    as [->|[->|[->|[->|[->|[->|[->|[->| ->]]]]]]]] by lia;
    eexists _, _; repeat split; reflexivity.
Qed.

Lemma start_diagram_fresh n s st p :
  fresh_state n st → diagram_line n s = true →
  first_nonzero (tiles_of s) = Some p →
  ∃ t conns c0, tiles_of s !! p = Some t ∧ t ≠ 0 ∧
    (∀ j, (j < p)%nat → tiles_of s !! j = Some 0) ∧
    valid_connections !! Z.to_nat t = Some conns ∧ head conns = Some c0 ∧
    start_diagram s st
    = Ok (Placed (placed_state n s p (fst c0) (crossing_number st))).
Proof.
  intros Hfresh Hline Hp.
  destruct (parse_line_fresh _ _ _ Hfresh Hline) as (Hparse & Hmos & Hsat & Hst).
  destruct (first_nonzero_Some _ _ Hp) as [(t & Ht & Hne) Hz].
  pose proof (tiles_of_range _ _ _ _ Hline Ht) as Hrange.
  destruct (table_row t) as (conns & c0 & Hrow & Hhead & Hget & Hget0); [lia|].
  exists t, conns, c0. repeat split; try done.
  unfold start_diagram. rewrite Hparse. cbn [bind]. rewrite Hst, Hp.
  cbn [fmap option_fmap option_map]. unfold enter. rewrite Hmos.
  pose proof (lookup_lt_Some _ _ _ Ht) as Hlt.
  rewrite (py_get_at _ _ p t);
    [| rewrite py_index_nonneg by lia; f_equal; lia | done].
  cbn [bind]. rewrite Hget. cbn [bind]. rewrite Hget0. cbn [bind].
  rewrite Hsat, Hst, Hp.
  destruct Hfresh as (_ & Hg & Hsg & Hmade & Hcount & Hi & Hw & Hu & Hd & _).
  unfold placed_state, parsed. cbn [crossing_number gauss_code crossing_signs
    made_connections crossing_count i num writhe up_cusps down_cusps
    fmap option_fmap option_map].
  rewrite Hg, Hsg, Hmade, Hcount, Hi, Hw, Hu, Hd.
  rewrite (tiles_of_length _ _ Hline).
  do 3 f_equal. destruct (last (tiles_of s)) eqn:Hlast; [done|].
  apply last_None in Hlast. by rewrite Hlast in Ht.
Qed.

(** Two results that agree up to the crossing numbers. *)
Lemma same_walk_refl_numbers n st cn' :
  length cn' = n →
  (∀ idx m, mosaic st !! idx = Some 9 →
            made_connections st !! idx = Some m → m ≠ [] →
            crossing_number st !! idx = cn' !! idx) →
  same_walk n st (with_numbers cn' st).
Proof. intros. by exists cn'. Qed.

Lemma crossing_inv_numbers n st cn' :
  crossing_inv n (with_numbers cn' st) → length cn' = n.
Proof. by intros ((_ & _ & H & _) & _). Qed.

Lemma loop_body_sim n size st st' :
  crossing_inv n st → crossing_inv n st' → same_walk n st st' →
  (∃ x x', loop_body size st = Ok x ∧ loop_body size st' = Ok x' ∧
           same_walk n x x') ∨
  (∃ e, loop_body size st = Raise e ∧ loop_body size st' = Raise e) ∨
  (loop_body size st = Timeout ∧ loop_body size st' = Timeout).
Proof.
  intros Hinv Hinv' (cn' & -> & Hlen & Hagree).
  unfold loop_body.
  change (select_conn (with_numbers cn' st)) with (select_conn st).
  destruct (select_conn st) as [[c|]|e|] eqn:Hsel; cbn [bind].
  2: { left. exists st, (with_numbers cn' st). repeat split. by exists cn'. }
  2: { right. left. by exists e. }
  2: { right. right. done. }
  pose proof Hinv as (Hshape & _). pose proof Hinv' as (Hshape' & _).
  pose proof Hshape as (Hlm & Hls & Hlc & Hlmc).
  destruct (current_tile n st c Hshape Hsel)
    as (idx & t & m & s & k & Hidx & Ht & Hm & Hs & Hk).
  pose proof (py_index_lt _ _ _ Hidx) as Hlt.
  destruct (lookup_lt_is_Some_2 cn' idx) as [k' Hk']; [lia|].
  left. destruct (decide (t = 9)) as [->|Hne].
  - destruct m as [|c0 m].
    + rewrite (visit_first_inv n _ _ st idx) by done.
      rewrite (visit_first_inv n _ _ (with_numbers cn' st) idx) by done.
      eexists _, _. split; [reflexivity|]. split; [reflexivity|].
      exists (<[idx := crossing_count st + 1]> cn').
      split; [reflexivity|]. split; [by rewrite length_insert|].
      intros idx' m' H9 Hm' Hne'. simpl in *.
      destruct (decide (idx = idx')) as [<-|Hneq].
      * by rewrite !list_lookup_insert_eq by lia.
      * rewrite !list_lookup_insert_ne by done.
        rewrite list_lookup_insert_ne in Hm' by done. by eapply Hagree.
    + assert (k' = k) as ->.
      { specialize (Hagree idx (c0 :: m) Ht Hm). rewrite Hk, Hk' in Hagree.
        symmetry. apply (inj Some). by apply Hagree. }
      destruct (visit_again_inv n size c st idx c0 m k) as [_ ->]; try done.
      destruct (visit_again_inv n size c (with_numbers cn' st) idx c0 m k)
        as [_ ->]; try done.
      eexists _, _. split; [reflexivity|]. split; [reflexivity|].
      exists cn'. split; [reflexivity|]. split; [done|].
      intros idx' m' H9 Hm' Hne'. simpl in *.
      destruct (decide (idx = idx')) as [<-|Hneq].
      * by rewrite Hk, Hk'.
      * rewrite list_lookup_insert_ne in Hm' by done. by eapply Hagree.
  - rewrite (visit_plain n _ _ st idx t m) by done.
    rewrite (visit_plain n _ _ (with_numbers cn' st) idx t m) by done.
    eexists _, _. split; [reflexivity|]. split; [reflexivity|].
    exists cn'. split; [reflexivity|]. split; [done|].
    intros idx' m' H9 Hm' Hne'. simpl in *.
    assert (idx ≠ idx') by (intros ->; congruence).
    rewrite list_lookup_insert_ne in Hm' by done. by eapply Hagree.
Qed.

Lemma traversal_sim n size fuel : ∀ st st',
  crossing_inv n st → crossing_inv n st' → same_walk n st st' →
  (∃ x x', traversal size fuel st = Ok x ∧ traversal size fuel st' = Ok x' ∧
           same_walk n x x') ∨
  (∃ e, traversal size fuel st = Raise e ∧ traversal size fuel st' = Raise e) ∨
  (traversal size fuel st = Timeout ∧ traversal size fuel st' = Timeout).
Proof.
  induction fuel as [|fuel IH]; intros st st' Hinv Hinv' Hsame.
  - assert (Hcond : loop_cond st' = loop_cond st).
    { by destruct Hsame as (cn' & -> & _). }
    simpl. rewrite Hcond. destruct (loop_cond st) as [[|]|e|]; cbn [bind].
    + right. right. done.
    + left. by exists st, st'.
    + right. left. by exists e.
    + right. right. done.
  - assert (Hcond : loop_cond st' = loop_cond st).
    { by destruct Hsame as (cn' & -> & _). }
    destruct (loop_cond st) as [[|]|e|] eqn:Hc.
    + rewrite !traversal_step by congruence.
      destruct (loop_body_sim n size st st' Hinv Hinv' Hsame)
        as [(x & x' & Hx & Hx' & Hxx)|[(e & He & He')|[Ht Ht']]].
      * rewrite Hx, Hx'. cbn [bind]. apply IH; try done.
        -- by apply (loop_body_inv n size st).
        -- by apply (loop_body_inv n size st').
      * rewrite He, He'. right. left. by exists e.
      * rewrite Ht, Ht'. right. right. done.
    + rewrite !traversal_done by congruence. left. by exists st, st'.
    + simpl. rewrite Hcond, Hc. right. left. by exists e.
    + simpl. rewrite Hcond, Hc. right. right. done.
Qed.

(** C10. For a line of n digits with a non-empty tile, read in a fresh
    state: the walk is placed on the non-empty tile of lowest index and
    enters it by the entry port of the first connection that the table
    lists for its type; and the outcome of the traversal (whether it ends,
    and then the Gauss code, the signs, the writhe, the cusp counts and the
    saturation flags) is the same from any two fresh states: it depends on
    the line alone. *)
Theorem traversal_determined_by_line n size fuel s st st' j0 t0 :
  fresh_state n st → fresh_state n st' → diagram_line n s = true →
  tiles_of s !! j0 = Some t0 → t0 ≠ 0 →
  (∃ p t conns c0 st1,
      tiles_of s !! p = Some t ∧ t ≠ 0 ∧
      (∀ j, (j < p)%nat → tiles_of s !! j = Some 0) ∧
      valid_connections !! Z.to_nat t = Some conns ∧ head conns = Some c0 ∧
      start_diagram s st = Ok (Placed st1) ∧
      curr_tile st1 = Z.of_nat p ∧ starting_tile st1 = Some (Z.of_nat p) ∧
      face st1 = fst c0) ∧
  outcome (traverse_diagram size fuel s st)
  = outcome (traverse_diagram size fuel s st').
Proof.
  intros Hfresh Hfresh' Hline Hj0 Ht0.
  destruct (first_nonzero_exists _ _ _ Hj0 Ht0) as (p & Hp & _).
  destruct (start_diagram_fresh n s st p Hfresh Hline Hp)
    as (t & conns & c0 & Ht & Hne & Hz & Hrow & Hhead & Hstart).
  destruct (start_diagram_fresh n s st' p Hfresh' Hline Hp)
    as (t' & conns' & c0' & Ht' & _ & _ & Hrow' & Hhead' & Hstart').
  assert (t' = t) as -> by congruence.
  assert (conns' = conns) as -> by congruence.
  assert (c0' = c0) as -> by congruence.
  split.
  { exists p, t, conns, c0. eexists. repeat split; try done. }
  destruct (start_diagram_inv _ _ _ _ Hfresh Hline Hstart) as (Hinv & _).
  destruct (start_diagram_inv _ _ _ _ Hfresh' Hline Hstart') as (Hinv' & _).
  rewrite (traverse_diagram_placed _ _ _ _ _ Hstart).
  rewrite (traverse_diagram_placed _ _ _ _ _ Hstart').
  assert (Hsame : same_walk n (placed_state n s p (fst c0) (crossing_number st))
                    (placed_state n s p (fst c0) (crossing_number st'))).
  { exists (crossing_number st'). split; [reflexivity|]. split.
    - by destruct Hfresh' as ((_ & _ & H & _) & _).
    - intros idx m _ Hm Hnil. simpl in Hm.
      apply lookup_replicate in Hm as [-> _]. done. }
  destruct (traversal_sim n size fuel _ _ Hinv Hinv' Hsame)
    as [(x & x' & -> & -> & (cn' & -> & _))|[(e & -> & ->)|[-> ->]]]; done.
Qed.

Lemma traversal_determined_by_line_witness :
  outcome (traverse_diagram 2 100 "0254" (initial_tstate 2))
  = outcome (traverse_diagram 2 100 "0254"
               (reset (with_numbers [7; 7; 7; 7] (initial_tstate 2)))).
Proof.
  eapply (traversal_determined_by_line 4 2 100 "0254" _ _ 1%nat 2).
  - repeat split; reflexivity.
  - repeat split; reflexivity.
  - vm_compute. reflexivity.
  - reflexivity.
  - discriminate.
Defined.

(** ** Fresh states *)

Lemma initial_fresh size :
  fresh_state (Z.to_nat (size ^ 2)) (initial_tstate size).
Proof.
  unfold fresh_state, shape, initial_tstate. simpl.
  rewrite !length_replicate. done.
Qed.

Lemma reset_fresh n st : shape n st → fresh_state n (reset st).
Proof.
  intros (Hm & Hs & Hc & Hmc). unfold fresh_state, shape, reset. simpl.
  rewrite length_fmap. repeat split; try done.
  rewrite <- Hmc. by apply const_fmap.
Qed.

(** The state that a traversed diagram leaves for the next one is fresh. *)
Lemma traversed_diagram_leaves_fresh n size fuel s st st2 :
  fresh_state n st → diagram_line n s = true →
  traverse_diagram size fuel s st = Ok (Placed st2) →
  fresh_state n (reset st2).
Proof.
  intros Hfresh Hline (st1 & Hstart & Hrun)%traverse_diagram_Placed.
  destruct (start_diagram_inv _ _ _ _ Hfresh Hline Hstart) as (Hinv & _).
  apply reset_fresh. by destruct (traversal_inv _ _ _ _ _ Hinv Hrun).
Qed.

(** ** Fuel *)

(** A traversal that has ended, or raised, with some fuel does the same
    with more: the fuel only tells how long the loop is watched. *)
Lemma traversal_more_fuel size fuel : ∀ extra st r,
  traversal size fuel st = r → r ≠ Timeout →
  traversal size (fuel + extra) st = r.
Proof.
  induction fuel as [|fuel IH]; intros extra st r Hrun Hr.
  - simpl in Hrun. destruct (loop_cond st) as [[|]|e|] eqn:Hc;
      cbn [bind] in Hrun; subst r; try done.
    + by apply traversal_done.
    + destruct extra; simpl; by rewrite Hc.
  - destruct (loop_cond st) as [[|]|e|] eqn:Hc.
    + rewrite traversal_step in Hrun by done.
      change (S fuel + extra)%nat with (S (fuel + extra)).
      rewrite traversal_step by done.
      destruct (loop_body size st) as [st'|e|]; cbn [bind] in *; [|done..].
      by apply IH.
    + rewrite traversal_done in * by done. done.
    + simpl in *. rewrite Hc in *. done.
    + simpl in *. rewrite Hc in *. done.
Qed.

(** ** The catalogue over a whole run *)

Section RunFacts.
Context {poly : Type} `{EqDecision poly}.
Variable homfly_polynomial : list Z → list Z → result poly.
Variable knot_list : poly → option string.
Variable poly_str : poly → string.

Local Abbreviation diagram' := (diagram homfly_polynomial knot_list poly_str).
Local Abbreviation catalog' := (catalog homfly_polynomial knot_list poly_str).
Local Abbreviation batch_loop' := (batch_loop homfly_polynomial knot_list poly_str).
Local Abbreviation batch_catalog' :=
  (batch_catalog homfly_polynomial knot_list poly_str).

Lemma catalog_cases s b b1 :
  catalog' s b = Ok b1 →
  b1 = b ∨
  (knot_catalog b1 = knot_catalog b ∧ out b1 = out b ∧
   knot_count b1 = knot_count b + 1 ∧ tr b1 = tr b) ∨
  (∃ k, (k ∉ (knot_catalog b).*1) ∧
     knot_catalog b1 = knot_catalog b ++ [(k, s)] ∧
     out b1 = flush (write (record_line poly_str k s) (out b)) ∧
     knot_count b1 = knot_count b + 1 ∧ tr b1 = tr b).
Proof.
  unfold catalog. destruct (all_satisfied (tr b)).
  - intros H. bind_inv H. case_bool_decide as Hin; injection H as <-.
    + right. left. done.
    + right. right. exists x. done.
  - intros [= <-]. by left.
Qed.

(** What one iteration of the outer loop can do to the run. *)
Lemma diagram_cases size fuel s b b' :
  diagram' size fuel s b = Ok b' →
  (knot_catalog b' = knot_catalog b ∧ out b' = out b ∧
   (knot_count b' = knot_count b ∨ knot_count b' = knot_count b + 1)) ∨
  (∃ k, (k ∉ (knot_catalog b).*1) ∧
     knot_catalog b' = knot_catalog b ++ [(k, s)] ∧
     out b' = flush (write (record_line poly_str k s) (out b)) ∧
     knot_count b' = knot_count b + 1).
Proof.
  unfold diagram. intros H. bind_inv H. destruct x as [st0|st2].
  - injection H as <-. left. simpl. auto.
  - bind_inv H. injection H as <-. simpl.
    destruct (catalog_cases _ _ _ E0)
      as [->|[(Hc & Ho & Hk & _)|(k & Hn & Hc & Ho & Hk & _)]].
    + left. simpl. auto.
    + left. rewrite Hc, Ho, Hk. simpl. auto.
    + right. exists k. rewrite Hc, Ho, Hk. simpl. done.
Qed.

Lemma diagram_tidy size fuel s b b' :
  diagram' size fuel s b = Ok b' → tidy poly_str b → tidy poly_str b'.
Proof.
  intros [(Hc & Ho & Hk)|(k & Hn & Hc & Ho & Hk)]%diagram_cases
    (Hbuf & Hdisk & Hnd & Hlen); unfold tidy.
  - rewrite Hc, Ho. repeat split; try done. lia.
  - rewrite Hc, Ho, Hk. simpl. rewrite Hbuf, Hdisk. simpl.
    unfold catalogue_lines. rewrite !fmap_app, length_app. simpl.
    repeat split; try done; try lia.
    apply NoDup_app. repeat split; try done.
    + intros x Hx ->%list_elem_of_singleton. done.
    + apply NoDup_singleton.
Qed.

Lemma batch_loop_tidy size fuel lines : ∀ b b',
  batch_loop' size fuel lines b = Ok b' → tidy poly_str b → tidy poly_str b'.
Proof.
  induction lines as [|l lines IH]; intros b b' Hrun Htidy; simpl in Hrun.
  - by injection Hrun as <-.
  - destruct (String.length (strip l) =? 0)%nat.
    + by injection Hrun as <-.
    + bind_inv Hrun. eapply IH; [exact Hrun|]. by eapply diagram_tidy.
Qed.

Lemma batch_loop_entries size fuel lines : ∀ b b',
  batch_loop' size fuel lines b = Ok b' →
  knot_catalog b `prefix_of` knot_catalog b' ∧
  (∀ e, e ∈ knot_catalog b' → e ∈ knot_catalog b ∨ e.2 ∈ strip <$> lines) ∧
  knot_count b ≤ knot_count b' ≤ knot_count b + Z.of_nat (length lines).
Proof.
  induction lines as [|l lines IH]; intros b b' Hrun; simpl in Hrun.
  - injection Hrun as <-. repeat split; try done; auto. simpl. lia.
  - destruct (String.length (strip l) =? 0)%nat.
    + injection Hrun as <-. repeat split; try done; auto. simpl; lia.
    + bind_inv Hrun. destruct (IH _ _ Hrun) as (Hpre & Hin & Hcnt).
      rewrite fmap_cons. cbn [length].
      destruct (diagram_cases _ _ _ _ _ E) as [(Hc & Ho & Hk)|(k & Hn & Hc & Ho & Hk)].
      * rewrite Hc in *. repeat split; try done; try lia.
        intros e He. destruct (Hin e He) as [?|?]; [by left|].
        right. by apply list_elem_of_further.
      * rewrite Hc in *. repeat split; try lia.
        -- etrans; [|exact Hpre]. by apply prefix_app_r.
        -- intros e He. destruct (Hin e He) as [[?| ->%list_elem_of_singleton]%elem_of_app|?].
           ++ by left.
           ++ right. simpl. apply list_elem_of_here.
           ++ right. by apply list_elem_of_further.
Qed.

(** X1. The output file of a run that ends holds exactly one line per
    entry of the final catalogue, in the order the entries were made; no
    key is there twice; every entry pairs a key with a stripped line of the
    input; and the number printed is at least the number of lines
    written and at most the number of diagram lines. *)
Theorem output_is_catalogue fuel in_file lines count :
  batch_catalog' fuel in_file = Ok (lines, count) →
  ∃ cat, lines = catalogue_lines poly_str cat ∧
    NoDup cat.*1 ∧
    (∀ e, e ∈ cat → e.2 ∈ strip <$> tl in_file) ∧
    Z.of_nat (length lines) ≤ count ≤ Z.of_nat (length (tl in_file)).
Proof.
  unfold batch_catalog. intros H. bind_inv H. injection H as <- <-.
  assert (Htidy : tidy poly_str (initial_bstate (poly:=poly)
                                   (size_of_header (hd ""%string in_file)))).
  { unfold tidy. simpl. repeat split; try done. apply NoDup_nil_2. }
  destruct (batch_loop_tidy _ _ _ _ _ E Htidy) as (Hbuf & Hdisk & Hnd & Hlen).
  destruct (batch_loop_entries _ _ _ _ _ E) as (_ & Hin & Hcnt).
  exists (knot_catalog x). simpl. rewrite Hbuf, Hdisk, app_nil_r.
  repeat split; try done.
  - intros e He. destruct (Hin e He) as [Hnil|?]; [|done].
    simpl in Hnil. by apply elem_of_nil in Hnil.
  - unfold catalogue_lines. rewrite length_fmap. lia.
  - simpl in Hcnt. lia.
Qed.

(** X2. Over any stretch of the run the catalogue only grows at its end
    and the knot counter never decreases: an entry once made is never
    replaced or removed. *)
Theorem catalogue_only_grows size fuel lines b b' :
  batch_loop homfly_polynomial knot_list poly_str size fuel lines b = Ok b' →
  knot_catalog b `prefix_of` knot_catalog b' ∧
  knot_count b ≤ knot_count b' ≤ knot_count b + Z.of_nat (length lines).
Proof.
  intros Hrun. destruct (batch_loop_entries _ _ _ _ _ Hrun) as (? & _ & ?). done.
Qed.

(** X3. The first line that is empty once stripped ends the run: the
    lines after it are never read. *)
Theorem blank_line_ends_the_run size fuel l rest : ∀ lines b,
  String.length (strip l) = 0%nat →
  batch_loop' size fuel (lines ++ l :: rest) b = batch_loop' size fuel lines b.
Proof.
  intros lines b Hl. revert b.
  induction lines as [|l0 lines IH]; intros b; simpl.
  - by rewrite Hl.
  - destruct (String.length (strip l0) =? 0)%nat; [done|].
    destruct (diagram' size fuel (strip l0) b); simpl; auto.
Qed.
End RunFacts.

(** ** What every visit does, whatever the state *)

Lemma visit_moved n size c st st' :
  shape n st → visit size c st = Ok st' →
  ∃ idx t m cn g sg cnt wr,
    py_index n (curr_tile st) = Some idx ∧
    mosaic st !! idx = Some t ∧ made_connections st !! idx = Some m ∧
    length cn = n ∧
    st' = moved size c idx t m cn g sg cnt wr st.
Proof.
  intros Hshape Hvis. pose proof Hshape as (Hm & Hs & Hc & Hmc).
  assert (∃ idx t m, py_index n (curr_tile st) = Some idx ∧
            mosaic st !! idx = Some t ∧ made_connections st !! idx = Some m)
    as (idx & t & m & Hidx & Ht & Hmade).
  { pose proof Hvis as H. unfold visit in H. bind_inv H. bind_inv H.
    apply py_get_Ok in E as (idx & Hidx & Ht).
    apply py_get_Ok in E0 as (idx' & Hidx' & Hmade).
    rewrite Hm in Hidx. rewrite Hmc in Hidx'.
    assert (idx' = idx) as -> by congruence. eauto 10. }
  rewrite (visit_prefix n _ _ _ idx t m) in Hvis by done.
  bind_inv Hvis. destruct x as [[[[cn g] sg] cnt] wr]. injection Hvis as <-.
  exists idx, t, m, cn, g, sg, cnt, wr. repeat split; try done.
  destruct (t =? 9).
  - bind_inv E. destruct x.
    + bind_inv E. bind_inv E. destruct (c.1 + x0.1 =? 3);
        bind_inv E; by injection E as <- _ _ _ _.
    + bind_inv E. injection E as <- _ _ _ _.
      by rewrite (py_set_length _ _ _ _ E1).
  - by injection E as <- _ _ _ _.
Qed.

Lemma loop_body_moved n size st st' :
  shape n st → loop_body size st = Ok st' →
  st' = st ∨
  ∃ c idx t m cn g sg cnt wr,
    select_conn st = Ok (Some c) ∧
    py_index n (curr_tile st) = Some idx ∧
    mosaic st !! idx = Some t ∧ made_connections st !! idx = Some m ∧
    length cn = n ∧
    st' = moved size c idx t m cn g sg cnt wr st.
Proof.
  intros Hshape Hbody.
  destruct (loop_body_cases _ _ _ Hbody) as [[_ ->]|(c & Hsel & Hvis)]; [by left|].
  right. exists c.
  destruct (visit_moved _ _ _ _ _ Hshape Hvis)
    as (idx & t & m & cn & g & sg & cnt & wr & ?). eauto 12.
Qed.

Lemma traversal_iterations size fuel : ∀ st st',
  traversal size fuel st = Ok st' →
  ∃ k, iterations size k st st' ∧ (k ≤ fuel)%nat ∧ loop_cond st' = Ok false.
Proof.
  induction fuel as [|fuel IH]; intros st st' Hrun.
  - simpl in Hrun. destruct (loop_cond st) as [[|]|e|] eqn:Hc;
      cbn [bind] in Hrun; try done.
    injection Hrun as <-. exists 0%nat. repeat split; [constructor | done..].
  - destruct (loop_cond st) as [[|]|e|] eqn:Hc.
    + rewrite traversal_step in Hrun by done. bind_inv Hrun.
      destruct (IH _ _ Hrun) as (k & Hk & Hle & Hend).
      exists (S k). repeat split; [by econstructor | lia | done].
    + rewrite traversal_done in Hrun by done. injection Hrun as <-.
      exists 0%nat. repeat split; [constructor | lia | done].
    + simpl in Hrun. by rewrite Hc in Hrun.
    + simpl in Hrun. by rewrite Hc in Hrun.
Qed.

Lemma iterations_invariant (P : tstate → Prop) size :
  (∀ st st', P st → loop_body size st = Ok st' → P st') →
  ∀ k st st', P st → iterations size k st st' → P st'.
Proof.
  intros Hstep k st st' HP Hiter.
  induction Hiter as [|k st st' st'' _ Hbody _ IH]; [done|].
  apply IH. by apply (Hstep st).
Qed.

(** ** The invariant on the tiles *)

Lemma select_conn_listed n st c idx t :
  shape n st → select_conn st = Ok (Some c) →
  py_index n (curr_tile st) = Some idx → mosaic st !! idx = Some t →
  0 ≤ t ≤ 9 → listed t c ∧ t ≠ 0.
Proof.
  intros (Hm & _) Hsel Hidx Ht Hrange. unfold select_conn in Hsel.
  rewrite (py_get_at _ _ idx t) in Hsel by (by rewrite ?Hm). cbn [bind] in Hsel.
  bind_inv Hsel. injection Hsel as Hfind.
  apply find_some in Hfind as [Hin _].
  apply py_get_Ok in E as (j & Hj & Hrow).
  rewrite py_index_nonneg in Hj by (simpl; lia). injection Hj as <-.
  split.
  - exists x. split; [done | by apply list_elem_of_In].
  - intros ->. simpl in Hrow. injection Hrow as <-. done.
Qed.

Lemma loop_body_walk_inv n size st st' :
  walk_inv n st → loop_body size st = Ok st' → walk_inv n st'.
Proof.
  intros [Hshape Hinv] Hbody.
  destruct (loop_body_moved n _ _ _ Hshape Hbody)
    as [->|(c & idx & t & m & cn & g & sg & cnt & wr & Hsel & Hidx & Ht & Hm & Hcn & ->)];
    [done|].
  destruct (Hinv idx t m Ht Hm) as (Hrange & Hlisted & Hsat).
  destruct (select_conn_listed n st c idx t Hshape Hsel Hidx Ht Hrange)
    as [Hc Hne].
  pose proof (py_index_lt _ _ _ Hidx) as Hlt.
  pose proof Hshape as (Hlm & Hls & Hlc & Hlmc).
  split; [by apply moved_shape|].
  intros idx' t' m' Ht' Hm'. simpl in *.
  destruct (decide (idx = idx')) as [<-|Hneq].
  - rewrite list_lookup_insert_eq in Hm' by lia. injection Hm' as <-.
    assert (t' = t) as -> by congruence.
    split; [done|]. split; [apply Forall_app; split; [done | by apply Forall_singleton]|].
    unfold saturate. rewrite length_app. simpl.
    unfold passes_needed in *.
    destruct (Z.eqb_spec t 0) as [|_]; [done|].
    destruct (Z.ltb_spec t 7);
      destruct (Z.eqb_spec (Z.of_nat (length m + 1)) 1);
      destruct (Z.eqb_spec (Z.of_nat (length m + 1)) 2); simpl;
      rewrite ?list_lookup_insert_eq by lia; rewrite ?Hsat; f_equal;
      repeat case_bool_decide; try done; lia.
  - rewrite list_lookup_insert_ne in Hm' by done.
    rewrite saturate_lookup_ne by done. by apply Hinv.
Qed.

Lemma start_diagram_walk_inv n s st st1 :
  fresh_state n st → diagram_line n s = true →
  start_diagram s st = Ok (Placed st1) → walk_inv n st1.
Proof.
  intros Hfresh Hline Hstart.
  destruct (start_diagram_inv _ _ _ _ Hfresh Hline Hstart)
    as ((Hshape & _) & Hmos & Hsat & _).
  destruct Hfresh as (Hshape0 & _ & _ & Hmade & _).
  destruct (start_diagram_frame n _ _ _ Hshape0 Hstart)
    as (_ & _ & _ & _ & Hmade1 & _).
  split; [done|]. intros idx t m Ht Hm.
  rewrite Hmade1, Hmade in Hm. apply lookup_replicate in Hm as [-> _].
  rewrite Hmos in Ht. split; [by eapply tiles_of_range|]. split; [done|].
  rewrite Hsat, list_lookup_fmap, Ht. simpl. f_equal.
  unfold passes_needed. destruct (Z.eqb_spec t 0).
  - by rewrite bool_decide_eq_true_2 by (simpl; lia).
  - destruct (t <? 7); by rewrite bool_decide_eq_false_2 by (simpl; lia).
Qed.

(** The three forms of a step in a state that satisfies the invariant on
    the crossings. *)
Lemma loop_body_forms n size st st' :
  crossing_inv n st → loop_body size st = Ok st' →
  st' = st ∨
  (∃ c idx t m, mosaic st !! idx = Some t ∧ t ≠ 9 ∧
     made_connections st !! idx = Some m ∧
     st' = moved size c idx t m (crossing_number st) (gauss_code st)
             (crossing_signs st) (crossing_count st) (writhe st) st) ∨
  (∃ c idx, mosaic st !! idx = Some 9 ∧
     made_connections st !! idx = Some [] ∧
     st' = moved size c idx 9 []
             (<[idx := crossing_count st + 1]> (crossing_number st))
             (gauss_code st ++ [signed (fst c) (crossing_count st + 1)])
             (crossing_signs st ++ [0]) (crossing_count st + 1) (writhe st) st) ∨
  (∃ c idx c0 m k, mosaic st !! idx = Some 9 ∧
     made_connections st !! idx = Some (c0 :: m) ∧
     crossing_number st !! idx = Some k ∧ 1 ≤ k ≤ crossing_count st ∧
     st' = moved size c idx 9 (c0 :: m) (crossing_number st)
             (gauss_code st ++ [signed (fst c) k])
             (<[Z.to_nat (k - 1) := if fst c + fst c0 =? 3 then 1 else -1]>
                (crossing_signs st))
             (crossing_count st)
             (if fst c + fst c0 =? 3 then writhe st + 1 else writhe st - 1) st).
Proof.
  intros Hinv Hbody.
  destruct (loop_body_cases _ _ _ Hbody) as [[_ ->]|(c & Hsel & Hvis)]; [by left|].
  right. pose proof Hinv as (Hshape & _).
  destruct (current_tile n st c Hshape Hsel)
    as (idx & t & m & s & k & Hidx & Ht & Hm & Hs & Hk).
  destruct (decide (t = 9)) as [->|Hne].
  - right. destruct m as [|c0 m].
    + left. rewrite (visit_first_inv n _ _ _ idx) in Hvis by done.
      injection Hvis as <-. by exists c, idx.
    + right. destruct (visit_again_inv n size c st idx c0 m k) as [Hr Heq]; try done.
      rewrite Heq in Hvis. injection Hvis as <-. by exists c, idx, c0, m, k.
  - left. rewrite (visit_plain n _ _ _ idx t m) in Hvis by done.
    injection Hvis as <-. by exists c, idx, t, m.
Qed.

Lemma total_app l1 l2 : total (l1 ++ l2) = total l1 + total l2.
Proof. unfold total. induction l1 as [|x l1 IH]; simpl; lia. Qed.

Lemma total_insert l j x y :
  l !! j = Some x → total (<[j := y]> l) = total l - x + y.
Proof.
  revert j. induction l as [|z l IH]; intros [|j] Hj; simpl in *; try done.
  - injection Hj as ->. unfold total. simpl. lia.
  - unfold total in *. simpl. rewrite (IH j Hj). lia.
Qed.

Lemma loop_body_sign_inv n size st st' :
  crossing_inv n st → sign_inv st → loop_body size st = Ok st' → sign_inv st'.
Proof.
  intros Hinv [Hrange Hsum] Hbody.
  pose proof Hinv as (Hshape & Hcount & _ & _ & _ & Hrec & Huniq & _).
  pose proof Hshape as (Hlm & Hls & Hlc & Hlmc).
  destruct (loop_body_forms _ _ _ _ Hinv Hbody)
    as [->|[(c & idx & t & m & Ht & Hne & Hm & ->)
          |[(c & idx & H9 & Hm & ->)
           |(c & idx & c0 & m & k & H9 & Hm & Hk & Hkr & ->)]]]; [done| | |].
  - (* a tile that is no crossing *)
    split; [done|]. simpl. intros Hle.
    assert (Hother : ∀ idx', mosaic st !! idx' = Some 9 → idx ≠ idx')
      by (intros idx' ? ->; congruence).
    destruct Hsum as [Hw Hzero].
    { intros idx' m' H9 Hm'. apply (Hle idx' m' H9).
      by rewrite list_lookup_insert_ne by auto. }
    split; [done|]. intros idx' c' k' H9 Hm' Hk'.
    rewrite list_lookup_insert_ne in Hm' by auto. by eapply Hzero.
  - (* first pass of a crossing *)
    assert (Hlt : (idx < n)%nat) by (rewrite <- Hlm; by eapply lookup_lt_Some).
    split; [simpl; apply Forall_app; split; [done | apply Forall_singleton; auto]|].
    simpl. intros Hle.
    destruct Hsum as [Hw Hzero].
    { intros idx' m' H9' Hm'. destruct (decide (idx = idx')) as [<-|Hneq].
      - assert (m' = []) as -> by congruence. simpl. lia.
      - apply (Hle idx' m' H9'). by rewrite list_lookup_insert_ne. }
    split; [rewrite total_app; unfold total at 2; simpl; lia|].
    intros idx' c' k' H9' Hm' Hk'.
    destruct (decide (idx = idx')) as [<-|Hneq].
    + rewrite list_lookup_insert_eq in Hk' by lia. injection Hk' as <-.
      rewrite lookup_app_r by lia.
      replace (Z.to_nat (crossing_count st + 1 - 1) - length (crossing_signs st))%nat
        with 0%nat by lia. done.
    + rewrite list_lookup_insert_ne in Hm' by done.
      rewrite list_lookup_insert_ne in Hk' by done.
      destruct (Hrec idx' [c'] H9' Hm') as (k0 & Hk0 & Hr0 & _); [done|].
      assert (k0 = k') as -> by congruence.
      rewrite lookup_app_l by lia. by eapply Hzero.
  - (* a later pass of a crossing *)
    assert (Hlt : (idx < n)%nat) by (rewrite <- Hlm; by eapply lookup_lt_Some).
    split.
    { simpl. apply Forall_insert; [done|]. destruct (_ =? 3); auto. }
    simpl. intros Hle.
    assert (m = []) as ->.
    { specialize (Hle idx (c0 :: m ++ [c]) H9).
      rewrite list_lookup_insert_eq in Hle by lia. specialize (Hle eq_refl).
      simpl in Hle. rewrite length_app in Hle. simpl in Hle.
      destruct m; [done | simpl in Hle; lia]. }
    destruct Hsum as [Hw Hzero].
    { intros idx' m' H9' Hm'. destruct (decide (idx = idx')) as [<-|Hneq].
      - assert (m' = [c0]) as -> by congruence. simpl. lia.
      - apply (Hle idx' m' H9'). by rewrite list_lookup_insert_ne. }
    pose proof (Hzero idx c0 k H9 Hm Hk) as Hk0.
    split.
    + rewrite (total_insert _ _ 0) by done. destruct (_ =? 3); lia.
    + intros idx' c' k' H9' Hm' Hk'.
      destruct (decide (idx = idx')) as [<-|Hneq].
      * rewrite list_lookup_insert_eq in Hm' by lia. done.
      * rewrite list_lookup_insert_ne in Hm' by done.
        assert (k' ≠ k).
        { intros ->. apply Hneq. apply (Huniq idx idx' k).
          - by exists [c0].
          - by exists [c']. }
        destruct (Hrec idx' [c'] H9' Hm') as (k0 & Hk0' & Hr0 & _); [done|].
        assert (k0 = k') as -> by congruence.
        rewrite list_lookup_insert_ne by lia. by eapply Hzero.
Qed.

(** ** Tiles, flags and passes *)

Lemma loop_body_frame size st st' :
  loop_body size st = Ok st' →
  mosaic st' = mosaic st ∧ starting_tile st' = starting_tile st.
Proof.
  intros Hbody.
  destruct (loop_body_cases _ _ _ Hbody) as [[_ ->]|(c & _ & Hvis)]; [done|].
  by apply visit_frame in Hvis as (? & ? & _).
Qed.

Lemma iterations_frame size k st st' :
  iterations size k st st' →
  mosaic st' = mosaic st ∧ starting_tile st' = starting_tile st.
Proof.
  induction 1 as [|k st st' st'' _ Hbody _ [IH1 IH2]]; [done|].
  apply loop_body_frame in Hbody as [? ?]. split; congruence.
Qed.

Lemma iterations_walk_inv n size k st st' :
  walk_inv n st → iterations size k st st' → walk_inv n st'.
Proof.
  apply (iterations_invariant (walk_inv n) size).
  intros x x'. apply loop_body_walk_inv.
Qed.

Lemma listed_nonempty t c : listed t c → 0 ≤ t → t ≠ 0.
Proof.
  intros (row & Hrow & Hc) Ht ->. simpl in Hrow. injection Hrow as <-.
  by apply elem_of_nil in Hc.
Qed.

(** X4. In every state that the traversal of a line of n digits goes
    through, the tiles are those of the line, the connections recorded at
    a tile are connections that the table lists for its type (none at all
    for an empty tile), and a tile is marked saturated exactly when it has
    been passed as often as its type needs: never for type 0, once for the
    types 1 to 6, twice for the types 7 to 9. *)
Theorem flags_count_passes n size s st0 st1 steps st :
  fresh_state n st0 → diagram_line n s = true →
  start_diagram s st0 = Ok (Placed st1) →
  iterations size steps st1 st →
  mosaic st = tiles_of s ∧
  ∀ idx t m, tiles_of s !! idx = Some t →
             made_connections st !! idx = Some m →
             Forall (listed t) m ∧ (t = 0 → m = []) ∧
             (satisfied st !! idx = Some true
              ↔ (passes_needed t ≤ length m)%nat).
Proof.
  intros Hfresh Hline Hstart Hiter.
  pose proof (start_diagram_walk_inv _ _ _ _ Hfresh Hline Hstart) as Hinv.
  destruct (start_diagram_inv _ _ _ _ Hfresh Hline Hstart) as (_ & Hmos & _).
  destruct (iterations_frame _ _ _ _ Hiter) as [Hmos' _].
  destruct (iterations_walk_inv _ _ _ _ _ Hinv Hiter) as [_ Hw].
  rewrite Hmos', Hmos. split; [done|].
  intros idx t m Ht Hm.
  rewrite <- Hmos, <- Hmos' in Ht.
  destruct (Hw idx t m Ht Hm) as (Hrange & Hlisted & Hsat).
  split; [done|]. split.
  - intros ->. destruct m as [|c m]; [done|].
    apply Forall_cons in Hlisted as [Hc _]. by apply listed_nonempty in Hc.
  - rewrite Hsat. split.
    + intros [= Hb]. by apply bool_decide_eq_true in Hb.
    + intros Hb. f_equal. by apply bool_decide_eq_true.
Qed.

Lemma flags_count_passes_witness :
  ∃ st1 st,
    start_diagram "002129434" (initial_tstate 3) = Ok (Placed st1) ∧
    iterations 3 1 st1 st ∧
    mosaic st = tiles_of "002129434".
Proof.
  eexists. eexists. split; [vm_compute; reflexivity|].
  assert (Hiter : iterations 3 1
    {| mosaic := [0; 0; 2; 1; 2; 9; 4; 3; 4];
       satisfied := [true; true; false; false; false; false; false; false; false];
       crossing_number := [0; 0; 0; 0; 0; 0; 0; 0; 0];
       gauss_code := []; crossing_signs := [];
       made_connections := [[]; []; []; []; []; []; []; []; []];
       crossing_count := 0; i := 9; num := 4; writhe := 0;
       up_cusps := 0; down_cusps := 0; curr_tile := 2;
       starting_tile := Some 2; face := 0 |}
    {| mosaic := [0; 0; 2; 1; 2; 9; 4; 3; 4];
       satisfied := [true; true; true; false; false; false; false; false; false];
       crossing_number := [0; 0; 0; 0; 0; 0; 0; 0; 0];
       gauss_code := []; crossing_signs := [];
       made_connections := [[]; []; [(0, 3)]; []; []; []; []; []; []];
       crossing_count := 0; i := 9; num := 4; writhe := 0;
       up_cusps := 0; down_cusps := 1; curr_tile := 5;
       starting_tile := Some 2; face := 1 |}).
  { eapply iterations_S; [vm_compute; reflexivity | vm_compute; reflexivity |].
    apply iterations_O. }
  split; [exact Hiter|].
  eapply (flags_count_passes 9 3 "002129434" (initial_tstate 3) _ 1 _).
  - repeat split; reflexivity.
  - vm_compute. reflexivity.
  - vm_compute. reflexivity.
  - exact Hiter.
Defined.

Lemma traverse_reaches size fuel s st st2 :
  traverse_diagram size fuel s st = Ok (Placed st2) →
  ∃ st1 k, start_diagram s st = Ok (Placed st1) ∧
           iterations size k st1 st2 ∧ loop_cond st2 = Ok false.
Proof.
  intros (st1 & Hstart & Hrun)%traverse_diagram_Placed.
  destruct (traversal_iterations _ _ _ _ Hrun) as (k & Hk & _ & Hend).
  by exists st1, k.
Qed.

(** X5. When the traversal loop of a line of n digits is left, the walk
    stands on the first non-empty tile again and that tile is saturated;
    and when moreover every tile is saturated (the diagram is counted as a
    knot), every tile of type 1 to 6 has been passed at least once and
    every tile of type 7 to 9 at least twice. *)
Theorem knot_passes_every_tile n size fuel s st st2 :
  fresh_state n st → diagram_line n s = true →
  traverse_diagram size fuel s st = Ok (Placed st2) →
  (∃ p, first_nonzero (tiles_of s) = Some p ∧
        curr_tile st2 = Z.of_nat p ∧ satisfied st2 !! p = Some true) ∧
  (saturated st2 →
   ∀ idx t, tiles_of s !! idx = Some t →
     ∃ m, made_connections st2 !! idx = Some m ∧ Forall (listed t) m ∧
          (1 ≤ t ≤ 6 → (1 ≤ length m)%nat) ∧
          (7 ≤ t ≤ 9 → (2 ≤ length m)%nat)).
Proof.
  intros Hfresh Hline Hrun.
  destruct (traverse_reaches _ _ _ _ _ Hrun) as (st1 & k & Hstart & Hiter & Hend).
  pose proof (start_diagram_walk_inv _ _ _ _ Hfresh Hline Hstart) as Hinv.
  destruct (start_diagram_inv _ _ _ _ Hfresh Hline Hstart)
    as (_ & Hmos & _ & Hst & Hcur).
  destruct (iterations_frame _ _ _ _ Hiter) as [Hmos' Hst'].
  destruct (iterations_walk_inv _ _ _ _ _ Hinv Hiter) as [Hshape Hw].
  split.
  - unfold loop_cond in Hend. rewrite Hst', Hst in Hend.
    destruct (first_nonzero (tiles_of s)) as [p|] eqn:Hp.
    2: { rewrite Hst in Hcur. done. }
    exists p. split; [done|]. simpl in Hend.
    destruct (Z.eqb_spec (curr_tile st2) (Z.of_nat p)) as [Heq|]; [|done].
    split; [done|]. bind_inv Hend. injection Hend as Hb.
    apply py_get_Ok in E as (idx & Hidx & Hx).
    destruct (py_index_spec (length (satisfied st2)) (curr_tile st2))
      as [[? Hi]|[[? Hi]|[? Hi]]]; rewrite Hi in Hidx; try lia; try done.
    injection Hidx as <-. rewrite Heq, Nat2Z.id in Hx.
    rewrite Hx. f_equal. by destruct x.
  - intros Hsat idx t Ht. rewrite <- Hmos, <- Hmos' in Ht.
    destruct Hshape as (Hlm & Hls & _ & Hlmc).
    pose proof (lookup_lt_Some _ _ _ Ht) as Hlt.
    destruct (lookup_lt_is_Some_2 (made_connections st2) idx) as [m Hm]; [lia|].
    destruct (Hw idx t m Ht Hm) as (Hrange & Hlisted & Hflag).
    apply Hsat in Hflag. apply bool_decide_eq_true in Hflag.
    exists m. split; [done|]. split; [done|].
    unfold passes_needed in Hflag.
    split; intros Hr.
    + destruct (Z.eqb_spec t 0); [lia|]. destruct (Z.ltb_spec t 7); lia.
    + destruct (Z.eqb_spec t 0); [lia|]. destruct (Z.ltb_spec t 7); lia.
Qed.

Lemma knot_passes_every_tile_witness :
  ∃ p, first_nonzero (tiles_of "002129434") = Some p ∧
    ∃ st2, traverse_diagram 3 100 "002129434" (initial_tstate 3) = Ok (Placed st2) ∧
           curr_tile st2 = Z.of_nat p ∧ satisfied st2 !! p = Some true.
Proof.
  assert (∃ st2, traverse_diagram 3 100 "002129434" (initial_tstate 3)
                 = Ok (Placed st2)) as [st2 Hrun]
    by (eexists; vm_compute; reflexivity).
  destruct (knot_passes_every_tile 9 3 100 "002129434" (initial_tstate 3) st2)
    as [(p & Hp & Hc & Hs) _].
  - repeat split; reflexivity.
  - vm_compute. reflexivity.
  - exact Hrun.
  - exists p. split; [exact Hp|]. exists st2. split; [exact Hrun|].
    split; [exact Hc | exact Hs].
Defined.

(** ** The Gauss code of a successful traversal *)

Lemma occurrences_split (c : Z) (g : list Z) :
  0 ≤ c →
  length (filter (λ x : Z, (1 ≤ Z.abs x ≤ c + 1)%Z) g)
  = (length (filter (λ x : Z, (1 ≤ Z.abs x ≤ c)%Z) g)
     + length (occurrences (c + 1) g))%nat.
Proof.
  intros Hc. unfold occurrences. induction g as [|x g IH]; [done|].
  rewrite !filter_cons. repeat case_decide; simpl; lia.
Qed.

Lemma two_entries_each (c : nat) (g : list Z) :
  (∀ k, 1 ≤ k ≤ Z.of_nat c → (2 ≤ length (occurrences k g))%nat) →
  (2 * c ≤ length (filter (λ x : Z, (1 ≤ Z.abs x ≤ Z.of_nat c)%Z) g))%nat.
Proof.
  induction c as [|c IH]; intros Hall; [lia|].
  replace (Z.of_nat (S c)) with (Z.of_nat c + 1) by lia.
  rewrite occurrences_split by lia.
  assert (2 * c ≤ length (filter (λ x : Z, (1 ≤ Z.abs x ≤ Z.of_nat c)%Z) g))%nat.
  { apply IH. intros k Hk. apply Hall. lia. }
  assert (2 ≤ length (occurrences (Z.of_nat c + 1) g))%nat by (apply Hall; lia).
  lia.
Qed.

Lemma saturated_crossings n st :
  crossing_inv n st → saturated st →
  ∀ k, 1 ≤ k ≤ crossing_count st →
    (2 ≤ length (occurrences k (gauss_code st)))%nat ∧ resolved st k.
Proof.
  intros (_ & _ & _ & _ & _ & Hrec & _ & Hcov) Hsat k Hk.
  destruct (Hcov k Hk) as (idx & m & H9 & Hm & Hne & Hcn).
  destruct (Hrec idx m H9 Hm Hne) as (k' & Hk' & _ & Hocc & Hs & Hres).
  assert (k' = k) as -> by congruence.
  apply Hsat in Hs. apply bool_decide_eq_true in Hs.
  split; [|by apply Hres].
  rewrite Hocc. unfold passes. by rewrite length_fmap.
Qed.

Lemma traverse_inv n size fuel s st st2 :
  fresh_state n st → diagram_line n s = true →
  traverse_diagram size fuel s st = Ok (Placed st2) →
  crossing_inv n st2.
Proof.
  intros Hfresh Hline (st1 & Hstart & Hrun)%traverse_diagram_Placed.
  destruct (start_diagram_inv _ _ _ _ Hfresh Hline Hstart) as (Hinv & _).
  by apply (traversal_inv n size fuel st1).
Qed.

(** X6. After a successful traversal of a line of n digits, the sign list
    has one entry for each crossing counted, each of them +1 or -1; every
    entry of the Gauss code is +k or -k for a crossing k between 1 and the
    crossing count; and every such crossing k has at least two entries in
    the Gauss code, so that the code is at least twice as long as the sign
    list.  (A crossing may have more than two entries.) *)
Theorem gauss_code_names_every_crossing n size fuel s st st2 :
  fresh_state n st → diagram_line n s = true →
  traverse_diagram size fuel s st = Ok (Placed st2) →
  saturated st2 →
  crossing_count st2 = Z.of_nat (length (crossing_signs st2)) ∧
  Forall (λ x, x = 1 ∨ x = -1) (crossing_signs st2) ∧
  Forall (λ x, 1 ≤ Z.abs x ≤ crossing_count st2) (gauss_code st2) ∧
  (∀ k, 1 ≤ k ≤ crossing_count st2 →
        (2 ≤ length (filter (λ x, Z.abs x = k) (gauss_code st2)))%nat) ∧
  2 * crossing_count st2 ≤ Z.of_nat (length (gauss_code st2)).
Proof.
  intros Hfresh Hline Hrun Hsat.
  pose proof (traverse_inv _ _ _ _ _ _ Hfresh Hline Hrun) as Hinv.
  pose proof (saturated_crossings _ _ Hinv Hsat) as Hcross.
  destruct Hinv as (_ & Hcount & Hg & _).
  split; [done|]. split; [|split; [done|split]].
  - apply Forall_lookup. intros j x Hx.
    pose proof (lookup_lt_Some _ _ _ Hx) as Hlt.
    destruct (Hcross (Z.of_nat j + 1)) as [_ Hres]; [lia|].
    unfold resolved in Hres.
    replace (Z.to_nat (Z.of_nat j + 1 - 1)) with j in Hres by lia.
    rewrite Hx in Hres. destruct Hres as [[= ->]|[= ->]]; auto.
  - intros k Hk. by destruct (Hcross k Hk) as [Htwo _].
  - pose proof (two_entries_each (length (crossing_signs st2)) (gauss_code st2))
      as Htwo.
    rewrite <- Hcount in Htwo. specialize (Htwo (λ k Hk, proj1 (Hcross k Hk))).
    pose proof (length_filter
      (λ x : Z, 1 ≤ Z.abs x ≤ crossing_count st2) (gauss_code st2)).
    lia.
Qed.

Lemma gauss_code_names_every_crossing_witness :
  ∃ st2, traverse_diagram 3 100 "002129434" (initial_tstate 3) = Ok (Placed st2) ∧
    crossing_count st2 = Z.of_nat (length (crossing_signs st2)) ∧
    Forall (λ x, x = 1 ∨ x = -1) (crossing_signs st2) ∧
    Forall (λ x, 1 ≤ Z.abs x ≤ crossing_count st2) (gauss_code st2) ∧
    (∀ k, 1 ≤ k ≤ crossing_count st2 →
          (2 ≤ length (filter (λ x, Z.abs x = k) (gauss_code st2)))%nat) ∧
    2 * crossing_count st2 ≤ Z.of_nat (length (gauss_code st2)).
Proof.
  eexists. split; [vm_compute; reflexivity|].
  eapply (gauss_code_names_every_crossing 9 3 100 "002129434"
            (initial_tstate 3)).
  - repeat split; reflexivity.
  - vm_compute. reflexivity.
  - vm_compute. reflexivity.
  - apply all_satisfied_saturated. reflexivity.
Defined.

(** X7. The name 0_1 is given without a HOMFLY computation only to
    diagrams with at most one crossing: after a successful traversal of a
    line of n digits, a Gauss code of fewer than three entries means a
    crossing count of 0 or 1, and a crossing count of 0 means an empty
    Gauss code. *)
Theorem shortcut_below_two_crossings n size fuel s st st2 :
  fresh_state n st → diagram_line n s = true →
  traverse_diagram size fuel s st = Ok (Placed st2) →
  saturated st2 →
  ((length (gauss_code st2) < 3)%nat → 0 ≤ crossing_count st2 ≤ 1) ∧
  (crossing_count st2 = 0 → gauss_code st2 = []).
Proof.
  intros Hfresh Hline Hrun Hsat.
  pose proof (traverse_inv _ _ _ _ _ _ Hfresh Hline Hrun) as Hinv.
  pose proof (saturated_crossings _ _ Hinv Hsat) as Hcross.
  destruct Hinv as (_ & Hcount & Hg & _). split.
  - intros Hlen.
    pose proof (two_entries_each (length (crossing_signs st2)) (gauss_code st2))
      as Htwo.
    rewrite <- Hcount in Htwo. specialize (Htwo (λ k Hk, proj1 (Hcross k Hk))).
    pose proof (length_filter
      (λ x : Z, 1 ≤ Z.abs x ≤ crossing_count st2) (gauss_code st2)).
    lia.
  - intros Hzero. destruct (gauss_code st2) as [|x g]; [done|].
    apply Forall_cons in Hg as [Hx _]. lia.
Qed.

Lemma shortcut_below_two_crossings_witness :
  ∃ st2, traverse_diagram 3 100 "002129434" (initial_tstate 3) = Ok (Placed st2) ∧
    ((length (gauss_code st2) < 3)%nat → 0 ≤ crossing_count st2 ≤ 1) ∧
    (crossing_count st2 = 0 → gauss_code st2 = []).
Proof.
  eexists. split; [vm_compute; reflexivity|].
  eapply (shortcut_below_two_crossings 9 3 100 "002129434" (initial_tstate 3)).
  - repeat split; reflexivity.
  - vm_compute. reflexivity.
  - vm_compute. reflexivity.
  - apply all_satisfied_saturated. reflexivity.
Defined.

(** ** The writhe *)

Lemma start_diagram_sign_inv n s st st1 :
  fresh_state n st → start_diagram s st = Ok (Placed st1) → sign_inv st1.
Proof.
  intros (Hshape & _ & Hsg & Hmade & _ & _ & Hw & _) Hstart.
  destruct (start_diagram_frame n _ _ _ Hshape Hstart)
    as (_ & _ & _ & Hsg1 & Hmade1 & _ & Hw1 & _).
  split; [rewrite Hsg1, Hsg; constructor|]. intros _.
  split; [by rewrite Hw1, Hw, Hsg1, Hsg|].
  intros idx c k _ Hm _. rewrite Hmade1, Hmade in Hm.
  by apply lookup_replicate in Hm as [? _].
Qed.

Lemma iterations_sign_inv n size k st st' :
  crossing_inv n st → sign_inv st → iterations size k st st' → sign_inv st'.
Proof.
  intros Hinv Hsign Hiter.
  assert (crossing_inv n st' ∧ sign_inv st') as [_ H]; [|done].
  apply (iterations_invariant (λ x, crossing_inv n x ∧ sign_inv x) size)
    with k st; try done.
  intros x x' [Hx1 Hx2] Hbody. split.
  - by apply (loop_body_inv n size x).
  - by apply (loop_body_sign_inv n size x).
Qed.

(** X8. When the traversal loop of a line of n digits is left and no
    crossing tile has been passed more than twice, the writhe is the sum
    of the signs recorded for the crossings; and every recorded sign is 0,
    +1 or -1 in any case. *)
Theorem writhe_is_sum_of_signs n size fuel s st st2 :
  fresh_state n st → diagram_line n s = true →
  traverse_diagram size fuel s st = Ok (Placed st2) →
  Forall (λ x, x = 0 ∨ x = 1 ∨ x = -1) (crossing_signs st2) ∧
  ((∀ idx m, tiles_of s !! idx = Some 9 →
             made_connections st2 !! idx = Some m → (length m ≤ 2)%nat) →
   writhe st2 = total (crossing_signs st2)).
Proof.
  intros Hfresh Hline Hrun.
  destruct (traverse_reaches _ _ _ _ _ Hrun) as (st1 & k & Hstart & Hiter & _).
  destruct (start_diagram_inv _ _ _ _ Hfresh Hline Hstart) as (Hinv & Hmos & _).
  pose proof (start_diagram_sign_inv _ _ _ _ Hfresh Hstart) as Hsign.
  destruct (iterations_frame _ _ _ _ Hiter) as [Hmos' _].
  destruct (iterations_sign_inv _ _ _ _ _ Hinv Hsign Hiter) as [Hrange Hsum].
  split; [done|]. intros Hle. apply Hsum.
  intros idx m H9. apply Hle. by rewrite <- Hmos, <- Hmos'.
Qed.

Lemma writhe_is_sum_of_signs_witness :
  ∃ st2, traverse_diagram 3 100 "002129434" (initial_tstate 3) = Ok (Placed st2) ∧
    Forall (λ x, x = 0 ∨ x = 1 ∨ x = -1) (crossing_signs st2) ∧
    ((∀ idx m, tiles_of "002129434" !! idx = Some 9 →
               made_connections st2 !! idx = Some m → (length m ≤ 2)%nat) →
     writhe st2 = total (crossing_signs st2)).
Proof.
  eexists. split; [vm_compute; reflexivity|].
  eapply (writhe_is_sum_of_signs 9 3 100 "002129434" (initial_tstate 3)).
  - repeat split; reflexivity.
  - vm_compute. reflexivity.
  - vm_compute. reflexivity.
Defined.

(** ** Lines that are too short, too long, or no digits *)

Lemma parse_chars_app cs1 cs2 st :
  parse_chars (cs1 ++ cs2) st = bind (parse_chars cs1 st) (parse_chars cs2).
Proof.
  revert st. induction cs1 as [|c cs1 IH]; intros st; simpl; [done|].
  destruct (parse_char c st); simpl; [apply IH | done | done].
Qed.

(** X9. A line of fewer than n digits read in a fresh state raises
    nothing: the digits are stored over the first tiles, and the tiles and
    saturation flags behind them are still those of the diagram read
    before. *)
Theorem short_line_keeps_old_tiles n s st :
  fresh_state n st →
  forallb is_digit (list_ascii_of_string s) = true →
  (String.length s ≤ n)%nat →
  ∃ st', parse_line s st = Ok st' ∧
    mosaic st' = tiles_of s ++ drop (String.length s) (mosaic st) ∧
    satisfied st' = ((λ d, d =? 0) <$> tiles_of s)
                    ++ drop (String.length s) (satisfied st) ∧
    i st' = Z.of_nat (String.length s) ∧
    starting_tile st' = Z.of_nat <$> first_nonzero (tiles_of s).
Proof.
  intros (Hshape & _ & _ & _ & _ & Hi & _ & _ & _ & Hstart) Hd Hlen.
  rewrite <- length_list_ascii_of_string in *.
  exists (parsed (tiles_of s) st). split.
  - unfold parse_line, tiles_of. apply (parse_chars_digits n); try done; lia.
  - unfold parsed, tiles_of. simpl. rewrite Hi, Hstart, length_fmap. simpl.
    repeat split.
Qed.

Lemma short_line_keeps_old_tiles_witness :
  ∃ st', parse_line "12" (initial_tstate 2) = Ok st' ∧
    mosaic st' = tiles_of "12" ++ drop (String.length "12") (mosaic (initial_tstate 2)) ∧
    satisfied st' = ((λ d, d =? 0) <$> tiles_of "12")
                    ++ drop (String.length "12") (satisfied (initial_tstate 2)) ∧
    i st' = Z.of_nat (String.length "12") ∧
    starting_tile st' = Z.of_nat <$> first_nonzero (tiles_of "12").
Proof.
  apply (short_line_keeps_old_tiles 4).
  - repeat split; reflexivity.
  - reflexivity.
  - simpl. lia.
Defined.

(** X10. Which exception a malformed line raises in a fresh state: when
    the characters before the first one that is no digit are at most n,
    it is ValueError, raised by that character; when the first n
    characters are digits and one more digit follows, it is IndexError,
    raised by that digit. *)
Theorem parse_error_kind n s st pre c rest :
  fresh_state n st →
  list_ascii_of_string s = pre ++ c :: rest →
  forallb is_digit pre = true →
  (length pre ≤ n)%nat →
  (is_digit c = false → parse_line s st = Raise ValueError) ∧
  (is_digit c = true → length pre = n → parse_line s st = Raise IndexError).
Proof.
  intros (Hshape & _ & _ & _ & _ & Hi & _) Hs Hd Hlen.
  unfold parse_line. rewrite Hs, parse_chars_app.
  assert (Hpre : parse_chars pre st = Ok (parsed (digit_value <$> pre) st))
    by (apply (parse_chars_digits n); done || lia).
  rewrite Hpre. cbn [bind parse_chars].
  apply (parse_chars_frame n) in Hpre as [(Hm' & _) _]; [|done].
  assert (Hi' : i (parsed (digit_value <$> pre) st) = Z.of_nat (length pre)).
  { simpl. rewrite Hi, length_fmap. lia. }
  split.
  - intros Hc. unfold parse_char, int_of_char. by rewrite Hc.
  - intros Hc Hn. unfold parse_char, int_of_char. rewrite Hc. cbn [bind].
    unfold py_set. rewrite Hm', Hi', Hn.
    destruct (py_index_spec n (Z.of_nat n)) as [[? H]|[[? H]|[? H]]];
      [lia | lia | by rewrite H].
Qed.

Lemma parse_error_kind_witness :
  (is_digit "a" = false → parse_line "02a4" (initial_tstate 2) = Raise ValueError) ∧
  (is_digit "a" = true → length ["0"; "2"]%char = 4%nat →
   parse_line "02a4" (initial_tstate 2) = Raise IndexError).
Proof.
  apply (parse_error_kind 4 "02a4" (initial_tstate 2) ["0"; "2"]%char "a"%char
           ["4"%char]).
  - repeat split; reflexivity.
  - reflexivity.
  - reflexivity.
  - simpl. lia.
Defined.

Lemma first_nonzero_None ds :
  (∀ t, t ∈ ds → t = 0) → first_nonzero ds = None.
Proof.
  induction ds as [|d ds IH]; intros Hall; [done|]. simpl.
  rewrite (Hall d) by apply list_elem_of_here. simpl.
  rewrite IH; [done|]. intros t Ht. apply Hall. by apply list_elem_of_further.
Qed.

Section RunEdges.
Context {poly : Type} `{EqDecision poly}.
Variable homfly_polynomial : list Z → list Z → result poly.
Variable knot_list : poly → option string.
Variable poly_str : poly → string.

Local Abbreviation diagram' := (diagram homfly_polynomial knot_list poly_str).
Local Abbreviation batch_catalog' :=
  (batch_catalog homfly_polynomial knot_list poly_str).

(** X11. A line of n zeros read in a fresh state is no knot: the
    iteration ends without an error, and the knot counter, the catalogue,
    the output file and the list of HOMFLY computations are what they
    were. *)
Theorem blank_diagram_not_counted n size fuel s b :
  fresh_state n (tr b) → diagram_line n s = true →
  (∀ t, t ∈ tiles_of s → t = 0) →
  ∃ b', diagram' size fuel s b = Ok b' ∧
    knot_count b' = knot_count b ∧ knot_catalog b' = knot_catalog b ∧
    out b' = out b ∧ homfly_calls b' = homfly_calls b.
Proof.
  intros Hfresh Hline Hzero. eexists. split.
  - apply (diagram_blank _ _ _ n); try done. by apply first_nonzero_None.
  - done.
Qed.

(** X12. A file without diagrams gives an empty output file and the
    count 0: this is so for the empty file, for a file that has its header
    line only, and for a file whose line after the header is empty once
    stripped. *)
Theorem no_diagram_no_output fuel in_file :
  match tl in_file with
  | [] => True
  | l :: _ => String.length (strip l) = 0%nat
  end →
  batch_catalog' fuel in_file = Ok ([], 0).
Proof.
  intros Hfile. unfold batch_catalog.
  destruct (tl in_file) as [|l rest]; simpl; [done|]. by rewrite Hfile.
Qed.
End RunEdges.

Lemma blank_diagram_not_counted_witness :
  ∃ b', diagram no_homfly no_knot_list no_poly_str 2 100 "0000"
          (initial_bstate 2) = Ok b' ∧
    knot_count b' = knot_count (initial_bstate (poly:=unit) 2) ∧
    knot_catalog b' = knot_catalog (initial_bstate 2) ∧
    out b' = out (initial_bstate (poly:=unit) 2) ∧
    homfly_calls b' = homfly_calls (initial_bstate (poly:=unit) 2).
Proof.
  apply (blank_diagram_not_counted no_homfly no_knot_list no_poly_str 4).
  - repeat split; reflexivity.
  - reflexivity.
  - intros t Ht.
    replace (tiles_of "0000") with [0; 0; 0; 0] in Ht
      by (vm_compute; reflexivity).
    repeat (apply elem_of_cons in Ht as [Ht|Ht]; [exact Ht|]).
    by apply elem_of_nil in Ht.
Defined.

Lemma no_diagram_no_output_witness :
  batch_catalog no_homfly no_knot_list no_poly_str 100 ["0000"; " "; "0254"]
  = Ok ([], 0).
Proof.
  apply (no_diagram_no_output no_homfly no_knot_list no_poly_str).
  reflexivity.
Defined.

Lemma output_is_catalogue_witness :
  ∃ lines count,
    batch_catalog no_homfly no_knot_list no_poly_str 100
      ["0000"; "0254"; "0854"]%string = Ok (lines, count) ∧
    ∃ cat, lines = catalogue_lines no_poly_str cat ∧
      NoDup cat.*1 ∧
      (∀ e, e ∈ cat → e.2 ∈ strip <$> tl ["0000"; "0254"; "0854"]%string) ∧
      Z.of_nat (length lines)
      ≤ count ≤ Z.of_nat (length (tl ["0000"; "0254"; "0854"]%string)).
Proof.
  eexists. eexists. split; [vm_compute; reflexivity|].
  apply (output_is_catalogue no_homfly no_knot_list no_poly_str 100
           ["0000"; "0254"; "0854"]%string).
  vm_compute. reflexivity.
Defined.

Lemma catalogue_only_grows_witness :
  ∃ b', batch_loop no_homfly no_knot_list no_poly_str 2 100 ["0254"; "0854"]
          (initial_bstate 2) = Ok b' ∧
    knot_catalog (initial_bstate 2) `prefix_of` knot_catalog b' ∧
    knot_count (initial_bstate (poly:=unit) 2) ≤ knot_count b'
    ≤ knot_count (initial_bstate (poly:=unit) 2)
      + Z.of_nat (length ["0254"; "0854"]%string).
Proof.
  eexists. split; [vm_compute; reflexivity|].
  apply (catalogue_only_grows no_homfly no_knot_list no_poly_str 2 100
           ["0254"; "0854"]%string (initial_bstate 2)).
  vm_compute. reflexivity.
Defined.

Lemma blank_line_ends_the_run_witness :
  batch_loop no_homfly no_knot_list no_poly_str 2 100
    (["0254"%string] ++ " "%string :: ["0a"%string]) (initial_bstate 2)
  = batch_loop no_homfly no_knot_list no_poly_str 2 100 ["0254"]%string
      (initial_bstate 2).
Proof.
  apply (blank_line_ends_the_run no_homfly no_knot_list no_poly_str).
  reflexivity.
Defined.

(** ** The image script *)

Lemma for_each_app {A B} (body : B → A → result A) l1 l2 a :
  for_each body (l1 ++ l2) a
  = do a' <- for_each body l1 a; for_each body l2 a'.
Proof.
  revert a. induction l1 as [|b l1 IH]; intros a; simpl; [done|].
  destruct (body b a); simpl; auto.
Qed.

(** A loop whose body keeps an invariant and never raises ends normally. *)
Lemma for_each_inv {A B} (body : B → A → result A) (I : nat → A → Prop) l a :
  I 0%nat a →
  (∀ k b a, l !! k = Some b → I k a → ∃ a', body b a = Ok a' ∧ I (S k) a') →
  ∃ a', for_each body l a = Ok a' ∧ I (length l) a'.
Proof.
  intros H0 Hstep.
  assert (∀ k, (k ≤ length l)%nat →
               ∃ a', for_each body (take k l) a = Ok a' ∧ I k a') as H.
  { induction k as [|k IH]; intros Hk.
    - exists a. by rewrite take_0.
    - destruct IH as (a1 & E1 & I1); [lia|].
      destruct (lookup_lt_is_Some_2 l k) as [b Hb]; [lia|].
      destruct (Hstep k b a1 Hb I1) as (a2 & E2 & I2).
      exists a2. split; [|done].
      rewrite (take_S_r _ _ _ Hb), for_each_app, E1. simpl.
      by rewrite E2. }
  destruct (H (length l)) as (a' & E & HI); [lia|].
  rewrite firstn_all in E. eauto.
Qed.

Lemma for_range_inv {A} (body : Z → A → result A) (I : Z → A → Prop) n a :
  0 ≤ n → I 0 a →
  (∀ k a, 0 ≤ k < n → I k a → ∃ a', body k a = Ok a' ∧ I (k + 1) a') →
  ∃ a', for_each body (seqZ 0 n) a = Ok a' ∧ I n a'.
Proof.
  intros Hn H0 Hstep.
  destruct (for_each_inv body (λ k, I (Z.of_nat k)) (seqZ 0 n) a)
    as (a' & E & HI); [done| |].
  - intros k b a1 Hb HI. apply lookup_seqZ in Hb as [-> Hk].
    destruct (Hstep (Z.of_nat k) a1) as (a2 & E2 & I2); [lia|done|].
    exists a2. split; [done|]. by replace (Z.of_nat (S k)) with (Z.of_nat k + 1) by lia.
  - exists a'. split; [done|]. rewrite length_seqZ, Z2Nat.id in HI; done.
Qed.

(** A loop that ends normally ran its body on every element, each time
    from a state that anything the body keeps still holds of. *)
Lemma for_each_Ok_elem {A B} (body : B → A → result A) (J : A → Prop) l b :
  (∀ b a a', body b a = Ok a' → J a → J a') →
  b ∈ l → ∀ a a', for_each body l a = Ok a' → J a →
  ∃ a1 a2, J a1 ∧ body b a1 = Ok a2.
Proof.
  intros Hkeep Hb. induction l as [|c l IH]; intros a a' H HJ.
  - by apply elem_of_nil in Hb.
  - simpl in H. bind_inv H. apply elem_of_cons in Hb as [->|Hb].
    + eauto.
    + eapply IH; eauto.
Qed.

Lemma for_each_Ok_keeps {A B} (body : B → A → result A) (J : A → Prop) l :
  (∀ b a a', body b a = Ok a' → J a → J a') →
  ∀ a a', for_each body l a = Ok a' → J a → J a'.
Proof.
  intros Hkeep. induction l as [|c l IH]; intros a a' H HJ; simpl in H.
  - by injection H as <-.
  - bind_inv H. eauto.
Qed.

Lemma for_each_index_error {A B} (body : B → A → result A) l :
  (∀ b a, index_error (body b a)) → ∀ a, index_error (for_each body l a).
Proof.
  intros Hbody. induction l as [|b l IH]; intros a; simpl; [done|].
  specialize (Hbody b a). destruct (body b a) as [a'|[]|]; simpl; auto.
Qed.

Ltac zcases :=
  repeat match goal with
  | |- context [?a =? ?b] => destruct (Z.eqb_spec a b)
  | |- context [?a <=? ?b] => destruct (Z.leb_spec a b)
  | |- context [?a <? ?b] => destruct (Z.ltb_spec a b)
  end; simpl.

Lemma wrap_nonneg size k : 0 ≤ k → wrap size k = k.
Proof. unfold wrap. intros. destruct (Z.ltb_spec k 0); lia. Qed.

Lemma getpixel_Ok im x y :
  0 ≤ x < xsize im → 0 ≤ y < ysize im →
  getpixel im x y = Ok (pixel_at im x y).
Proof.
  intros Hx Hy. unfold getpixel, inside.
  rewrite !wrap_nonneg by lia. zcases; (done || lia).
Qed.

Lemma putpixel_Ok im x y p :
  0 ≤ x < xsize im → 0 ≤ y < ysize im →
  putpixel im x y p
  = Ok (Image (xsize im) (ysize im)
          (λ x' y', if (x' =? x) && (y' =? y) then p else pixel_at im x' y')).
Proof.
  intros Hx Hy. unfold putpixel, inside.
  rewrite !wrap_nonneg by lia. zcases; (done || lia).
Qed.

Lemma getpixel_inv im x y p :
  getpixel im x y = Ok p → 0 ≤ x → 0 ≤ y → x < xsize im ∧ y < ysize im.
Proof.
  unfold getpixel, inside. intros H Hx Hy.
  rewrite !wrap_nonneg in H by lia. revert H. zcases; (done || lia).
Qed.

Lemma putpixel_inv im x y p im' :
  putpixel im x y p = Ok im' → 0 ≤ x → 0 ≤ y →
  x < xsize im ∧ y < ysize im ∧ xsize im' = xsize im ∧ ysize im' = ysize im.
Proof.
  unfold putpixel, inside. intros H Hx Hy.
  rewrite !wrap_nonneg in H by lia. revert H.
  zcases; intros E; try done; injection E as <-; simpl; lia.
Qed.

Lemma getpixel_index_error im x y : index_error (getpixel im x y).
Proof. unfold getpixel. by destruct (inside _ _ _). Qed.

Lemma putpixel_index_error im x y p : index_error (putpixel im x y p).
Proof. unfold putpixel. by destruct (inside _ _ _). Qed.

(** One row of a tile that fits: the row is copied, the rest is kept. *)
Lemma put_row_Ok T size i y im :
  0 ≤ y < tile_size → tile_size ≤ xsize T → tile_size ≤ ysize T →
  0 ≤ cell_x size i → cell_x size i + tile_size ≤ xsize im →
  0 ≤ cell_y size i → cell_y size i + tile_size ≤ ysize im →
  ∃ im', put_row T size i y im = Ok im' ∧
    xsize im' = xsize im ∧ ysize im' = ysize im ∧
    ∀ X Y, pixel_at im' X Y =
      if (Y =? cell_y size i + y) && (cell_x size i <=? X)
         && (X <? cell_x size i + tile_size)
      then pixel_at T (X - cell_x size i) y else pixel_at im X Y.
Proof.
  intros Hy HTx HTy Hx0 Hx1 Hy0 Hy1. unfold put_row.
  apply (for_range_inv _ (λ k im',
    xsize im' = xsize im ∧ ysize im' = ysize im ∧
    ∀ X Y, pixel_at im' X Y =
      if (Y =? cell_y size i + y) && (cell_x size i <=? X)
         && (X <? cell_x size i + k)
      then pixel_at T (X - cell_x size i) y else pixel_at im X Y)).
  - done.
  - repeat split. intros X Y. zcases; (done || lia).
  - intros k im1 Hk (Hxs & Hys & Hpix).
    rewrite getpixel_Ok by (unfold tile_size in *; lia). cbn [bind].
    fold (cell_x size i) (cell_y size i).
    replace (i mod size * tile_size + k + border_size)
      with (cell_x size i + k) by (unfold cell_x; lia).
    replace (i / size * tile_size + y + border_size)
      with (cell_y size i + y) by (unfold cell_y; lia).
    rewrite putpixel_Ok by (unfold tile_size in *; lia).
    eexists. split; [done|]. simpl. repeat split; try done.
    intros X Y. rewrite Hpix.
    zcases; try done; try lia; f_equal; lia.
Qed.

(** A tile that fits: its cell is a copy of the image, the rest is kept. *)
Lemma put_tile_Ok T size i im :
  tile_size ≤ xsize T → tile_size ≤ ysize T →
  0 ≤ cell_x size i → cell_x size i + tile_size ≤ xsize im →
  0 ≤ cell_y size i → cell_y size i + tile_size ≤ ysize im →
  ∃ im', put_tile T size i im = Ok im' ∧
    xsize im' = xsize im ∧ ysize im' = ysize im ∧
    ∀ X Y, pixel_at im' X Y =
      if (cell_y size i <=? Y) && (Y <? cell_y size i + tile_size)
         && (cell_x size i <=? X) && (X <? cell_x size i + tile_size)
      then pixel_at T (X - cell_x size i) (Y - cell_y size i)
      else pixel_at im X Y.
Proof.
  intros HTx HTy Hx0 Hx1 Hy0 Hy1. unfold put_tile.
  apply (for_range_inv _ (λ k im',
    xsize im' = xsize im ∧ ysize im' = ysize im ∧
    ∀ X Y, pixel_at im' X Y =
      if (cell_y size i <=? Y) && (Y <? cell_y size i + k)
         && (cell_x size i <=? X) && (X <? cell_x size i + tile_size)
      then pixel_at T (X - cell_x size i) (Y - cell_y size i)
      else pixel_at im X Y)).
  - done.
  - repeat split. intros X Y. zcases; (done || lia).
  - intros k im1 Hk (Hxs & Hys & Hpix).
    destruct (put_row_Ok T size i k im1) as (im2 & E & Hxs2 & Hys2 & Hpix2);
      try done; try lia.
    exists im2. split; [done|]. repeat split; try lia.
    intros X Y. rewrite Hpix2, Hpix.
    zcases; try done; try lia; f_equal; lia.
Qed.

Lemma enumerate_from_lookup {B} (l : list B) : ∀ i k,
  enumerate_from i l !! k = (λ b, (i + Z.of_nat k, b)) <$> l !! k.
Proof.
  induction l as [|b l IH]; intros i [|k]; simpl; try done.
  - by rewrite Z.add_0_r.
  - rewrite IH. destruct (l !! k); simpl; [|done]. do 2 f_equal. lia.
Qed.

Lemma enumerate_lookup {B} (l : list B) k i b :
  enumerate l !! k = Some (i, b) ↔ i = Z.of_nat k ∧ l !! k = Some b.
Proof.
  unfold enumerate. rewrite enumerate_from_lookup.
  destruct (l !! k); simpl; split.
  - intros [= <- <-]. done.
  - intros [-> [= ->]]. done.
  - done.
  - by intros [_ ?].
Qed.

Lemma length_enumerate {B} (l : list B) : length (enumerate l) = length l.
Proof.
  unfold enumerate. generalize 0. induction l; intros; simpl; [done|].
  by rewrite IHl.
Qed.

(** The cells of the mosaic: the positions of the cell [i] are inside the
    border, and they are the positions whose row and column give [i]. *)
Lemma cell_bounds size i :
  0 < size → 0 ≤ i < size * size →
  0 ≤ i mod size < size ∧ 0 ≤ i / size < size.
Proof.
  intros Hs Hi. split; [by apply Z.mod_pos_bound|]. split.
  - apply Z.div_pos; lia.
  - apply Z.div_lt_upper_bound; lia.
Qed.

Lemma cell_inside size i X Y :
  0 < size → 0 ≤ i < size * size →
  cell_x size i ≤ X < cell_x size i + tile_size →
  cell_y size i ≤ Y < cell_y size i + tile_size →
  border_size ≤ X < border_size + size * tile_size ∧
  border_size ≤ Y < border_size + size * tile_size ∧
  (Y - border_size) / tile_size * size + (X - border_size) / tile_size = i ∧
  (X - border_size) mod tile_size = X - cell_x size i ∧
  (Y - border_size) mod tile_size = Y - cell_y size i.
Proof.
  intros Hs Hi HX HY.
  destruct (cell_bounds size i Hs Hi) as [Hb Ha].
  pose proof (Z.div_mod i size ltac:(lia)) as Hdm.
  unfold cell_x, cell_y, tile_size, border_size in *.
  set (a := i / size) in *. set (b := i mod size) in *.
  assert ((X - 4) / 128 = b) as Eb
    by (symmetry; apply (Z.div_unique _ _ _ (X - 4 - 128 * b)); lia).
  assert ((Y - 4) / 128 = a) as Ea
    by (symmetry; apply (Z.div_unique _ _ _ (Y - 4 - 128 * a)); lia).
  assert ((X - 4) mod 128 = X - 4 - 128 * b) as Mb
    by (symmetry; apply (Z.mod_unique _ _ b); lia).
  assert ((Y - 4) mod 128 = Y - 4 - 128 * a) as Ma
    by (symmetry; apply (Z.mod_unique _ _ a); lia).
  rewrite Ea, Eb, Mb, Ma. repeat split; try lia; nia.
Qed.

Lemma cell_index size i X Y :
  0 < size →
  border_size ≤ X < border_size + size * tile_size →
  border_size ≤ Y < border_size + size * tile_size →
  (Y - border_size) / tile_size * size + (X - border_size) / tile_size = i →
  0 ≤ i < size * size ∧
  cell_x size i ≤ X < cell_x size i + tile_size ∧
  cell_y size i ≤ Y < cell_y size i + tile_size.
Proof.
  intros Hs HX HY Hi.
  unfold cell_x, cell_y, tile_size, border_size in *.
  pose proof (Z.div_mod (X - 4) 128 ltac:(lia)) as HdX.
  pose proof (Z.mod_pos_bound (X - 4) 128 ltac:(lia)) as HmX.
  pose proof (Z.div_mod (Y - 4) 128 ltac:(lia)) as HdY.
  pose proof (Z.mod_pos_bound (Y - 4) 128 ltac:(lia)) as HmY.
  set (a := (Y - 4) / 128) in *. set (b := (X - 4) / 128) in *.
  assert (0 ≤ b < size) as Hb by lia.
  assert (0 ≤ a < size) as Ha by lia.
  assert (i / size = a) as Ea
    by (symmetry; apply (Z.div_unique _ _ _ b); lia).
  assert (i mod size = b) as Eb
    by (symmetry; apply (Z.mod_unique _ _ a); lia).
  rewrite Ea, Eb. repeat split; try lia; nia.
Qed.

(** The mosaic of a drawable matrix, pixel by pixel. *)
Lemma to_png_painted tiles matrix size :
  size = Z.sqrt (Z.of_nat (length matrix)) →
  drawable tiles matrix →
  ∃ img, to_png tiles matrix = Ok img ∧
    xsize img = size * tile_size + 2 * border_size ∧
    ysize img = size * tile_size + 2 * border_size ∧
    ∀ X Y, pixel_at img X Y
           = painted tiles matrix size (Z.of_nat (length matrix)) X Y.
Proof.
  intros Hsize Hdraw. unfold to_png. rewrite <- Hsize.
  rewrite <- (length_enumerate matrix).
  apply (for_each_inv _ (λ k img,
    xsize img = size * tile_size + 2 * border_size ∧
    ysize img = size * tile_size + 2 * border_size ∧
    ∀ X Y, pixel_at img X Y = painted tiles matrix size (Z.of_nat k) X Y)).
  - repeat split. intros X Y. unfold painted. simpl.
    destruct ((border_size <=? X) && (X <? border_size + size * tile_size)
              && (border_size <=? Y)
              && (Y <? border_size + size * tile_size)) eqn:Hint; [|done].
    assert (border_size ≤ X ∧ border_size ≤ Y) as [HX HY]
      by (revert Hint; zcases; (done || lia)).
    pose proof (Z.sqrt_nonneg (Z.of_nat (length matrix))) as Hs.
    rewrite <- Hsize in Hs.
    pose proof (Z.div_pos (X - border_size) tile_size ltac:(lia) eq_refl).
    pose proof (Z.div_pos (Y - border_size) tile_size ltac:(lia) eq_refl).
    match goal with |- _ = (if ?c then _ else _) => destruct c eqn:E end;
      [|done].
    apply Z.ltb_lt in E. nia.
  - intros k [i t] im Hk (Hxs & Hys & Hpix).
    apply enumerate_lookup in Hk as [-> Ht].
    destruct (tile_images tiles t) as [T|] eqn:HT.
    + destruct (Hdraw k t T Ht HT) as (Hin & HTx & HTy). rewrite <- Hsize in Hin.
      assert (0 < size) as Hs.
      { pose proof (Z.sqrt_nonneg (Z.of_nat (length matrix))). nia. }
      destruct (cell_bounds size (Z.of_nat k) Hs ltac:(lia)) as [Hb Ha].
      destruct (put_tile_Ok T size (Z.of_nat k) im) as (im' & E & Hxs' & Hys' & Hpix');
        try done;
        try (unfold cell_x, cell_y, tile_size, border_size in *; nia).
      exists im'. split; [done|]. repeat split; try lia.
      intros X Y. rewrite Hpix', Hpix.
      destruct ((cell_y size (Z.of_nat k) <=? Y)
                && (Y <? cell_y size (Z.of_nat k) + tile_size)
                && (cell_x size (Z.of_nat k) <=? X)
                && (X <? cell_x size (Z.of_nat k) + tile_size)) eqn:Hcell.
      * assert (cell_x size (Z.of_nat k) ≤ X
                < cell_x size (Z.of_nat k) + tile_size ∧
                cell_y size (Z.of_nat k) ≤ Y
                < cell_y size (Z.of_nat k) + tile_size) as [HX HY]
          by (revert Hcell; zcases; (done || lia)).
        destruct (cell_inside size (Z.of_nat k) X Y Hs ltac:(lia) HX HY)
          as (HX' & HY' & Hi & Hmx & Hmy).
        unfold painted. rewrite Hi, Hmx, Hmy, Nat2Z.id, Ht, HT.
        zcases; (done || lia).
      * unfold painted.
        destruct ((border_size <=? X) && (X <? border_size + size * tile_size)
                  && (border_size <=? Y)
                  && (Y <? border_size + size * tile_size)) eqn:Hint; [|done].
        set (j := (Y - border_size) / tile_size * size
                  + (X - border_size) / tile_size).
        destruct (Z.eq_dec j (Z.of_nat k)) as [Hj|Hj].
        -- exfalso.
           assert (border_size ≤ X < border_size + size * tile_size ∧
                   border_size ≤ Y < border_size + size * tile_size)
             as [HX HY] by (revert Hint; zcases; (done || lia)).
           destruct (cell_index size (Z.of_nat k) X Y Hs HX HY Hj)
             as (_ & HcX & HcY).
           revert Hcell. zcases; (done || lia).
        -- cbv zeta. destruct (Z.ltb_spec j (Z.of_nat k)),
             (Z.ltb_spec j (Z.of_nat (S k))); (done || lia).
    + exists im. split; [done|]. repeat split; try done.
      intros X Y. rewrite Hpix. unfold painted.
      destruct ((border_size <=? X) && (X <? border_size + size * tile_size)
                && (border_size <=? Y)
                && (Y <? border_size + size * tile_size)); [|done].
      set (j := (Y - border_size) / tile_size * size
                + (X - border_size) / tile_size).
      cbv zeta.
      destruct (Z.ltb_spec j (Z.of_nat k)), (Z.ltb_spec j (Z.of_nat (S k)));
        try done; try lia.
      replace j with (Z.of_nat k) by lia. by rewrite Nat2Z.id, Ht, HT.
Qed.

(** The pixels of a cell whose tile has an image, and the pixels outside
    those cells. *)
Lemma painted_cell tiles matrix size (i : nat) t T x y :
  0 < size → Z.of_nat i < size * size →
  matrix !! i = Some t → tile_images tiles t = Some T →
  0 ≤ x < tile_size → 0 ≤ y < tile_size →
  painted tiles matrix size (Z.of_nat (length matrix))
    (cell_x size (Z.of_nat i) + x) (cell_y size (Z.of_nat i) + y)
  = pixel_at T x y.
Proof.
  intros Hs Hin Ht HT Hx Hy.
  destruct (cell_inside size (Z.of_nat i)
              (cell_x size (Z.of_nat i) + x) (cell_y size (Z.of_nat i) + y))
    as (HX & HY & Hi & Hmx & Hmy); try lia.
  unfold painted. rewrite Hi, Hmx, Hmy, Nat2Z.id, Ht, HT.
  apply lookup_lt_Some in Ht.
  replace (cell_x size (Z.of_nat i) + x - cell_x size (Z.of_nat i))
    with x by lia.
  replace (cell_y size (Z.of_nat i) + y - cell_y size (Z.of_nat i))
    with y by lia.
  zcases; (done || lia).
Qed.

Lemma painted_rest tiles matrix size k X Y :
  0 ≤ size →
  (∀ (i : nat) t T,
     matrix !! i = Some t → tile_images tiles t = Some T →
     ¬ (cell_x size (Z.of_nat i) ≤ X < cell_x size (Z.of_nat i) + tile_size ∧
        cell_y size (Z.of_nat i) ≤ Y
        < cell_y size (Z.of_nat i) + tile_size)) →
  painted tiles matrix size k X Y = border_color.
Proof.
  intros Hs0 Hout. unfold painted.
  destruct ((border_size <=? X) && (X <? border_size + size * tile_size)
            && (border_size <=? Y)
            && (Y <? border_size + size * tile_size)) eqn:Hint; [|done].
  assert (border_size ≤ X < border_size + size * tile_size ∧
          border_size ≤ Y < border_size + size * tile_size)
    as [HX HY] by (revert Hint; zcases; (done || lia)).
  assert (0 < size) as Hs by (unfold tile_size in *; nia).
  set (j := (Y - border_size) / tile_size * size
            + (X - border_size) / tile_size).
  destruct (cell_index size j X Y Hs HX HY eq_refl) as (Hj & HcX & HcY).
  cbv zeta. destruct (j <? k); [|done].
  destruct (matrix !! Z.to_nat j) as [t|] eqn:Ht; [|done].
  destruct (tile_images tiles t) as [T|] eqn:HT; [|done].
  destruct (Hout (Z.to_nat j) t T Ht HT). rewrite Z2Nat.id by lia. done.
Qed.

(** X13. The mosaic of a matrix whose tiles with an image lie in the
    square of size by size cells, with images of 128 by 128 pixels at
    least: the mosaic is drawn without an error, it is a square of
    128 * size + 8 pixels a side, the cell of every such tile is a copy of
    the corner of its image (cell i stands in column i mod size and row
    i // size, behind a border of 4 pixels), and every pixel outside those
    cells has the border colour. *)
Theorem mosaic_layout tiles matrix size :
  size = Z.sqrt (Z.of_nat (length matrix)) →
  drawable tiles matrix →
  ∃ img, to_png tiles matrix = Ok img ∧
    xsize img = size * tile_size + 2 * border_size ∧
    ysize img = size * tile_size + 2 * border_size ∧
    (∀ (i : nat) t T x y,
       matrix !! i = Some t → tile_images tiles t = Some T →
       0 ≤ x < tile_size → 0 ≤ y < tile_size →
       pixel_at img (cell_x size (Z.of_nat i) + x)
                    (cell_y size (Z.of_nat i) + y) = pixel_at T x y) ∧
    (∀ X Y,
       (∀ (i : nat) t T,
          matrix !! i = Some t → tile_images tiles t = Some T →
          ¬ (cell_x size (Z.of_nat i) ≤ X
             < cell_x size (Z.of_nat i) + tile_size ∧
             cell_y size (Z.of_nat i) ≤ Y
             < cell_y size (Z.of_nat i) + tile_size)) →
       pixel_at img X Y = border_color).
Proof.
  intros Hsize Hdraw.
  destruct (to_png_painted tiles matrix size Hsize Hdraw)
    as (img & E & Hxs & Hys & Hpix).
  pose proof (Z.sqrt_nonneg (Z.of_nat (length matrix))) as Hs0.
  rewrite <- Hsize in Hs0.
  exists img. split; [done|]. split; [done|]. split; [done|]. split.
  - intros i t T x y Ht HT Hx Hy.
    destruct (Hdraw i t T Ht HT) as (Hin & _). rewrite <- Hsize in Hin.
    rewrite Hpix. apply (painted_cell tiles matrix size i t T); try done. nia.
  - intros X Y Hout. rewrite Hpix. by apply painted_rest.
Qed.

Lemma mosaic_layout_witness :
  ∃ img, to_png black_tiles [2; 1; 3; 4] = Ok img ∧
    xsize img = 2 * tile_size + 2 * border_size ∧
    ysize img = 2 * tile_size + 2 * border_size ∧
    (∀ (i : nat) t T x y,
       [2; 1; 3; 4] !! i = Some t → tile_images black_tiles t = Some T →
       0 ≤ x < tile_size → 0 ≤ y < tile_size →
       pixel_at img (cell_x 2 (Z.of_nat i) + x)
                    (cell_y 2 (Z.of_nat i) + y) = pixel_at T x y) ∧
    (∀ X Y,
       (∀ (i : nat) t T,
          [2; 1; 3; 4] !! i = Some t → tile_images black_tiles t = Some T →
          ¬ (cell_x 2 (Z.of_nat i) ≤ X
             < cell_x 2 (Z.of_nat i) + tile_size ∧
             cell_y 2 (Z.of_nat i) ≤ Y
             < cell_y 2 (Z.of_nat i) + tile_size)) →
       pixel_at img X Y = border_color).
Proof.
  apply (mosaic_layout black_tiles [2; 1; 3; 4] 2); [reflexivity|].
  intros i t T Ht HT.
  assert (i < 4)%nat by (apply lookup_lt_Some in Ht; simpl in Ht; lia).
  unfold tile_images, black_tiles in HT.
  destruct ((0 <=? t) && (t <? 10)); [|done].
  injection HT as <-.
  change (Z.sqrt (Z.of_nat (length [2; 1; 3; 4]))) with 2.
  unfold new_image, tile_size. cbn [xsize ysize]. lia.
Defined.

Lemma putpixel_size im x y p im' :
  putpixel im x y p = Ok im' → xsize im' = xsize im ∧ ysize im' = ysize im.
Proof.
  unfold putpixel. destruct (inside _ _ _); [|done]. by intros [= <-].
Qed.

Lemma put_row_size T size i y im im' :
  put_row T size i y im = Ok im' →
  xsize im' = xsize im ∧ ysize im' = ysize im.
Proof.
  unfold put_row. intros H.
  eapply (for_each_Ok_keeps _
            (λ a, xsize a = xsize im ∧ ysize a = ysize im));
    [|exact H|done].
  intros x a a' Hb [Hx Hy]. bind_inv Hb.
  apply putpixel_size in Hb as [-> ->]. done.
Qed.

Lemma put_tile_size T size i im im' :
  put_tile T size i im = Ok im' →
  xsize im' = xsize im ∧ ysize im' = ysize im.
Proof.
  unfold put_tile. intros H.
  eapply (for_each_Ok_keeps _
            (λ a, xsize a = xsize im ∧ ysize a = ysize im));
    [|exact H|done].
  intros y a a' Hb [Hx Hy].
  apply put_row_size in Hb as [-> ->]. done.
Qed.

(** A tile that was drawn had each of its pixels read and written. *)
Lemma put_tile_Ok_inv T size i im im' x y :
  put_tile T size i im = Ok im' →
  0 ≤ x < tile_size → 0 ≤ y < tile_size →
  ∃ im1 im2 p,
    xsize im1 = xsize im ∧ ysize im1 = ysize im ∧
    getpixel T x y = Ok p ∧
    putpixel im1 (i mod size * tile_size + x + border_size)
                 (i / size * tile_size + y + border_size) p = Ok im2.
Proof.
  unfold put_tile. intros H Hx Hy.
  destruct (for_each_Ok_elem (put_row T size i)
              (λ a, xsize a = xsize im ∧ ysize a = ysize im)
              (seqZ 0 tile_size) y) with (a := im) (a' := im')
    as (im1 & im2 & [Hx1 Hy1] & Hrow); try done.
  { intros b a a' Hb [Hxa Hya].
    apply put_row_size in Hb as [-> ->]. done. }
  { apply elem_of_seqZ. lia. }
  unfold put_row in Hrow.
  destruct (for_each_Ok_elem
              (λ x mosaic,
                 do pixel <- getpixel T x y;
                 putpixel mosaic (i mod size * tile_size + x + border_size)
                   (i / size * tile_size + y + border_size) pixel)
              (λ a, xsize a = xsize im ∧ ysize a = ysize im)
              (seqZ 0 tile_size) x) with (a := im1) (a' := im2)
    as (im3 & im4 & [Hx3 Hy3] & Hput); try done.
  { intros b a a' Hb [Hxa Hya]. bind_inv Hb.
    apply putpixel_size in Hb as [-> ->]. done. }
  { apply elem_of_seqZ. lia. }
  cbv beta in Hput. bind_inv Hput. eauto 10.
Qed.

Lemma to_png_index_error tiles matrix : index_error (to_png tiles matrix).
Proof.
  unfold to_png. apply for_each_index_error. intros [i t] im.
  destruct (tile_images tiles t) as [T|]; [|done].
  apply for_each_index_error. intros y im1.
  apply for_each_index_error. intros x im2.
  pose proof (getpixel_index_error T x y) as Hg.
  destruct (getpixel T x y) as [p|[]|]; try done.
  apply putpixel_index_error.
Qed.

(** X14. A tile of the matrix that has an image but lies behind the
    square of size by size cells (the length of the matrix is no square),
    or whose image is smaller than 128 by 128 pixels, makes [to_png] raise
    IndexError: no mosaic is made. *)
Theorem undrawable_mosaic_raises tiles matrix size (i : nat) t T :
  size = Z.sqrt (Z.of_nat (length matrix)) →
  matrix !! i = Some t → tile_images tiles t = Some T →
  size * size ≤ Z.of_nat i ∨ xsize T < tile_size ∨ ysize T < tile_size →
  to_png tiles matrix = Raise IndexError.
Proof.
  intros Hsize Ht HT Hbad.
  pose proof (to_png_index_error tiles matrix) as Herr.
  destruct (to_png tiles matrix) as [img|[]|] eqn:E; try done.
  exfalso. unfold to_png in E. rewrite <- Hsize in E.
  set (w := size * tile_size + 2 * border_size) in E.
  assert (0 < size) as Hs.
  { rewrite Hsize. apply Z.sqrt_pos. apply lookup_lt_Some in Ht. lia. }
  destruct (for_each_Ok_elem
              (λ '(i, tile) mosaic,
                 match tile_images tiles tile with
                 | Some img_tile => put_tile img_tile size i mosaic
                 | None => Ok mosaic
                 end)
              (λ a, xsize a = w ∧ ysize a = w)
              (enumerate matrix) (Z.of_nat i, t))
    with (a := new_image w w border_color) (a' := img)
    as (im1 & im2 & [Hx1 Hy1] & Hcell); try done.
  { intros [j u] a a' Hb [Hxa Hya].
    destruct (tile_images tiles u); [|by injection Hb as <-].
    apply put_tile_size in Hb as [-> ->]. done. }
  { apply list_elem_of_lookup. exists i. by apply enumerate_lookup. }
  cbv beta iota in Hcell. rewrite HT in Hcell.
  pose proof (Z.mod_pos_bound (Z.of_nat i) size Hs) as Hmod.
  pose proof (Z.div_pos (Z.of_nat i) size ltac:(lia) Hs) as Hdiv.
  destruct Hbad as [Hout|[Hsmall|Hsmall]].
  - destruct (put_tile_Ok_inv T size (Z.of_nat i) im1 im2 0 4 Hcell)
      as (im3 & im4 & p & Hx3 & Hy3 & _ & Hput);
      [unfold tile_size; lia..|].
    apply putpixel_inv in Hput as (_ & HY & _);
      [|unfold tile_size, border_size; lia..].
    assert (size ≤ Z.of_nat i / size)
      by (apply Z.div_le_lower_bound; lia).
    unfold w, tile_size, border_size in *. lia.
  - destruct (put_tile_Ok_inv T size (Z.of_nat i) im1 im2 (tile_size - 1) 0
                Hcell)
      as (im3 & im4 & p & _ & _ & Hget & _); [unfold tile_size; lia..|].
    apply getpixel_inv in Hget; unfold tile_size in *; lia.
  - destruct (put_tile_Ok_inv T size (Z.of_nat i) im1 im2 0 (tile_size - 1)
                Hcell)
      as (im3 & im4 & p & _ & _ & Hget & _); [unfold tile_size; lia..|].
    apply getpixel_inv in Hget; unfold tile_size in *; lia.
Qed.

Lemma undrawable_mosaic_raises_witness :
  to_png black_tiles [2; 1] = Raise IndexError.
Proof.
  apply (undrawable_mosaic_raises black_tiles [2; 1] 1 1%nat 1
           (new_image tile_size tile_size (0, 0, 0, 255)));
    [reflexivity..|].
  left. reflexivity.
Defined.

(** X15. Tiles without an image are skipped: when no tile of the matrix
    has an image (no tile file was found, or the numbers are not 0 to 9),
    [to_png] raises nothing, whatever the length of the matrix, and every
    pixel of the mosaic has the border colour. *)
Theorem missing_tiles_leave_border tiles matrix :
  (∀ t, t ∈ matrix → tile_images tiles t = None) →
  ∃ img, to_png tiles matrix = Ok img ∧
    xsize img = ysize img ∧
    ∀ X Y, pixel_at img X Y = border_color.
Proof.
  intros Hnone.
  destruct (to_png_painted tiles matrix _ eq_refl)
    as (img & E & Hxs & Hys & Hpix).
  { intros i t T Ht HT. apply list_elem_of_lookup_2 in Ht.
    rewrite (Hnone t Ht) in HT. done. }
  exists img. split; [done|]. split; [lia|].
  intros X Y. rewrite Hpix. unfold painted.
  repeat case_match; try done.
  match goal with
  | H : matrix !! _ = Some ?t, H' : tile_images tiles ?t = Some _ |- _ =>
      apply list_elem_of_lookup_2 in H; rewrite (Hnone _ H) in H'; done
  end.
Qed.

Lemma missing_tiles_leave_border_witness :
  ∃ img, to_png no_tiles [2; 1; 3] = Ok img ∧
    xsize img = ysize img ∧
    ∀ X Y, pixel_at img X Y = border_color.
Proof.
  apply (missing_tiles_leave_border no_tiles [2; 1; 3]).
  intros t _. unfold tile_images, no_tiles. by destruct (_ && _).
Defined.

Lemma digits_spec cs :
  digits cs = if forallb is_digit cs then Ok (digit_value <$> cs)
              else Raise ValueError.
Proof.
  induction cs as [|c cs IH]; simpl; [done|].
  unfold int_of_char. destruct (is_digit c); simpl; [|done].
  rewrite IH. by destruct (forallb is_digit cs).
Qed.

Lemma digit_value_range c : is_digit c = true → 0 ≤ digit_value c ≤ 9.
Proof.
  unfold is_digit, digit_value. cbv zeta. intros H.
  apply andb_true_iff in H as [H1 H2].
  apply Z.leb_le in H1, H2. lia.
Qed.

Lemma rfind_notin c p : c ∉ p → rfind c p = -1.
Proof.
  induction p as [|a p IH]; intros Hc; [done|]. simpl.
  apply not_elem_of_cons in Hc as [Hne Hc]. rewrite (IH Hc). simpl.
  destruct (Ascii.eqb_spec a c); [by subst|done].
Qed.

Lemma rfind_last c p1 p2 :
  c ∉ p2 → rfind c (p1 ++ c :: p2) = Z.of_nat (length p1).
Proof.
  intros Hc. induction p1 as [|a p1 IH]; simpl.
  - rewrite (rfind_notin _ _ Hc). simpl. by rewrite Ascii.eqb_refl.
  - rewrite IH. destruct (Z.leb_spec 0 (Z.of_nat (length p1))); lia.
Qed.

Lemma digit_not_dot c : is_digit c = true → Ascii.eqb c "." = false.
Proof.
  intros Hc. destruct (Ascii.eqb_spec c "."); [|done]. by subst.
Qed.

Lemma digit_not_slash c : is_digit c = true → Ascii.eqb c "/" = false.
Proof.
  intros Hc. destruct (Ascii.eqb_spec c "/"); [|done]. by subst.
Qed.

Lemma list_ascii_of_string_app a b :
  list_ascii_of_string (a +:+ b)
  = list_ascii_of_string a ++ list_ascii_of_string b.
Proof.
  induction a as [|x a IH]; [done|].
  change (x :: list_ascii_of_string (a +:+ b)
          = x :: (list_ascii_of_string a ++ list_ascii_of_string b)).
  by f_equal.
Qed.

(** The name images/<code>.png of a code of digits has the extension
    ".png", unless the code is empty. *)
Lemma extension_of_code cs :
  forallb is_digit cs = true → cs ≠ [] →
  extension (list_ascii_of_string "images/" ++ cs ++ list_ascii_of_string ".png")
  = list_ascii_of_string ".png".
Proof.
  intros Hdig Hne.
  assert (Hall : ∀ c, c ∈ cs → is_digit c = true).
  { intros c Hc. rewrite forallb_forall in Hdig. apply Hdig.
    by apply list_elem_of_In. }
  set (p := list_ascii_of_string "images/" ++ cs ++ list_ascii_of_string ".png").
  assert (rfind "/" p = 6) as Hsep.
  { change p with (list_ascii_of_string "images"
                   ++ "/"%char :: (cs ++ list_ascii_of_string ".png")).
    rewrite rfind_last; [done|].
    intros [Hc|Hc]%elem_of_app.
    - by apply Hall in Hc.
    - simpl in Hc. repeat (apply elem_of_cons in Hc as [Hc|Hc]; [done|]).
      by apply elem_of_nil in Hc. }
  assert (rfind "." p = 7 + Z.of_nat (length cs)) as Hdot.
  { replace p with ((list_ascii_of_string "images/" ++ cs)
                    ++ "."%char :: list_ascii_of_string "png")
      by (unfold p; rewrite <- app_assoc; done).
    rewrite rfind_last.
    - rewrite length_app. simpl. lia.
    - simpl. intros Hc.
      repeat (apply elem_of_cons in Hc as [Hc|Hc]; [done|]).
      by apply elem_of_nil in Hc. }
  unfold extension. fold p. rewrite Hsep, Hdot.
  replace (Z.to_nat (7 + Z.of_nat (length cs) - (6 + 1))) with (length cs)
    by lia.
  replace (Z.to_nat (6 + 1)) with 7%nat by lia.
  replace (Z.to_nat (7 + Z.of_nat (length cs))) with (7 + length cs)%nat
    by lia.
  change (drop 7 p) with (cs ++ list_ascii_of_string ".png").
  rewrite take_app_length.
  replace (drop (7 + length cs) p) with (list_ascii_of_string ".png").
  2:{ unfold p. rewrite <- drop_drop.
      change (drop 7 (list_ascii_of_string "images/" ++ cs
                      ++ list_ascii_of_string ".png"))
        with (cs ++ list_ascii_of_string ".png").
      by rewrite drop_app_length. }
  destruct cs as [|c cs]; [done|].
  destruct (Z.ltb_spec 6 (7 + Z.of_nat (length (c :: cs)))); [|lia].
  simpl. rewrite digit_not_dot; [done|]. apply Hall, list_elem_of_here.
Qed.

(** X16. The script on a mosaic code of n * n digits, n at least 1, with
    the ten tile files found and of 128 by 128 pixels at least: the file
    saved is images/<code>.png, and it is the rotation of a mosaic that
    is a square of 128 * n + 8 pixels a side, in which the cell of the
    digit at position i is a copy of the corner of the image of that
    digit, and the border around the cells has the border colour. *)
Theorem main_draws_every_tile rotate tiles prog s (n : nat) :
  forallb is_digit (list_ascii_of_string s) = true →
  String.length s = (n * n)%nat →
  (0 < n)%nat →
  (∀ d, 0 ≤ d ≤ 9 →
     ∃ T, tiles d = Some T ∧ tile_size ≤ xsize T ∧ tile_size ≤ ysize T) →
  ∃ img, main rotate tiles [prog; s]
         = Ok (Some ("images/" +:+ s +:+ ".png", rotate img)) ∧
    xsize img = Z.of_nat n * tile_size + 2 * border_size ∧
    ysize img = Z.of_nat n * tile_size + 2 * border_size ∧
    (∀ (i : nat) d T x y,
       tiles_of s !! i = Some d → tiles d = Some T →
       0 ≤ x < tile_size → 0 ≤ y < tile_size →
       pixel_at img (cell_x (Z.of_nat n) (Z.of_nat i) + x)
                    (cell_y (Z.of_nat n) (Z.of_nat i) + y) = pixel_at T x y) ∧
    (∀ X Y,
       ¬ (border_size ≤ X < border_size + Z.of_nat n * tile_size ∧
          border_size ≤ Y < border_size + Z.of_nat n * tile_size) →
       pixel_at img X Y = border_color).
Proof.
  intros Hdig Hlen Hn Htiles.
  assert (∀ (i : nat) d, tiles_of s !! i = Some d → 0 ≤ d ≤ 9) as Hrange.
  { intros i d Hd. unfold tiles_of in Hd.
    apply list_lookup_fmap_Some in Hd as (c & -> & Hc).
    apply digit_value_range.
    rewrite forallb_forall in Hdig. apply Hdig.
    apply list_elem_of_In. by apply list_elem_of_lookup_2 in Hc. }
  assert (length (tiles_of s) = (n * n)%nat) as Hlen'.
  { unfold tiles_of. by rewrite length_fmap, length_list_ascii_of_string. }
  assert (Z.of_nat n = Z.sqrt (Z.of_nat (length (tiles_of s)))) as Hsize.
  { rewrite Hlen', Nat2Z.inj_mul, Z.sqrt_square; lia. }
  assert (∀ d, 0 ≤ d ≤ 9 → tile_images tiles d = tiles d) as Himg.
  { intros d Hd. unfold tile_images.
    destruct (Z.leb_spec 0 d), (Z.ltb_spec d 10); simpl; (done || lia). }
  destruct (to_png_painted tiles (tiles_of s) (Z.of_nat n) Hsize)
    as (img & E & Hxs & Hys & Hpix).
  { intros i d T Hd HT. rewrite <- Hsize.
    rewrite (Himg d (Hrange i d Hd)) in HT.
    destruct (Htiles d (Hrange i d Hd)) as (T' & HT' & Hx & Hy).
    rewrite HT in HT'. injection HT' as <-.
    apply lookup_lt_Some in Hd. split; [|done]. lia. }
  exists img. split; [|split; [done|split; [done|split]]].
  - unfold main. simpl. rewrite digits_spec, Hdig. cbn [bind].
    fold (tiles_of s). rewrite E. cbn [bind].
    unfold save_rotated. rewrite !list_ascii_of_string_app.
    rewrite extension_of_code; [by rewrite bool_decide_eq_true_2|done|].
    intros Hnil. rewrite <- length_list_ascii_of_string, Hnil in Hlen.
    simpl in Hlen. nia.
  - intros i d T x y Hd HT Hx Hy. rewrite Hpix.
    pose proof (lookup_lt_Some _ _ _ Hd).
    apply (painted_cell tiles (tiles_of s) (Z.of_nat n) i d T);
      try done; try lia.
    by rewrite (Himg d (Hrange i d Hd)).
  - intros X Y Hout. rewrite Hpix. apply painted_rest; [lia|].
    intros i d T Hd HT [HcX HcY]. apply Hout.
    apply lookup_lt_Some in Hd.
    destruct (cell_inside (Z.of_nat n) (Z.of_nat i) X Y) as (HX & HY & _);
      try done; lia.
Qed.

Lemma main_draws_every_tile_witness :
  ∃ img, main no_rotation black_tiles ["to_image.py"; "2134"]
         = Ok (Some ("images/" +:+ "2134" +:+ ".png", no_rotation img)) ∧
    xsize img = Z.of_nat 2 * tile_size + 2 * border_size ∧
    ysize img = Z.of_nat 2 * tile_size + 2 * border_size ∧
    (∀ (i : nat) d T x y,
       tiles_of "2134" !! i = Some d → black_tiles d = Some T →
       0 ≤ x < tile_size → 0 ≤ y < tile_size →
       pixel_at img (cell_x (Z.of_nat 2) (Z.of_nat i) + x)
                    (cell_y (Z.of_nat 2) (Z.of_nat i) + y) = pixel_at T x y) ∧
    (∀ X Y,
       ¬ (border_size ≤ X < border_size + Z.of_nat 2 * tile_size ∧
          border_size ≤ Y < border_size + Z.of_nat 2 * tile_size) →
       pixel_at img X Y = border_color).
Proof.
  apply (main_draws_every_tile no_rotation black_tiles "to_image.py" "2134" 2);
    [reflexivity | reflexivity | lia |].
  intros d _. eexists. split; [reflexivity|]. simpl. lia.
Defined.

(** X17. A mosaic code with a character that is no digit makes the script
    raise ValueError before anything is drawn, whatever the tile files
    and whatever the length of the code. *)
Theorem main_rejects_non_digit rotate tiles prog s :
  forallb is_digit (list_ascii_of_string s) = false →
  main rotate tiles [prog; s] = Raise ValueError.
Proof.
  intros Hdig. unfold main. simpl. by rewrite digits_spec, Hdig.
Qed.

Lemma main_rejects_non_digit_witness :
  main no_rotation no_tiles ["to_image.py"; "21a"] = Raise ValueError.
Proof.
  apply (main_rejects_non_digit no_rotation no_tiles "to_image.py" "21a").
  reflexivity.
Defined.

(** X18. The empty mosaic code is drawn, as a mosaic of the border alone,
    but not saved: the name images/.png has no extension for [save] to
    take the format from, and the script ends with ValueError, whatever
    the tile files. *)
Theorem empty_code_is_not_saved rotate tiles prog :
  to_png tiles [] = Ok (new_image (2 * border_size) (2 * border_size)
                          border_color) ∧
  extension (list_ascii_of_string "images/.png") = [] ∧
  main rotate tiles [prog; ""] = Raise ValueError.
Proof.
  split; [reflexivity|]. split; [reflexivity|].
  unfold main. simpl. reflexivity.
Qed.

(** ** Traversals that cannot be resolved *)

Section UnresolvableFacts.
Context {poly : Type} `{EqDecision poly}.
Variable homfly_polynomial : list Z → list Z → result poly.
Variable knot_list : poly → option string.
Variable poly_str : poly → string.

Local Abbreviation batch_loop' := (batch_loop homfly_polynomial knot_list poly_str).

(** C6 (amended). Let the walk of a line of n digits stand, after k
    iterations and with the loop test of line 169 true, on the tile
    [curr_tile]. When no connection of that tile has the current face as
    its entry port, the loop body changes nothing and the loop is not left,
    whatever the number of iterations allowed. When [curr_tile] is no index
    of the tile list (below -n, or n and above), line 170 raises
    IndexError in iteration k + 1. In both cases the run does not get past
    this diagram: it is neither discarded nor followed by the next
    line. *)
Theorem unresolvable_traversal_stops_the_run n size l rest b st1 k stk :
  fresh_state n (tr b) →
  diagram_line n (strip l) = true →
  String.length (strip l) ≠ 0%nat →
  start_diagram (strip l) (tr b) = Ok (Placed st1) →
  iterations size k st1 stk →
  loop_cond stk = Ok true →
  (select_conn stk = Ok None →
     loop_body size stk = Ok stk ∧
     ∀ fuel, batch_loop' size fuel (l :: rest) b = Timeout) ∧
  (curr_tile stk < - Z.of_nat n ∨ Z.of_nat n ≤ curr_tile stk →
     ∀ fuel, batch_loop' size fuel (l :: rest) b
             = if (fuel <=? k)%nat then Timeout else Raise IndexError).
Proof.
  intros Hfresh Hline Hlen Hstart Hiter Hcond. split.
  - intros Hsel. split.
    + unfold loop_body. by rewrite Hsel.
    + intros fuel. rewrite batch_loop_cons by done.
      by rewrite (diagram_stuck _ _ _ _ _ _ _ _ _ Hstart Hiter Hcond Hsel).
  - intros Hout fuel. rewrite batch_loop_cons by done.
    assert (select_conn stk = Raise IndexError) as Hsel.
    { pose proof (start_diagram_walk_inv _ _ _ _ Hfresh Hline Hstart) as Hw.
      apply (iterations_walk_inv _ _ _ _ _ Hw) in Hiter as [(Hm & _) _].
      unfold select_conn. rewrite py_get_Raise; [done|].
      apply py_index_None. by rewrite Hm. }
    rewrite (diagram_off_grid _ _ _ _ _ _ _ _ _ Hstart Hiter Hcond Hsel fuel).
    by destruct (fuel <=? k)%nat.
Qed.
End UnresolvableFacts.

Lemma unresolvable_traversal_stops_the_run_witness :
  (select_conn
     {| mosaic := [0; 0; 0; 1];
        satisfied := [true; true; true; true];
        crossing_number := [0; 0; 0; 0];
        gauss_code := []; crossing_signs := [];
        made_connections := [[]; []; []; [(2, 3)]];
        crossing_count := 0; i := 4; num := 1; writhe := 0;
        up_cusps := 0; down_cusps := 0; curr_tile := 5;
        starting_tile := Some 3; face := 1 |} = Ok None →
   loop_body 2
     {| mosaic := [0; 0; 0; 1];
        satisfied := [true; true; true; true];
        crossing_number := [0; 0; 0; 0];
        gauss_code := []; crossing_signs := [];
        made_connections := [[]; []; []; [(2, 3)]];
        crossing_count := 0; i := 4; num := 1; writhe := 0;
        up_cusps := 0; down_cusps := 0; curr_tile := 5;
        starting_tile := Some 3; face := 1 |}
   = Ok
     {| mosaic := [0; 0; 0; 1];
        satisfied := [true; true; true; true];
        crossing_number := [0; 0; 0; 0];
        gauss_code := []; crossing_signs := [];
        made_connections := [[]; []; []; [(2, 3)]];
        crossing_count := 0; i := 4; num := 1; writhe := 0;
        up_cusps := 0; down_cusps := 0; curr_tile := 5;
        starting_tile := Some 3; face := 1 |} ∧
   ∀ fuel, batch_loop no_homfly no_knot_list no_poly_str 2 fuel
             ["0001"; "0254"] (initial_bstate 2) = Timeout) ∧
  (5 < - Z.of_nat 4 ∨ Z.of_nat 4 ≤ 5 →
   ∀ fuel, batch_loop no_homfly no_knot_list no_poly_str 2 fuel
             ["0001"; "0254"] (initial_bstate 2)
           = if (fuel <=? 1)%nat then Timeout else Raise IndexError).
Proof.
  eapply (unresolvable_traversal_stops_the_run no_homfly no_knot_list
            no_poly_str 4 2 "0001" ["0254"] (initial_bstate 2) _ 1).
  - repeat split; reflexivity.
  - vm_compute. reflexivity.
  - vm_compute. discriminate.
  - vm_compute. reflexivity.
  - eapply iterations_S; [vm_compute; reflexivity | vm_compute; reflexivity |].
    apply iterations_O.
  - vm_compute. reflexivity.
Defined.

(** C6 at a walk off the grid: the single arc of the diagram 0001 of
    size 2 leads below the bottom row, and the run ends with IndexError. *)
Lemma walk_off_the_grid_raises :
  batch_catalog no_homfly no_knot_list no_poly_str 100
    ["0000"; "0001"; "0254"] = Raise IndexError.
Proof. vm_compute. reflexivity. Qed.
